(** * Wire codec, attachment transfer and client session of connectome-grpc-common

    A shallow embedding of
      - [src/serialization/event-serializer.ts]  (module [EventSerializer]),
      - [src/serialization/facet-serializer.ts]  (module [FacetSerializer]),
      - [src/serialization/attachment-handler.ts] (module [AttachmentHandler]),
      - the connection life cycle of [src/client.ts] (module [Client]),
    preceded by models of the platform functions they call ([JSON.stringify],
    [JSON.parse], [TextEncoder], [TextDecoder], [atob]).

    Conventions.
    - A JavaScript string is a [string]; its characters are the code units
      0..255 (Latin-1).  A code unit above 255 is represented by a stand-in
      character, [Json.substitute].
    - A [Uint8Array] is a [list Byte.byte].
    - An optional property is an [option]; [None] is "absent or undefined".
    - An object used as a dictionary is an association list in property
      order; [obj_set] defines a property, and [Js.assign] is the assignment
      [obj[key] = v] on an object literal, which creates no property named
      __proto__.
    - A JavaScript number that holds an integer of the safe range is a [Z];
      any other number is the text that Number.prototype.toString gives for
      the double. *)

From Stdlib Require Import List String Ascii ZArith NArith Lia Bool.
From Stdlib.Strings Require Byte.
Import ListNotations.

Set Warnings "-register-all,-masking-absolute-name".

Open Scope string_scope.
Open Scope list_scope.

(** ** JSON.stringify and JSON.parse

    Values are the JSON data model together with the Numbers JSON.parse can
    return.  [JNum] holds the integers a double represents exactly (the safe
    range).  Every other Number is held in [JNumLit] as the text
    Number.prototype.toString gives it, "Infinity" and "NaN" included:
    JSON.parse rounds the decimal of a token to the nearest double and the
    text is the shortest decimal that is read back as that double.  An object
    is its list of properties in insertion order; the special order
    JavaScript gives to index-like keys is not modelled. *)
Module Json.

Inductive value : Type :=
| JNull
| JBool (b : bool)
| JNum (z : Z)
| JNumLit (lit : string)
| JStr (s : string)
| JArr (items : list value)
| JObj (props : list (string * value)).

(* Printer and parser work on lists of characters. *)
Definition chars := list ascii.

(* The double quote and the backslash. *)
Definition c_quote : ascii := "034"%char.
Definition c_bslash : ascii := "092"%char.

(* Stand-in for every code unit above 255 (U+FFFD included): like those, it
   is neither white space nor a character of the JSON grammar, so a text
   parses here exactly when it parses with the real characters. *)
Definition substitute : ascii := "?"%char.

(* Setting the own property k of o to v: an existing property keeps its
   place, a new one goes last. *)
Fixpoint obj_set {A : Type} (k : string) (v : A) (o : list (string * A)) : list (string * A) :=
  match o with
  | [] => [(k, v)]
  | (k', v') :: o' =>
      if String.eqb k' k then (k', v) :: o' else (k', v') :: obj_set k v o'
  end.

(* The object that setting the entries one after the other builds; a
   repeated key keeps the last value. *)
Definition obj_of_entries {A : Type} (l : list (string * A)) : list (string * A) :=
  fold_left (fun o kv => obj_set (fst kv) (snd kv) o) l [].

(** *** Numbers *)

Definition digit_char (d : N) : ascii := ascii_of_N (48 + d).

(* Decimal digits, least significant first into [acc]. *)
Fixpoint digits_aux (fuel : nat) (n : N) (acc : chars) : chars :=
  match fuel with
  | O => acc
  | S f =>
      let acc' := digit_char (n mod 10) :: acc in
      if (n / 10 =? 0)%N then acc' else digits_aux f (n / 10) acc'
  end.

Definition digits (n : N) : chars := digits_aux (S (N.to_nat (N.log2 n))) n [].

(* Number.prototype.toString for an integer below 1e21. *)
Definition print_Z (z : Z) : chars :=
  if (z <? 0)%Z then "-"%char :: digits (Z.to_N (- z)) else digits (Z.to_N z).

Definition is_digit (c : ascii) : bool :=
  ((48 <=? N_of_ascii c) && (N_of_ascii c <=? 57))%N.

Definition digit_val (c : ascii) : N := (N_of_ascii c - 48)%N.

Definition N_of_digits (ds : chars) : N :=
  fold_left (fun a c => (10 * a + digit_val c)%N) ds 0%N.

(* The longest run of digits and what follows it. *)
Fixpoint span_digits (s : chars) : chars * chars :=
  match s with
  | c :: r =>
      if is_digit c then let (ds, rest) := span_digits r in (c :: ds, rest)
      else ([], s)
  | [] => ([], [])
  end.

Definition MAX_SAFE_INTEGER : Z := 9007199254740991.

Definition is_nil {A : Type} (l : list A) : bool :=
  match l with [] => true | _ => false end.

(* An optional fraction: '.' and at least one digit. *)
Definition parse_frac (s : chars) : option (chars * chars) :=
  match s with
  | c :: r =>
      if (c =? ".")%char then
        let (ds, rest) := span_digits r in
        if is_nil ds then None else Some (c :: ds, rest)
      else Some ([], s)
  | [] => Some ([], [])
  end.

(* An optional exponent: e or E, an optional sign, at least one digit. *)
Definition parse_exp (s : chars) : option (chars * chars) :=
  match s with
  | c :: r =>
      if ((c =? "e") || (c =? "E"))%char then
        let (sg, r1) :=
          match r with
          | c1 :: r' => if ((c1 =? "+") || (c1 =? "-"))%char then ([c1], r') else ([], r)
          | [] => ([], r)
          end in
        let (ds, rest) := span_digits r1 in
        if is_nil ds then None else Some (c :: sg ++ ds, rest)
      else Some ([], s)
  | [] => Some ([], [])
  end.

(** *** Numbers that are not safe integers *)

(* x * 2^t for t >= 0, and x for t < 0. *)
Definition shift_up (x t : Z) : Z := if (0 <=? t)%Z then (x * 2 ^ t)%Z else x.

(* The magnitude of a double: m * 2^e, or Infinity. *)
Inductive magnitude : Type :=
| Finite (m e : Z)
| Infinite.

(* The double nearest to p / q, for p >= 0 and q > 0: 53 significant bits,
   exponent not below -1074, ties to even; Infinity from 2^1024 on. *)
Definition nearest_double (p q : Z) : magnitude :=
  if (p =? 0)%Z then Finite 0 0
  else
    let t0 := (Z.log2 p - Z.log2 q)%Z in
    (* floor (log2 (p / q)) is t0 when q * 2^t0 <= p, and t0 - 1 otherwise *)
    let t := if (shift_up q t0 <=? shift_up p (- t0))%Z then t0 else (t0 - 1)%Z in
    let e := Z.max (t - 52) (-1074) in
    let num := shift_up p (- e) in
    let den := shift_up q e in
    let quo := (num / den)%Z in
    let rem := (num mod den)%Z in
    let m :=
      if (2 * rem <? den)%Z then quo
      else if (den <? 2 * rem)%Z then (quo + 1)%Z
      else if Z.even quo then quo else (quo + 1)%Z in
    if (0 <=? e)%Z && (2 ^ 1024 <=? m * 2 ^ e)%Z then Infinite else Finite m e.

(* m * 2^e = m' * 2^e' *)
Definition same_magnitude (a b : magnitude) : bool :=
  match a, b with
  | Finite m e, Finite m' e' => (shift_up m (e - e') =? shift_up m' (e' - e))%Z
  | Infinite, Infinite => true
  | _, _ => false
  end.

(* The integer m * 2^e, if it is one. *)
Definition integer_of (m e : Z) : option Z :=
  if (0 <=? e)%Z then Some (m * 2 ^ e)%Z
  else if (m mod 2 ^ (- e) =? 0)%Z then Some (m / 2 ^ (- e))%Z
  else None.

(* The double nearest to s * 10^x, for s >= 0.  Beyond 10^310 it is Infinity
   and below 10^(-330) it is 0, whatever the digits. *)
Definition double_of_decimal (s x : Z) : magnitude :=
  if (s =? 0)%Z then Finite 0 0
  else if (310 <? x)%Z then Infinite
  else if (x + Z.of_nat (List.length (digits (Z.to_N s))) <? -330)%Z then Finite 0 0
  else if (0 <=? x)%Z then nearest_double (s * 10 ^ x) 1
  else nearest_double s (10 ^ (- x)).

(* n with 10^(n-1) <= m * 2^e < 10^n, for m > 0, found next to the estimate
   the binary logarithm gives. *)
Definition decimal_exponent (m e : Z) : Z :=
  let p := shift_up m e in
  let q := shift_up 1 (- e) in
  let est := ((Z.log2 p - Z.log2 q) * 30103 / 100000)%Z in
  let fits (n : Z) : bool :=
    (if (1 <=? n)%Z then (10 ^ (n - 1) * q <=? p)%Z
     else (q <=? p * 10 ^ (1 - n))%Z)
    && (if (0 <=? n)%Z then (p <? 10 ^ n * q)%Z
        else (p * 10 ^ (- n) <? q)%Z) in
  match filter fits [(est - 2)%Z; (est - 1)%Z; est; (est + 1)%Z; (est + 2)%Z;
                     (est + 3)%Z] with
  | n :: _ => n
  | [] => est
  end.

(* floor (m * 2^e * 10^j) *)
Definition scaled_floor (m e j : Z) : Z :=
  let p := (shift_up m e * (if (0 <=? j)%Z then 10 ^ j else 1))%Z in
  let q := (shift_up 1 (- e) * (if (0 <=? j)%Z then 1 else 10 ^ (- j)))%Z in
  (p / q)%Z.

(* Of s * 10^x and s' * 10^x, with m * 2^e between them, is the first the
   nearer?  A tie goes to the even one. *)
Definition nearer_low (m e s s' x : Z) : bool :=
  (* 2 * m * 2^e against (s + s') * 10^x *)
  let p := (2 * shift_up m e * (if (0 <=? x)%Z then 1 else 10 ^ (- x)))%Z in
  let q := ((s + s') * shift_up 1 (- e) * (if (0 <=? x)%Z then 10 ^ x else 1))%Z in
  if (p <? q)%Z then true
  else if (q <? p)%Z then false
  else Z.even s.

(* The s, k and n of Number::toString for the double m * 2^e > 0: the fewest
   digits k such that the k-digit s times 10^(n-k) is read back as the same
   double and, among those s, the nearest.  [n0] is the decimal exponent of
   the double; the candidates with k digits are the two next to it, and the
   upper one may be 10^k, which is the digit 1 with exponent n0 + 1. *)
Fixpoint shortest_digits (fuel : nat) (k : Z) (m e n0 : Z) : Z * Z * Z :=
  let lo := scaled_floor m e (k - n0) in
  let hi := (lo + 1)%Z in
  let reads_back (s : Z) : bool :=
    same_magnitude (double_of_decimal s (n0 - k)) (Finite m e) in
  let upper := if (hi =? 10 ^ k)%Z then (1, 1, n0 + 1)%Z else (hi, k, n0) in
  if reads_back lo && reads_back hi then
    if nearer_low m e lo hi (n0 - k) then (lo, k, n0) else upper
  else if reads_back lo then (lo, k, n0)
  else if reads_back hi then upper
  else
    match fuel with
    | O => (lo, k, n0)
    | S f => shortest_digits f (k + 1) m e n0
    end.

Definition zeros (n : Z) : chars := repeat "0"%char (Z.to_nat n).

(* Number::toString of the double m * 2^e > 0. *)
Definition Number_toString (m e : Z) : chars :=
  let '(s, k, n) := shortest_digits 17 1 m e (decimal_exponent m e) in
  let ds := digits (Z.to_N s) in
  if ((k <=? n) && (n <=? 21))%Z then ds ++ zeros (n - k)
  else if ((0 <? n) && (n <=? 21))%Z then
    firstn (Z.to_nat n) ds ++ "."%char :: skipn (Z.to_nat n) ds
  else if ((-6 <? n) && (n <=? 0))%Z then
    "0"%char :: "."%char :: zeros (- n) ++ ds
  else
    let x := (n - 1)%Z in
    let exponent :=
      "e"%char :: (if (0 <=? x)%Z then "+"%char else "-"%char)
        :: digits (Z.to_N (Z.abs x)) in
    match ds with
    | [d] => d :: exponent
    | d :: rest => d :: "."%char :: rest ++ exponent
    | [] => exponent
    end.

(* The Number of the given sign and magnitude as a value. *)
Definition number_value (negative : bool) (mag : magnitude) : value :=
  let sign := if negative then ["-"%char] else [] in
  match mag with
  | Infinite =>
      JNumLit (string_of_list_ascii (sign ++ list_ascii_of_string "Infinity"))
  | Finite m e =>
      match integer_of m e with
      | Some z =>
          if (z <=? MAX_SAFE_INTEGER)%Z then JNum (if negative then (- z)%Z else z)
          else JNumLit (string_of_list_ascii (sign ++ Number_toString m e))
      | None => JNumLit (string_of_list_ascii (sign ++ Number_toString m e))
      end
  end.

(* The digits of a fraction and the value of an exponent, from their text. *)
Definition frac_digits (fr : chars) : chars :=
  match fr with _ :: ds => ds | [] => [] end.

Definition exp_value (ex : chars) : Z :=
  match ex with
  | _ :: c :: ds =>
      if (c =? "-")%char then (- Z.of_N (N_of_digits ds))%Z
      else if (c =? "+")%char then Z.of_N (N_of_digits ds)
      else Z.of_N (N_of_digits (c :: ds))
  | _ => 0%Z
  end.

(* The token after its optional minus sign [sg]: an integer part without a
   superfluous leading zero, then fraction and exponent.  The digits of a
   safe integer are that integer; any other token is rounded to the nearest
   double. *)
Definition number_token (sg s1 : chars) : option (value * chars) :=
  let (ip, r1) := span_digits s1 in
  match ip with
  | [] => None
  | d :: ds =>
      if (d =? "0")%char && negb (is_nil ds) then None
      else
        match parse_frac r1 with
        | None => None
        | Some (fr, r2) =>
            match parse_exp r2 with
            | None => None
            | Some (ex, r3) =>
                let n := Z.of_N (N_of_digits ip) in
                if is_nil fr && is_nil ex && (n <=? MAX_SAFE_INTEGER)%Z
                then Some (JNum (if is_nil sg then n else (- n)%Z), r3)
                else
                  let fd := frac_digits fr in
                  Some (number_value (negb (is_nil sg))
                          (double_of_decimal
                             (Z.of_N (N_of_digits (ip ++ fd)))
                             (exp_value ex - Z.of_nat (List.length fd))),
                        r3)
            end
        end
  end.

Definition parse_number (s : chars) : option (value * chars) :=
  match s with
  | c :: r => if (c =? "-")%char then number_token [c] r else number_token [] s
  | [] => None
  end.

(** *** Strings *)

Definition hex_char (d : N) : ascii :=
  if (d <? 10)%N then ascii_of_N (48 + d) else ascii_of_N (87 + d).

Definition hex_val (c : ascii) : option N :=
  let n := N_of_ascii c in
  if ((48 <=? n) && (n <=? 57))%N then Some (n - 48)%N
  else if ((97 <=? n) && (n <=? 102))%N then Some (n - 87)%N
  else if ((65 <=? n) && (n <=? 70))%N then Some (n - 55)%N
  else None.

Definition hex4 (h1 h2 h3 h4 : ascii) : option N :=
  match hex_val h1, hex_val h2, hex_val h3, hex_val h4 with
  | Some a, Some b, Some c, Some d => Some (((a * 16 + b) * 16 + c) * 16 + d)%N
  | _, _, _, _ => None
  end.

(* QuoteJSONString: the two-character escapes, \u00XX for the other control
   characters, everything else as it is. *)
Definition quote_char (c : ascii) : chars :=
  if (c =? c_quote)%char then [c_bslash; c_quote]
  else if (c =? c_bslash)%char then [c_bslash; c_bslash]
  else if (c =? "008")%char then [c_bslash; "b"%char]
  else if (c =? "009")%char then [c_bslash; "t"%char]
  else if (c =? "010")%char then [c_bslash; "n"%char]
  else if (c =? "012")%char then [c_bslash; "f"%char]
  else if (c =? "013")%char then [c_bslash; "r"%char]
  else if (N_of_ascii c <? 32)%N then
    [c_bslash; "u"%char; "0"%char; "0"%char;
     hex_char (N_of_ascii c / 16); hex_char (N_of_ascii c mod 16)]
  else [c].

Fixpoint quote_chars (s : chars) : chars :=
  match s with
  | [] => []
  | c :: r => quote_char c ++ quote_chars r
  end.

Definition print_string (s : string) : chars :=
  c_quote :: quote_chars (list_ascii_of_string s) ++ [c_quote].

(* The character a one-letter escape stands for. *)
Definition unescape (e : ascii) : option ascii :=
  if (e =? c_quote)%char then Some c_quote
  else if (e =? c_bslash)%char then Some c_bslash
  else if (e =? "/")%char then Some "/"%char
  else if (e =? "b")%char then Some "008"%char
  else if (e =? "f")%char then Some "012"%char
  else if (e =? "n")%char then Some "010"%char
  else if (e =? "r")%char then Some "013"%char
  else if (e =? "t")%char then Some "009"%char
  else None.

Definition cons_fst {A B : Type} (a : A) (p : list A * B) : list A * B :=
  (a :: fst p, snd p).

(* The body of a string literal up to its closing quote.  A raw control
   character is an error. *)
Fixpoint parse_chars (s : chars) : option (chars * chars) :=
  match s with
  | [] => None
  | c :: r =>
      if (c =? c_quote)%char then Some ([], r)
      else if (c =? c_bslash)%char then
        match r with
        | [] => None
        | e :: r1 =>
            match unescape e with
            | Some ch => option_map (cons_fst ch) (parse_chars r1)
            | None =>
                if (e =? "u")%char then
                  match r1 with
                  | h1 :: h2 :: h3 :: h4 :: r2 =>
                      match hex4 h1 h2 h3 h4 with
                      | Some n =>
                          option_map
                            (cons_fst (if (n <? 256)%N then ascii_of_N n else substitute))
                            (parse_chars r2)
                      | None => None
                      end
                  | _ => None
                  end
                else None
            end
        end
      else if (N_of_ascii c <? 32)%N then None
      else option_map (cons_fst c) (parse_chars r)
  end.

(** *** Values *)

(* Space, tab, line feed, carriage return. *)
Definition is_ws (c : ascii) : bool :=
  ((c =? " ") || (c =? "009") || (c =? "010") || (c =? "013"))%char.

Fixpoint skip_ws (s : chars) : chars :=
  match s with
  | c :: r => if is_ws c then skip_ws r else s
  | [] => []
  end.

Fixpoint strip_prefix (p s : chars) : option chars :=
  match p, s with
  | [], _ => Some s
  | a :: p', b :: s' => if (a =? b)%char then strip_prefix p' s' else None
  | _ :: _, [] => None
  end.

(* The rest of a literal name after its first letter. *)
Definition keyword (kw : string) (v : value) (s : chars) : option (value * chars) :=
  match strip_prefix (list_ascii_of_string kw) s with
  | Some r => Some (v, r)
  | None => None
  end.

(* JSON.stringify(v), without indentation. *)
Fixpoint print (v : value) : chars :=
  match v with
  | JNull => list_ascii_of_string "null"
  | JBool true => list_ascii_of_string "true"
  | JBool false => list_ascii_of_string "false"
  | JNum z => print_Z z
  | JNumLit lit =>
      if existsb (String.eqb lit) ["Infinity"; "-Infinity"; "NaN"]
      then list_ascii_of_string "null"
      else list_ascii_of_string lit
  | JStr s => print_string s
  | JArr items =>
      "["%char ::
      (fix elems (l : list value) : chars :=
         match l with
         | [] => []
         | [x] => print x
         | x :: l' => print x ++ ","%char :: elems l'
         end) items ++ ["]"%char]
  | JObj props =>
      "{"%char ::
      (fix members (l : list (string * value)) : chars :=
         match l with
         | [] => []
         | [(k, x)] => print_string k ++ ":"%char :: print x
         | (k, x) :: l' => print_string k ++ ":"%char :: print x ++ ","%char :: members l'
         end) props ++ ["}"%char]
  end.

(* Recursive descent; [fuel] bounds the nesting of calls.  The remaining
   input is returned with the value. *)
Fixpoint parse_value (fuel : nat) (s : chars) {struct fuel} : option (value * chars) :=
  match fuel with
  | O => None
  | S f =>
      match skip_ws s with
      | [] => None
      | c :: r =>
          if (c =? "n")%char then keyword "ull" JNull r
          else if (c =? "t")%char then keyword "rue" (JBool true) r
          else if (c =? "f")%char then keyword "alse" (JBool false) r
          else if (c =? c_quote)%char then
            match parse_chars r with
            | Some (cs, r') => Some (JStr (string_of_list_ascii cs), r')
            | None => None
            end
          else if (c =? "[")%char then
            match skip_ws r with
            | c2 :: r2 =>
                if (c2 =? "]")%char then Some (JArr [], r2)
                else
                  match parse_elems f r with
                  | Some (vs, r') => Some (JArr vs, r')
                  | None => None
                  end
            | [] => None
            end
          else if (c =? "{")%char then
            match skip_ws r with
            | c2 :: r2 =>
                if (c2 =? "}")%char then Some (JObj [], r2)
                else
                  match parse_members f r with
                  | Some (kvs, r') => Some (JObj (obj_of_entries kvs), r')
                  | None => None
                  end
            | [] => None
            end
          else parse_number (c :: r)
      end
  end
with parse_elems (fuel : nat) (s : chars) {struct fuel} : option (list value * chars) :=
  match fuel with
  | O => None
  | S f =>
      match parse_value f s with
      | Some (v, r) =>
          match skip_ws r with
          | c :: r' =>
              if (c =? ",")%char then
                match parse_elems f r' with
                | Some (vs, r'') => Some (v :: vs, r'')
                | None => None
                end
              else if (c =? "]")%char then Some ([v], r')
              else None
          | [] => None
          end
      | None => None
      end
  end
with parse_members (fuel : nat) (s : chars) {struct fuel}
  : option (list (string * value) * chars) :=
  match fuel with
  | O => None
  | S f =>
      match skip_ws s with
      | c :: r =>
          if (c =? c_quote)%char then
            match parse_chars r with
            | Some (k, r1) =>
                match skip_ws r1 with
                | c1 :: r2 =>
                    if (c1 =? ":")%char then
                      match parse_value f r2 with
                      | Some (v, r3) =>
                          match skip_ws r3 with
                          | c3 :: r4 =>
                              if (c3 =? ",")%char then
                                match parse_members f r4 with
                                | Some (kvs, r5) =>
                                    Some ((string_of_list_ascii k, v) :: kvs, r5)
                                | None => None
                                end
                              else if (c3 =? "}")%char
                              then Some ([(string_of_list_ascii k, v)], r4)
                              else None
                          | [] => None
                          end
                      | None => None
                      end
                    else None
                | [] => None
                end
            | None => None
            end
          else None
      | [] => None
      end
  end.

(* JSON.stringify(v) *)
Definition stringify (v : value) : string := string_of_list_ascii (print v).

(* A whole text: one value, white space around it, nothing else. *)
Definition parse_with (fuel : nat) (s : string) : option value :=
  match parse_value fuel (list_ascii_of_string s) with
  | Some (v, r) => if is_nil (skip_ws r) then Some v else None
  | None => None
  end.

(* JSON.parse(s); [None] is a SyntaxError.  One unit of fuel per character
   is enough for every text (lemma [JsonFacts.parse_fuel_enough]). *)
Definition parse (s : string) : option value :=
  parse_with (S (List.length (list_ascii_of_string s))) s.

(* Named views of the two local loops of [print]. *)
Definition print_elems : list value -> chars :=
  fix elems (l : list value) : chars :=
    match l with
    | [] => []
    | [x] => print x
    | x :: l' => print x ++ ","%char :: elems l'
    end.

Definition print_members : list (string * value) -> chars :=
  fix members (l : list (string * value)) : chars :=
    match l with
    | [] => []
    | [(k, x)] => print_string k ++ ":"%char :: print x
    | (k, x) :: l' => print_string k ++ ":"%char :: print x ++ ","%char :: members l'
    end.

(* Pairwise distinct property names. *)
Fixpoint fresh_keys (ks : list string) : bool :=
  match ks with
  | [] => true
  | k :: ks' => negb (existsb (String.eqb k) ks') && fresh_keys ks'
  end.

(* The JSON-serializable values: integers in the safe range, objects whose
   property names are pairwise distinct, at every depth. *)
Fixpoint serializable (v : value) : bool :=
  match v with
  | JNull | JBool _ | JStr _ => true
  | JNum z => (Z.abs z <=? MAX_SAFE_INTEGER)%Z
  | JNumLit _ => false
  | JArr items => forallb serializable items
  | JObj props =>
      fresh_keys (map fst props) && forallb (fun kv => serializable (snd kv)) props
  end.

(** Notions used to state that a printed value parses back. *)

Definition val_step (a : N) (c : ascii) : N := (10 * a + digit_val c)%N.

(* The text does not continue a run of digits. *)
Definition starts_nondigit (s : chars) : bool :=
  match s with
  | [] => true
  | c :: _ => negb (is_digit c)
  end.

(* Characters that may follow a value inside a document. *)
Definition delim (s : chars) : bool :=
  match s with
  | [] => true
  | c :: _ => ((c =? ",") || (c =? "]") || (c =? "}"))%char
  end.

(* First character of a printed value. *)
Definition opens_value (s : chars) : bool :=
  match s with
  | [] => false
  | c :: _ =>
      negb (is_ws c) && negb (c =? "]")%char && negb (c =? "}")%char
  end.

(* [v] is read back from its printed form, whatever structural character
   follows, with any fuel that covers the printed form. *)
Definition reparses (v : value) : Prop :=
  forall f rest, (List.length (print v) <= f)%nat -> delim rest = true ->
    parse_value f (print v ++ rest) = Some (v, rest).

(* With fuel [f] the parser [p] consumes input, and the fuel it needs is
   bounded by what it consumes. *)
Definition settles {A : Type} (p : nat -> chars -> option (A * chars)) (f : nat) : Prop :=
  forall s x r, p f s = Some (x, r) ->
    (List.length r < List.length s)%nat
    /\ forall g, (List.length s - List.length r <= g)%nat -> p g s = Some (x, r).

(* Induction over values that reaches into arrays and objects. *)
Section value_rect_nested.
Variable P : value -> Prop.
Hypothesis HNull : P JNull.
Hypothesis HBool : forall b, P (JBool b).
Hypothesis HNum : forall z, P (JNum z).
Hypothesis HNumLit : forall s, P (JNumLit s).
Hypothesis HStr : forall s, P (JStr s).
Hypothesis HArr : forall l, Forall P l -> P (JArr l).
Hypothesis HObj : forall m, Forall (fun kv => P (snd kv)) m -> P (JObj m).

Fixpoint value_ind_nested (v : value) : P v :=
  match v with
  | JNull => HNull
  | JBool b => HBool b
  | JNum z => HNum z
  | JNumLit s => HNumLit s
  | JStr s => HStr s
  | JArr l =>
      HArr l ((fix go (l : list value) : Forall P l :=
                 match l with
                 | [] => Forall_nil _
                 | x :: l' => Forall_cons x (value_ind_nested x) (go l')
                 end) l)
  | JObj m =>
      HObj m ((fix go (m : list (string * value)) : Forall (fun kv => P (snd kv)) m :=
                 match m with
                 | [] => Forall_nil _
                 | kv :: m' =>
                     Forall_cons kv
                       (match kv as p return P (snd p) with
                        | (_, x) => value_ind_nested x
                        end) (go m')
                 end) m)
  end.
End value_rect_nested.

End Json.


(** ** TextEncoder / TextDecoder (UTF-8) on the Latin-1 repertoire *)
Module Text.

Definition byte_of_N (n : N) : Byte.byte := byte_of_ascii (ascii_of_N n).

(* U+0000..U+007F is one byte, U+0080..U+00FF is two. *)
Definition encode_char (c : ascii) : list Byte.byte :=
  let n := N_of_ascii c in
  if (n <? 128)%N then [byte_of_N n]
  else [byte_of_N (192 + n / 64); byte_of_N (128 + n mod 64)].

Fixpoint encode_chars (s : list ascii) : list Byte.byte :=
  match s with
  | [] => []
  | c :: r => encode_char c ++ encode_chars r
  end.

(* new TextEncoder().encode(s) *)
Definition encode (s : string) : list Byte.byte :=
  encode_chars (list_ascii_of_string s).

(* A byte sequence that does not decode to U+0000..U+00FF yields
   [Json.substitute]. *)
Definition substitute : ascii := Json.substitute.

Fixpoint decode_bytes (bs : list Byte.byte) : list ascii :=
  match bs with
  | [] => []
  | b :: r =>
      let n := Byte.to_N b in
      if (n <? 128)%N then ascii_of_byte b :: decode_bytes r
      else if ((n =? 194) || (n =? 195))%N then
        match r with
        | b2 :: r2 =>
            let m := Byte.to_N b2 in
            if ((128 <=? m) && (m <? 192))%N
            then ascii_of_N ((n - 192) * 64 + (m - 128)) :: decode_bytes r2
            else substitute :: decode_bytes r
        | [] => [substitute]
        end
      else substitute :: decode_bytes r
  end.

(* The decoder drops a leading byte order mark. *)
Definition strip_bom (bs : list Byte.byte) : list Byte.byte :=
  match bs with
  | b1 :: r1 =>
      if (Byte.to_N b1 =? 239)%N then
        match r1 with
        | b2 :: b3 :: r =>
            if ((Byte.to_N b2 =? 187) && (Byte.to_N b3 =? 191))%N then r else bs
        | _ => bs
        end
      else bs
  | [] => bs
  end.

(* new TextDecoder().decode(bytes) *)
Definition decode (bs : list Byte.byte) : string :=
  string_of_list_ascii (decode_bytes (strip_bom bs)).

End Text.

(** ** atob: forgiving base64 decoding *)
Module Base64.

Definition is_space (c : ascii) : bool :=
  let n := N_of_ascii c in
  ((n =? 9) || (n =? 10) || (n =? 12) || (n =? 13) || (n =? 32))%N.

Definition sextet (c : ascii) : option N :=
  let n := N_of_ascii c in
  if ((65 <=? n) && (n <=? 90))%N then Some (n - 65)%N
  else if ((97 <=? n) && (n <=? 122))%N then Some (n - 71)%N
  else if ((48 <=? n) && (n <=? 57))%N then Some (n + 4)%N
  else if (n =? 43)%N then Some 62%N
  else if (n =? 47)%N then Some 63%N
  else None.

Fixpoint sextets (s : list ascii) : option (list N) :=
  match s with
  | [] => Some []
  | c :: r =>
      match sextet c, sextets r with
      | Some v, Some vs => Some (v :: vs)
      | _, _ => None
      end
  end.

(* With a length that is a multiple of four, one or two trailing '=' go. *)
Definition strip_padding (s : list ascii) : list ascii :=
  if (List.length s mod 4 =? 0)%nat then
    match rev s with
    | a :: b :: r =>
        if (a =? "=")%char then
          if (b =? "=")%char then rev r else rev (b :: r)
        else s
    | _ => s
    end
  else s.

Fixpoint octets (vs : list N) : list Byte.byte :=
  match vs with
  | a :: b :: c :: d :: r =>
      let n := (((a * 64 + b) * 64 + c) * 64 + d)%N in
      Text.byte_of_N (n / 65536) :: Text.byte_of_N (n / 256 mod 256)
        :: Text.byte_of_N (n mod 256) :: octets r
  | [a; b; c] =>
      let n := ((a * 64 + b) * 64 + c)%N in
      [Text.byte_of_N (n / 1024); Text.byte_of_N (n / 4 mod 256)]
  | [a; b] => [Text.byte_of_N ((a * 64 + b) / 16)]
  | _ => []
  end.

(* Uint8Array.from(atob(data), c => c.charCodeAt(0)); [None] when atob throws. *)
Definition atob_bytes (data : string) : option (list Byte.byte) :=
  let s := strip_padding (filter (fun c => negb (is_space c)) (list_ascii_of_string data)) in
  if (List.length s mod 4 =? 1)%nat then None
  else option_map octets (sextets s).

End Base64.

(** ** JavaScript idioms shared by the serializers *)
Module Js.

(* [s || d] on strings: the empty string is falsy. *)
Definition str_or (s d : string) : string :=
  if String.eqb s EmptyString then d else s.

Definition opt_str_or (s : option string) (d : string) : string :=
  match s with
  | Some x => str_or x d
  | None => d
  end.

(* [n || d] on numbers: zero is falsy. *)
Definition num_or (n : option Z) (d : Z) : Z :=
  match n with
  | Some x => if (x =? 0)%Z then d else x
  | None => d
  end.

(* [if (s)] on a string. *)
Definition truthy_str (s : string) : bool := negb (String.eqb s EmptyString).

(* typeof value === 'string' ? value : JSON.stringify(value) *)
Definition encode_entry (v : Json.value) : string :=
  match v with
  | Json.JStr s => s
  | _ => Json.stringify v
  end.

(* try { JSON.parse(value) } catch { value } *)
Definition decode_entry (s : string) : Json.value :=
  match Json.parse s with
  | Some v => v
  | None => Json.JStr s
  end.

(* A value the unquoted-string encoding gives back unchanged: anything but a
   string that is itself JSON text. *)
Definition survives (v : Json.value) : bool :=
  match v with
  | Json.JStr s => match Json.parse s with Some _ => false | None => true end
  | _ => true
  end.

(* A property name that an assignment on an object literal creates: every
   name but __proto__. *)
Definition plain_key (key : string) : bool := negb (String.eqb key "__proto__").

(* The entries whose names are plain. *)
Definition plain_named {A : Type} (m : list (string * A)) : list (string * A) :=
  filter (fun kv => plain_key (fst kv)) m.

(* dst[key] = value, for [dst] made by an object literal.  The name __proto__
   reaches the accessor of Object.prototype: the assignment creates no
   property (it replaces the prototype when the value is an object or null,
   and does nothing otherwise). *)
Definition assign {A : Type} (key : string) (v : A) (dst : list (string * A))
  : list (string * A) :=
  if plain_key key then Json.obj_set key v dst else dst.

(* for (const [key, value] of Object.entries(src)) dst[key] = f(value);
   Object.entries gives each name once. *)
Definition assign_entries {A B : Type} (f : A -> B) (src : list (string * A))
  (dst : list (string * B)) : list (string * B) :=
  fold_left (fun o kv => assign (fst kv) (f (snd kv)) o) src dst.

End Js.

(** ** src/serialization/event-serializer.ts *)
Module EventSerializer.

(* enum EventPriority *)
Definition PRIORITY_NORMAL : Z := 0.
Definition PRIORITY_LOW : Z := 1.
Definition PRIORITY_HIGH : Z := 2.
Definition PRIORITY_IMMEDIATE : Z := 3.

Record ProtoComponentRef : Type := mkProtoComponentRef {
  p_componentId : string;
  p_componentPath : list string;
  p_componentType : string
}.

Record ProtoSpaceEvent : Type := mkProtoSpaceEvent {
  p_topic : string;
  p_source : ProtoComponentRef;
  payloadJson : list Byte.byte;
  p_timestamp : Z;
  p_priority : Z;
  p_metadata : list (string * string);
  p_sync : bool
}.

Record ComponentRef : Type := mkComponentRef {
  componentId : string;
  componentPath : option (list string);
  componentType : option string
}.

Record SpaceEvent : Type := mkSpaceEvent {
  topic : string;
  source : ComponentRef;
  payload : option Json.value;
  timestamp : Z;
  priority : option string;
  sync : option bool;
  metadata : option (list (string * Json.value))
}.

Definition priorityToProto (priority : option string) : Z :=
  match priority with
  | Some p =>
      if String.eqb p "immediate" then PRIORITY_IMMEDIATE
      else if String.eqb p "high" then PRIORITY_HIGH
      else if String.eqb p "low" then PRIORITY_LOW
      else PRIORITY_NORMAL
  | None => PRIORITY_NORMAL
  end.

Definition protoToPriority (priority : Z) : string :=
  if (priority =? PRIORITY_IMMEDIATE)%Z then "immediate"
  else if (priority =? PRIORITY_HIGH)%Z then "high"
  else if (priority =? PRIORITY_LOW)%Z then "low"
  else "normal".

Definition componentRefToProto (ref : ComponentRef) : ProtoComponentRef :=
  {| p_componentId := componentId ref;
     p_componentPath := match componentPath ref with Some p => p | None => [] end;
     p_componentType := Js.opt_str_or (componentType ref) "" |}.

Definition protoToComponentRef (proto : ProtoComponentRef) : ComponentRef :=
  {| componentId := p_componentId proto;
     componentPath := Some (p_componentPath proto);
     componentType :=
       if Js.truthy_str (p_componentType proto)
       then Some (p_componentType proto) else None |}.

Definition eventToProto (event : SpaceEvent) : ProtoSpaceEvent :=
  let payloadJson :=
    match payload event with
    | Some p => Text.encode (Json.stringify p)
    | None => []
    end in
  let metadata :=
    match metadata event with
    | Some md => Js.assign_entries Js.encode_entry md []
    | None => []
    end in
  {| p_topic := topic event;
     p_source := componentRefToProto (source event);
     payloadJson := payloadJson;
     p_timestamp := timestamp event;
     p_priority := priorityToProto (priority event);
     p_metadata := metadata;
     p_sync := match sync event with Some b => b | None => false end |}.

Definition protoToEvent (proto : ProtoSpaceEvent) : SpaceEvent :=
  let payload :=
    match payloadJson proto with
    | [] => None
    | _ :: _ =>
        match Json.parse (Text.decode (payloadJson proto)) with
        | Some v => Some v
        | None => Some (Json.JObj [])
        end
    end in
  let metadata := Js.assign_entries Js.decode_entry (p_metadata proto) [] in
  {| topic := p_topic proto;
     source := protoToComponentRef (p_source proto);
     payload := payload;
     timestamp := p_timestamp proto;
     priority := Some (protoToPriority (p_priority proto));
     sync := if p_sync proto then Some true else None;
     metadata := match metadata with [] => None | _ :: _ => Some metadata end |}.

End EventSerializer.

(** ** src/serialization/facet-serializer.ts *)
Module FacetSerializer.

(* Attachment.data is a Uint8Array or a base64 string. *)
Inductive AttachmentData : Type :=
| DataBytes (b : list Byte.byte)
| DataBase64 (s : string).

Record Attachment : Type := mkAttachment {
  a_id : string;
  a_contentType : string;
  a_data : option AttachmentData;
  a_url : option string;
  a_sizeBytes : option Z;
  a_filename : option string;
  a_mimeType : option string;
  a_metadata : option (list (string * Json.value))
}.

Record ProtoAttachment : Type := mkProtoAttachment {
  pa_id : string;
  pa_contentType : string;
  pa_inlineData : option (list Byte.byte);
  pa_url : option string;
  pa_sizeBytes : Z;
  pa_filename : string;
  pa_metadata : list (string * string)
}.

Inductive ProtoFacet : Type := mkProtoFacet {
  p_id : string;
  p_type : string;
  stateJson : list Byte.byte;
  p_content : string;
  p_tags : list string;
  p_agentId : string;
  p_agentName : string;
  p_streamId : string;
  p_streamType : string;
  p_scopes : list string;
  p_ephemeral : bool;
  p_children : list ProtoFacet;
  p_attributes : list (string * string);
  p_attachments : list ProtoAttachment
}.

Inductive Facet : Type := mkFacet {
  id : string;
  type : string;
  content : option string;
  state : option Json.value;
  tags : option (list string);
  agentId : option string;
  agentName : option string;
  streamId : option string;
  streamType : option string;
  scopes : option (list string);
  ephemeral : option bool;
  children : option (list Facet);
  attributes : option (list (string * Json.value));
  attachments : option (list Attachment)
}.

Definition opt_string (s : option string) : string :=
  match s with Some x => x | None => EmptyString end.

Definition opt_list {A : Type} (l : option (list A)) : list A :=
  match l with Some x => x | None => [] end.

(* An exception in one element aborts the whole [Array.prototype.map]. *)
Definition map_throwing {A B : Type} (f : A -> option B) : list A -> option (list B) :=
  fix go (l : list A) : option (list B) :=
    match l with
    | [] => Some []
    | x :: l' =>
        match f x with
        | Some y =>
            match go l' with
            | Some ys => Some (y :: ys)
            | None => None
            end
        | None => None
        end
    end.

(* [None]: atob rejected the base64 text and the exception propagates. *)
Definition attachmentToProto (attachment : Attachment) : option ProtoAttachment :=
  let contentType :=
    Js.str_or (a_contentType attachment)
      (Js.opt_str_or (a_mimeType attachment) "application/octet-stream") in
  let metadata :=
    match a_metadata attachment with
    | Some md => Js.assign_entries Js.encode_entry md []
    | None => []
    end in
  let build inlineData url sizeBytes :=
    {| pa_id := Js.str_or (a_id attachment) "";
       pa_contentType := contentType;
       pa_inlineData := inlineData;
       pa_url := url;
       pa_sizeBytes := sizeBytes;
       pa_filename := Js.opt_str_or (a_filename attachment) "";
       pa_metadata := metadata |} in
  let by_url :=
    match a_url attachment with
    | Some u =>
        if Js.truthy_str u
        then build None (Some u) (Js.num_or (a_sizeBytes attachment) 0)
        else build None None 0%Z
    | None => build None None 0%Z
    end in
  match a_data attachment with
  | Some (DataBytes b) => Some (build (Some b) None (Z.of_nat (List.length b)))
  | Some (DataBase64 s) =>
      if Js.truthy_str s then
        match Base64.atob_bytes s with
        | Some b => Some (build (Some b) None (Z.of_nat (List.length b)))
        | None => None
        end
      else Some by_url
  | None => Some by_url
  end.

Definition protoToAttachment (proto : ProtoAttachment) : Attachment :=
  let inline :=
    match pa_inlineData proto with
    | Some ((_ :: _) as b) => Some b
    | _ => None
    end in
  let metadata := Js.assign_entries Js.decode_entry (pa_metadata proto) [] in
  {| a_id := pa_id proto;
     a_contentType := pa_contentType proto;
     a_data := option_map DataBytes inline;
     a_url :=
       match inline, pa_url proto with
       | None, Some u => if Js.truthy_str u then Some u else None
       | _, _ => None
       end;
     a_sizeBytes := Some (pa_sizeBytes proto);
     a_filename := Some (pa_filename proto);
     a_mimeType := None;
     a_metadata :=
       match pa_metadata proto with
       | [] => None
       | _ :: _ => Some metadata
       end |}.

Fixpoint facetToProto (facet : Facet) : option ProtoFacet :=
  match facet with
  | mkFacet id type content state tags agentId agentName streamId streamType
      scopes ephemeral children attributes attachments =>
      match
        match children with
        | Some cs => map_throwing facetToProto cs
        | None => Some []
        end
      with
      | None => None
      | Some children' =>
          match map_throwing attachmentToProto (opt_list attachments) with
          | None => None
          | Some attachments' =>
              Some
                {| p_id := id;
                   p_type := type;
                   stateJson :=
                     match state with
                     | Some st => Text.encode (Json.stringify st)
                     | None => []
                     end;
                   p_content := opt_string content;
                   p_tags := opt_list tags;
                   p_agentId := opt_string agentId;
                   p_agentName := opt_string agentName;
                   p_streamId := opt_string streamId;
                   p_streamType := opt_string streamType;
                   p_scopes := opt_list scopes;
                   p_ephemeral :=
                     match ephemeral with Some true => true | _ => false end;
                   p_children := children';
                   p_attributes :=
                     match attributes with
                     | Some attrs => Js.assign_entries Js.encode_entry attrs []
                     | None => []
                     end;
                   p_attachments := attachments' |}
          end
      end
  end.

Definition nonempty_string (s : string) : option string :=
  if Js.truthy_str s then Some s else None.

Definition nonempty_list {A : Type} (l : list A) : option (list A) :=
  match l with [] => None | _ :: _ => Some l end.

Fixpoint protoToFacet (proto : ProtoFacet) : Facet :=
  match proto with
  | mkProtoFacet id type stateJson content tags agentId agentName streamId
      streamType scopes ephemeral children attributes attachments =>
      {| id := id;
         type := type;
         content := nonempty_string content;
         state :=
           match stateJson with
           | [] => None
           | _ :: _ =>
               match Json.parse (Text.decode stateJson) with
               | Some v => Some v
               | None => Some (Json.JObj [])
               end
           end;
         tags := nonempty_list tags;
         agentId := nonempty_string agentId;
         agentName := nonempty_string agentName;
         streamId := nonempty_string streamId;
         streamType := nonempty_string streamType;
         scopes := nonempty_list scopes;
         ephemeral := if ephemeral then Some true else None;
         children := nonempty_list (map protoToFacet children);
         attributes :=
           match attributes with
           | [] => None
           | _ :: _ => Some (Js.assign_entries Js.decode_entry attributes [])
           end;
         attachments := nonempty_list (map protoToAttachment attachments) |}
  end.

(** Canonical in-memory forms: what the decoder itself produces. *)

Definition canonical_string (s : option string) : bool :=
  match s with
  | Some x => Js.truthy_str x
  | None => true
  end.

Definition canonical_list {A : Type} (l : option (list A)) : bool :=
  match l with
  | Some [] => false
  | _ => true
  end.

(* A dictionary with distinct keys, none of them __proto__, whose values are
   JSON-serializable and survive the unquoted-string encoding. *)
Definition canonical_props (m : option (list (string * Json.value))) : bool :=
  match m with
  | None => true
  | Some [] => false
  | Some props =>
      Json.fresh_keys (map fst props)
      && forallb (fun kv => Js.plain_key (fst kv)) props
      && forallb (fun kv => Json.serializable (snd kv)) props
      && forallb (fun kv => Js.survives (snd kv)) props
  end.

(* Binary inline data or a URL, never both; explicit filename and size. *)
Definition canonical_attachment (a : Attachment) : bool :=
  Js.truthy_str (a_contentType a)
  && match a_mimeType a with None => true | Some _ => false end
  && match a_filename a with Some _ => true | None => false end
  && canonical_props (a_metadata a)
  && match a_data a, a_url a, a_sizeBytes a with
     | Some (DataBytes ((_ :: _) as b)), None, Some n =>
         (n =? Z.of_nat (List.length b))%Z
     | None, Some u, Some _ => Js.truthy_str u
     | None, None, Some n => (n =? 0)%Z
     | _, _, _ => false
     end.

Fixpoint canonical (facet : Facet) : bool :=
  match facet with
  | mkFacet _ _ content state tags agentId agentName streamId streamType
      scopes ephemeral children attributes attachments =>
      canonical_string content
      && match state with Some st => Json.serializable st | None => true end
      && canonical_list tags
      && canonical_string agentId && canonical_string agentName
      && canonical_string streamId && canonical_string streamType
      && canonical_list scopes
      && match ephemeral with Some false => false | _ => true end
      && match children with
         | None => true
         | Some [] => false
         | Some cs => forallb canonical cs
         end
      && canonical_props attributes
      && match attachments with
         | None => true
         | Some [] => false
         | Some atts => forallb canonical_attachment atts
         end
  end.

(* protoToFacet(facetToProto(facet)) *)
Definition roundtrip (facet : Facet) : option Facet :=
  option_map protoToFacet (facetToProto facet).







(* Induction over facets that reaches into the children. *)
Section Facet_ind_nested.
Variable P : Facet -> Prop.
Hypothesis Hfacet :
  forall id type content state tags agentId agentName streamId streamType
    scopes ephemeral children attributes attachments,
    match children with Some cs => Forall P cs | None => True end ->
    P (mkFacet id type content state tags agentId agentName streamId streamType
         scopes ephemeral children attributes attachments).

Fixpoint Facet_ind_nested (f : Facet) : P f :=
  match f with
  | mkFacet id type content state tags agentId agentName streamId streamType
      scopes ephemeral children attributes attachments =>
      Hfacet id type content state tags agentId agentName streamId streamType
        scopes ephemeral children attributes attachments
        (match children
           return match children with Some cs => Forall P cs | None => True end
         with
         | Some cs =>
             (fix go (l : list Facet) : Forall P l :=
                match l with
                | [] => Forall_nil _
                | c :: l' => Forall_cons c (Facet_ind_nested c) (go l')
                end) cs
         | None => I
         end)
  end.
End Facet_ind_nested.

(** A facet that exercises every aspect, used as a test input. *)

Definition sample_leaf : Facet :=
  mkFacet "n2" "note" (Some "child") None None None None None None None None
    None None None.

Definition sample_facet : Facet :=
  mkFacet "n1" "note" (Some "hi")
    (Some (Json.JObj [("count", Json.JNum 2); ("open", Json.JBool true)]))
    (Some ["a"; "b"]) (Some "agent-1") (Some "Ada") (Some "s-1") (Some "chat")
    (Some ["public"]) (Some true)
    (Some [sample_leaf;
           mkFacet "n3" "group" None None None None None None None None None
             (Some [sample_leaf]) None None])
    (Some [("title", Json.JStr "plain text"); ("rank", Json.JNum 7)])
    (Some [mkAttachment "a1" "image/png" (Some (DataBytes [Byte.x89; Byte.x50]))
             None (Some 2%Z) (Some "p.png") None None;
           mkAttachment "a2" "application/pdf" None (Some "https://files/x.pdf")
             (Some 4096%Z) (Some "x.pdf") None (Some [("pages", Json.JNum 3)])]).

End FacetSerializer.

(** ** src/serialization/attachment-handler.ts *)
Module AttachmentHandler.

Import FacetSerializer.

Definition MAX_INLINE_SIZE : Z := 1024 * 1024.

Definition CHUNK_SIZE : Z := 64 * 1024.

Definition shouldInlineAttachment (size : Z) : bool := (size <=? MAX_INLINE_SIZE)%Z.

(* String(n) for a length. *)
Definition String_of_number (n : Z) : string := string_of_list_ascii (Json.print_Z n).

(* [fresh_id] is the value generateAttachmentId() returned for this call; it
   depends on the clock and on Math.random(). *)
Definition createAttachment (fresh_id : string) (data : list Byte.byte)
  (contentType : string) (filename : option string)
  (metadata : option (list (string * string))) : ProtoAttachment :=
  let bytes := data in
  let size := Z.of_nat (List.length bytes) in
  let metadata0 := match metadata with Some m => m | None => [] end in
  if shouldInlineAttachment size then
    {| pa_id := fresh_id;
       pa_contentType := contentType;
       pa_inlineData := Some bytes;
       pa_url := None;
       pa_sizeBytes := size;
       pa_filename := Js.opt_str_or filename "";
       pa_metadata := metadata0 |}
  else
    {| pa_id := fresh_id;
       pa_contentType := contentType;
       pa_inlineData := None;
       pa_url := None;
       pa_sizeBytes := size;
       pa_filename := Js.opt_str_or filename "";
       pa_metadata :=
         Json.obj_set "originalSize" (String_of_number size)
           (Json.obj_set "requiresUpload" "true" metadata0) |}.

(* obj[key] *)
Fixpoint obj_get {A : Type} (k : string) (o : list (string * A)) : option A :=
  match o with
  | [] => None
  | (k', v) :: o' => if String.eqb k' k then Some v else obj_get k o'
  end.

(* target.set(source, offset); [None] is the RangeError of a source that does
   not fit. *)
Definition Uint8Array_set (target source : list Byte.byte) (offset : nat)
  : option (list Byte.byte) :=
  if (offset + List.length source <=? List.length target)%nat
  then Some (firstn offset target ++ source
               ++ skipn (offset + List.length source) target)
  else None.

Definition total_length (chunks : list (list Byte.byte)) : nat :=
  fold_left (fun sum chunk => (sum + List.length chunk)%nat) chunks 0%nat.

Fixpoint copy_chunks (chunks : list (list Byte.byte)) (result : list Byte.byte)
  (offset : nat) : option (list Byte.byte) :=
  match chunks with
  | [] => Some result
  | chunk :: rest =>
      match Uint8Array_set result chunk offset with
      | Some result' => copy_chunks rest result' (offset + List.length chunk)
      | None => None
      end
  end.

Definition assembleChunks (chunks : list (list Byte.byte)) : option (list Byte.byte) :=
  let totalLength := total_length chunks in
  let result := repeat Byte.x00 totalLength in
  copy_chunks chunks result 0.

(* Number arithmetic on integer operands. *)
Definition ToInt32 (x : Z) : Z :=
  let m := (x mod 2 ^ 32)%Z in
  if (m <? 2 ^ 31)%Z then m else (m - 2 ^ 32)%Z.

Definition ToUint32 (x : Z) : Z := (x mod 2 ^ 32)%Z.

(* The double nearest to an integer, ties to even: 53 significant bits. *)
Definition round_double (x : Z) : Z :=
  let a := Z.abs x in
  if (a <? 2 ^ 53)%Z then x
  else
    let e := (Z.log2 a - 52)%Z in
    let q := (a / 2 ^ e)%Z in
    let r := (a mod 2 ^ e)%Z in
    let half := (2 ^ (e - 1))%Z in
    let q' :=
      if (r <? half)%Z then q
      else if (half <? r)%Z then (q + 1)%Z
      else if Z.even q then q else (q + 1)%Z in
    (Z.sgn x * (q' * 2 ^ e))%Z.

(* x * y on Numbers that hold integers *)
Definition Number_mul (x y : Z) : Z := round_double (x * y).

(* x ^ y *)
Definition Number_xor (x y : Z) : Z := ToInt32 (Z.lxor (ToInt32 x) (ToInt32 y)).

Definition hex_digits (n : Z) : list ascii :=
  map (fun i => Json.hex_char (Z.to_N ((n / 16 ^ Z.of_nat i) mod 16)))
    (rev (seq 0 8)).

(* hash.toString(16).padStart(8, '0') for 0 <= hash < 2^32 *)
Definition to_hex8 (hash : Z) : string := string_of_list_ascii (hex_digits hash).

Definition checksum_step (hash : Z) (b : Byte.byte) : Z :=
  let hash1 := Number_xor hash (Z.of_N (Byte.to_N b)) in
  ToUint32 (Number_mul hash1 16777619).

Definition calculateChecksum (data : list Byte.byte) : string :=
  to_hex8 (fold_left checksum_step data 2166136261%Z).

Definition verifyChecksum (data : list Byte.byte) (expectedChecksum : string) : bool :=
  String.eqb (calculateChecksum data) expectedChecksum.

(* The checksum in the words of the specification: seed 0x811C9DC5, per byte
   XOR then multiply by 0x01000193, masked to 32 bits. *)
Definition spec_checksum_step (acc : Z) (b : Byte.byte) : Z :=
  ((Z.lxor acc (Z.of_N (Byte.to_N b)) * 16777619) mod 2 ^ 32)%Z.

Definition spec_checksum (data : list Byte.byte) : Z :=
  fold_left spec_checksum_step data 2166136261%Z.

End AttachmentHandler.

(** ** src/client.ts: connection life cycle of ConnectomeClient *)
Module Client.

Record ConnectomeClientConfig : Type := mkClientConfig {
  cfg_host : string;
  cfg_port : option Z;
  cfg_clientId : string;
  cfg_reconnectInterval : option Z;
  cfg_maxReconnectAttempts : option Z
}.

(* Required<ConnectomeClientConfig> *)
Record Config : Type := mkConfig {
  host : string;
  port : Z;
  clientId : string;
  reconnectInterval : Z;
  maxReconnectAttempts : Z
}.

(* grpc.status.CANCELLED *)
Definition CANCELLED : Z := 1.

(* Where the single attemptReconnect() activation is suspended. *)
Inductive Suspended : Type :=
| NotRunning
| AwaitLoad     (* in connect(): await protoLoader.load(...) *)
| AwaitReady    (* in connect(): waitForReady callback pending *)
| AwaitSleep.   (* await this.sleep(reconnectInterval) *)

(* What the client does to the outside world, in order. *)
Inductive Action : Type :=
| Emit (event : string)
| StreamCancel
| ClientClose
| LoadProto
| WaitForReady
| SetTimeout (ms : Z).

Record State : Type := mkState {
  config : Config;
  client : bool;               (* this.client !== null *)
  connected : bool;
  reconnecting : bool;
  reconnectAttempts : Z;
  subscriptionStream : bool;   (* this.subscriptionStream !== null *)
  loop : Suspended;
  errorListener : bool         (* some listener is registered for 'error' *)
}.

Definition constructor_config (config : ConnectomeClientConfig) : Config :=
  {| host := cfg_host config;
     port := Js.num_or (cfg_port config) 50051;
     clientId := cfg_clientId config;
     reconnectInterval := Js.num_or (cfg_reconnectInterval config) 5000;
     maxReconnectAttempts := Js.num_or (cfg_maxReconnectAttempts config) (-1) |}.

(* new ConnectomeClient(config) *)
Definition constructor (config : ConnectomeClientConfig) (listens : bool) : State :=
  {| config := constructor_config config;
     client := false;
     connected := false;
     reconnecting := false;
     reconnectAttempts := 0;
     subscriptionStream := false;
     loop := NotRunning;
     errorListener := listens |}.

Definition set_client (b : bool) (s : State) : State :=
  mkState (config s) b (connected s) (reconnecting s) (reconnectAttempts s)
    (subscriptionStream s) (loop s) (errorListener s).

Definition set_connected (b : bool) (s : State) : State :=
  mkState (config s) (client s) b (reconnecting s) (reconnectAttempts s)
    (subscriptionStream s) (loop s) (errorListener s).

Definition set_reconnecting (b : bool) (s : State) : State :=
  mkState (config s) (client s) (connected s) b (reconnectAttempts s)
    (subscriptionStream s) (loop s) (errorListener s).

Definition set_reconnectAttempts (n : Z) (s : State) : State :=
  mkState (config s) (client s) (connected s) (reconnecting s) n
    (subscriptionStream s) (loop s) (errorListener s).

Definition set_subscriptionStream (b : bool) (s : State) : State :=
  mkState (config s) (client s) (connected s) (reconnecting s) (reconnectAttempts s)
    b (loop s) (errorListener s).

Definition set_loop (l : Suspended) (s : State) : State :=
  mkState (config s) (client s) (connected s) (reconnecting s) (reconnectAttempts s)
    (subscriptionStream s) l (errorListener s).

(* The state a successful connect() followed by subscribe() leaves. *)
Definition subscribed (config : ConnectomeClientConfig) (listens : bool) : State :=
  set_subscriptionStream true
    (set_connected true (set_client true (constructor config listens))).

Definition disconnect (s : State) : State * list Action :=
  let a1 := if subscriptionStream s then [StreamCancel] else [] in
  let a2 := if client s then [ClientClose] else [] in
  (set_connected false (set_client false (set_subscriptionStream false s)),
   a1 ++ a2 ++ [Emit "disconnected"]).

(* attemptReconnect() from the loop test to its next await or return. *)
Definition attemptReconnect (s : State) : State * list Action :=
  let maxAttempts := maxReconnectAttempts (config s) in
  if reconnecting s then
    if ((maxAttempts >=? 0) && (reconnectAttempts s >=? maxAttempts))%Z then
      (set_loop NotRunning (set_reconnecting false s), [Emit "reconnect_failed"])
    else
      (set_loop AwaitLoad (set_reconnectAttempts (reconnectAttempts s + 1) s),
       [LoadProto])
  else (set_loop NotRunning s, []).

Definition handleDisconnect (s : State) : State * list Action :=
  if reconnecting s then (s, [])
  else
    let s1 := set_reconnecting true (set_connected false s) in
    let (s2, acts) := attemptReconnect s1 in
    (s2, Emit "disconnected" :: acts).

(* stream.on('error', ...).  EventEmitter.emit('error') throws when nobody
   listens, which ends the handler before handleDisconnect(). *)
Definition onStreamError (code : Z) (s : State) : State * list Action :=
  if (code =? CANCELLED)%Z then (s, [])
  else if errorListener s then
    let (s1, acts) := handleDisconnect s in (s1, Emit "error" :: acts)
  else (s, [Emit "error"]).

(* What reaches the client from outside. *)
Inductive Event : Type :=
| ProtoLoaded
| ReadyResult (ok : bool)
| TimerFired
| StreamError (code : Z)
| CallDisconnect.

Definition step (s : State) (e : Event) : State * list Action :=
  match e, loop s with
  | ProtoLoaded, AwaitLoad =>
      (set_loop AwaitReady (set_client true s), [WaitForReady])
  | ReadyResult true, AwaitReady =>
      (set_loop NotRunning
         (set_reconnecting false
            (set_reconnectAttempts 0 (set_connected true s))),
       [Emit "connected"; Emit "reconnected"])
  | ReadyResult false, AwaitReady =>
      (set_loop AwaitSleep s, [SetTimeout (reconnectInterval (config s))])
  | TimerFired, AwaitSleep => attemptReconnect s
  | StreamError code, _ => onStreamError code s
  | CallDisconnect, _ => disconnect s
  | _, _ => (s, [])
  end.

Fixpoint run (s : State) (events : list Event) : State * list Action :=
  match events with
  | [] => (s, [])
  | e :: rest =>
      let (s1, a1) := step s e in
      let (s2, a2) := run s1 rest in
      (s2, a1 ++ a2)
  end.

(* One reconnect attempt against a transport that never becomes ready. *)
Definition failing_round : list Event := [ProtoLoaded; ReadyResult false; TimerFired].

Fixpoint failing_rounds (n : nat) : list Event :=
  match n with
  | O => []
  | S k => failing_round ++ failing_rounds k
  end.

Definition is_connect (a : Action) : bool :=
  match a with LoadProto => true | _ => false end.

Definition is_emit (name : string) (a : Action) : bool :=
  match a with Emit e => String.eqb e name | _ => false end.

Definition count (p : Action -> bool) (acts : list Action) : nat :=
  List.length (filter p acts).

(** Notions used to state what the reconnect loop does. *)

(* A loop with no bound that waits for the proto file keeps retrying. *)
Definition retrying (s : State) : Prop :=
  loop s = AwaitLoad /\ reconnecting s = true
  /\ maxReconnectAttempts (config s) = (-1)%Z.

(* A bounded loop that waits for the proto file with [r] attempts left. *)
Definition bounded (n : Z) (r : nat) (s : State) : Prop :=
  loop s = AwaitLoad /\ reconnecting s = true
  /\ maxReconnectAttempts (config s) = n
  /\ (0 <= reconnectAttempts s)%Z
  /\ (reconnectAttempts s + Z.of_nat r = n)%Z.

(* What one failed attempt does: load, wait for ready, then sleep. *)
Definition failed_attempt (ms : Z) : list Action :=
  [LoadProto; WaitForReady; SetTimeout ms].

Fixpoint failed_attempts (ms : Z) (n : nat) : list Action :=
  match n with
  | O => []
  | S k => failed_attempt ms ++ failed_attempts ms k
  end.

End Client.

(** * Further code of the same files and of their callers

    - [AttachmentTransfer]: chunking, URL attachments, content types and size
      estimates of [src/serialization/attachment-handler.ts];
    - [AttachmentStore]: createAttachment and the metadata object of its
      caller;
    - [EventTransfer]: createProtoEvent and the batch functions of
      [src/serialization/event-serializer.ts];
    - [FacetTransfer]: the batch functions of
      [src/serialization/facet-serializer.ts] and what the codec keeps of a
      facet tree;
    - [DeltaTransfer]: facet deltas as ConnectomeServer sends them and
      ConnectomeClient reads them;
    - [ClientSession]: what holds of a client session at every moment;
    - [Server]: the registry of active subscriptions of ConnectomeServer. *)

(** ** src/serialization/attachment-handler.ts: chunking, URL attachments,
    content types, size estimates *)
Module AttachmentTransfer.

Import FacetSerializer AttachmentHandler.

(* A relative index of slice(): negative counts from the end, then clamped. *)
Definition relative_index (i len : Z) : Z :=
  if (i <? 0)%Z then Z.max (len + i) 0 else Z.min i len.

(* data.slice(start, end) *)
Definition Uint8Array_slice (data : list Byte.byte) (start end_ : Z) : list Byte.byte :=
  let len := Z.of_nat (List.length data) in
  let k := relative_index start len in
  let final := relative_index end_ len in
  firstn (Z.to_nat (final - k)) (skipn (Z.to_nat k) data).

(* One turn of the generator's loop at [offset]: the chunk it yields and the
   next offset, or [None] when the loop test fails and the generator returns. *)
Definition chunk_next (data : list Byte.byte) (chunkSize offset : Z)
  : option (list Byte.byte * Z) :=
  let len := Z.of_nat (List.length data) in
  if (offset <? len)%Z
  then Some (Uint8Array_slice data offset (Z.min (offset + chunkSize) len),
             (offset + chunkSize)%Z)
  else None.

(* The chunks yielded from [offset] on, if the generator returns within
   [fuel] turns. *)
Fixpoint chunks_from (fuel : nat) (data : list Byte.byte) (chunkSize offset : Z)
  : option (list (list Byte.byte)) :=
  match chunk_next data chunkSize offset with
  | None => Some []
  | Some (chunk, offset') =>
      match fuel with
      | O => None
      | S f =>
          match chunks_from f data chunkSize offset' with
          | Some rest => Some (chunk :: rest)
          | None => None
          end
      end
  end.

(* [...chunkData(data, chunkSize)]; an omitted size is CHUNK_SIZE. *)
Definition chunkData (fuel : nat) (data : list Byte.byte) (chunkSize : option Z)
  : option (list (list Byte.byte)) :=
  chunks_from fuel data (match chunkSize with Some n => n | None => CHUNK_SIZE end) 0.

(* The first [n] values the generator yields (fewer if it returns). *)
Fixpoint first_chunks (n : nat) (data : list Byte.byte) (chunkSize offset : Z)
  : list (list Byte.byte) :=
  match n with
  | O => []
  | S k =>
      match chunk_next data chunkSize offset with
      | None => []
      | Some (chunk, offset') => chunk :: first_chunks k data chunkSize offset'
      end
  end.

(* Every chunk but the last has exactly [size] bytes; the last has between 1
   and [size]. *)
Fixpoint full_but_last (size : nat) (chunks : list (list Byte.byte)) : Prop :=
  match chunks with
  | [] => True
  | c :: rest =>
      match rest with
      | [] => (1 <= List.length c <= size)%nat
      | _ :: _ => List.length c = size /\ full_but_last size rest
      end
  end.

(* [fresh_id] is what generateAttachmentId() returned for this call. *)
Definition createUrlAttachment (fresh_id url contentType : string) (sizeBytes : Z)
  (filename : option string) (metadata : option (list (string * string)))
  : ProtoAttachment :=
  {| pa_id := fresh_id;
     pa_contentType := contentType;
     pa_inlineData := None;
     pa_url := Some url;
     pa_sizeBytes := sizeBytes;
     pa_filename := Js.opt_str_or filename "";
     pa_metadata := match metadata with Some m => m | None => [] end |}.

(* Wire metadata whose entries come back as the same strings after a decode
   and a re-encode: no entry named __proto__ and no value that is itself
   JSON text. *)
Definition plain_entries (m : list (string * string)) : bool :=
  Json.fresh_keys (map fst m)
  && forallb (fun kv => Js.plain_key (fst kv)) m
  && forallb (fun kv => match Json.parse (snd kv) with Some _ => false | None => true end) m.

(* String.prototype.toLowerCase on a Latin-1 code unit: A-Z and the accented
   capitals U+00C0..U+00DE, U+00D7 (the multiplication sign) excepted. *)
Definition toLowerCase_char (c : ascii) : ascii :=
  let n := N_of_ascii c in
  if (((65 <=? n) && (n <=? 90))
      || ((192 <=? n) && (n <=? 222) && negb (n =? 215)))%N
  then ascii_of_N (n + 32) else c.

Definition toLowerCase (s : list ascii) : list ascii := map toLowerCase_char s.

(* s.split('.'): the pieces between the dots, at least one. *)
Fixpoint split_dot (s : list ascii) : list (list ascii) :=
  match s with
  | [] => [[]]
  | c :: r =>
      if (c =? ".")%char then [] :: split_dot r
      else
        match split_dot r with
        | seg :: segs => (c :: seg) :: segs
        | [] => [[c]]
        end
  end.

(* array.pop() of an array that has an element. *)
Definition pop (segs : list (list ascii)) : list ascii := List.last segs [].

(* filename.split('.').pop()?.toLowerCase() *)
Definition extension (filename : string) : string :=
  string_of_list_ascii
    (toLowerCase (pop (split_dot (list_ascii_of_string filename)))).

(* const contentTypes = { ... } *)
Definition contentTypes : list (string * string) :=
  [("jpg", "image/jpeg"); ("jpeg", "image/jpeg"); ("png", "image/png");
   ("gif", "image/gif"); ("webp", "image/webp"); ("svg", "image/svg+xml");
   ("pdf", "application/pdf"); ("json", "application/json");
   ("txt", "text/plain"); ("html", "text/html"); ("css", "text/css");
   ("js", "application/javascript"); ("ts", "application/typescript");
   ("mp3", "audio/mpeg"); ("mp4", "video/mp4"); ("webm", "video/webm");
   ("ogg", "audio/ogg"); ("wav", "audio/wav")].

(* The properties every object literal inherits from Object.prototype. *)
Definition Object_prototype_names : list string :=
  ["constructor"; "__defineGetter__"; "__defineSetter__"; "hasOwnProperty";
   "__lookupGetter__"; "__lookupSetter__"; "isPrototypeOf";
   "propertyIsEnumerable"; "toString"; "valueOf"; "__proto__"; "toLocaleString"].

(* What the function returns: a string of the table or the default, or, for a
   key the table inherits, that member of Object.prototype, which is an
   object or a function and is truthy. *)
Inductive ContentTypeResult : Type :=
| MimeType (contentType : string)
| InheritedMember (name : string).

(* contentTypes[ext || ''] || 'application/octet-stream' *)
Definition getContentTypeFromFilename (filename : string) : ContentTypeResult :=
  let ext := extension filename in
  match obj_get ext contentTypes with
  | Some contentType => MimeType contentType
  | None =>
      if existsb (String.eqb ext) Object_prototype_names
      then InheritedMember ext
      else MimeType "application/octet-stream"
  end.

(* contentType.startsWith('image/') *)
Definition isImageContentType (contentType : string) : bool :=
  String.prefix "image/" contentType.

(* compressible.includes(contentType) *)
Definition supportsCompression (contentType : string) : bool :=
  existsb (String.eqb contentType) ["image/jpeg"; "image/png"; "image/webp"].

(* A double given as mantissa / 2^scale. *)
Record double : Type := mkDouble { mantissa : Z; scale : Z }.

(* The doubles the literals 0.3, 0.8 and 0.5 denote. *)
Definition ratios : list (string * double) :=
  [("image/png", mkDouble 5404319552844595 54);
   ("image/jpeg", mkDouble 7205759403792794 53);
   ("image/webp", mkDouble 1 1)].

(* Math.ceil(n * r) for an integer n: the exact product is rounded to a
   double, then rounded up to an integer. *)
Definition ceil_times (n : Z) (r : double) : Z :=
  (- ((- round_double (n * mantissa r)) / 2 ^ scale r))%Z.

Definition estimateCompressedSize (originalSize : Z) (contentType : string) : Z :=
  if negb (supportsCompression contentType) then originalSize
  else
    match obj_get contentType ratios with
    | Some ratio => ceil_times originalSize ratio
    | None => originalSize
    end.

End AttachmentTransfer.

(** ** src/serialization/attachment-handler.ts: createAttachment and the
    caller's metadata object *)
Module AttachmentStore.

Import FacetSerializer AttachmentHandler.

(* Records live in a store; a Record<string, string> argument is a reference
   into it. *)
Definition Ref : Type := nat.
Definition Store : Type := list (list (string * string)).

Definition read (ref : Ref) (store : Store) : list (string * string) :=
  nth ref store [].

(* The store after the record at [ref] has become [f] of itself. *)
Fixpoint update (ref : Ref) (f : list (string * string) -> list (string * string))
  (store : Store) : Store :=
  match store, ref with
  | [], _ => []
  | o :: rest, O => f o :: rest
  | o :: rest, S r => o :: update r f rest
  end.

(* A ProtoAttachment whose metadata is a reference. *)
Record StoredAttachment : Type := mkStoredAttachment {
  sa_id : string;
  sa_contentType : string;
  sa_inlineData : option (list Byte.byte);
  sa_url : option string;
  sa_sizeBytes : Z;
  sa_filename : string;
  sa_metadata : Ref
}.

(* The attachment with its metadata read from the store. *)
Definition view (store : Store) (att : StoredAttachment) : ProtoAttachment :=
  {| pa_id := sa_id att;
     pa_contentType := sa_contentType att;
     pa_inlineData := sa_inlineData att;
     pa_url := sa_url att;
     pa_sizeBytes := sa_sizeBytes att;
     pa_filename := sa_filename att;
     pa_metadata := read (sa_metadata att) store |}.

(* metadata || {}: the caller's record itself, or a new empty one. *)
Definition metadata_or_new (metadata : option Ref) (store : Store) : Store * Ref :=
  match metadata with
  | Some ref => (store, ref)
  | None => (store ++ [[]], List.length store)
  end.

(* createAttachment with the store it works on; [fresh_id] is what
   generateAttachmentId() returned for this call. *)
Definition createAttachment (store : Store) (fresh_id : string)
  (data : list Byte.byte) (contentType : string) (filename : option string)
  (metadata : option Ref) : Store * StoredAttachment :=
  let size := Z.of_nat (List.length data) in
  let (store1, ref) := metadata_or_new metadata store in
  if shouldInlineAttachment size then
    (store1,
     mkStoredAttachment fresh_id contentType (Some data) None size
       (Js.opt_str_or filename "") ref)
  else
    (update ref
       (fun o =>
          Json.obj_set "originalSize" (String_of_number size)
            (Json.obj_set "requiresUpload" "true" o))
       store1,
     mkStoredAttachment fresh_id contentType None None size
       (Js.opt_str_or filename "") ref).

End AttachmentStore.

(** ** src/serialization/event-serializer.ts: event construction and batches *)
Module EventTransfer.

Import EventSerializer.

(* The [options] argument of createProtoEvent. *)
Record EventOptions : Type := mkEventOptions {
  o_priority : option string;
  o_sync : option bool;
  o_metadata : option (list (string * Json.value))
}.

(* [now] is what Date.now() returned for this call; an [undefined] payload is
   [None]. *)
Definition createProtoEvent (now : Z) (topic sourceId : string)
  (payload : option Json.value) (options : option EventOptions) : ProtoSpaceEvent :=
  eventToProto
    (mkSpaceEvent topic
       (mkComponentRef sourceId (Some [sourceId]) None)
       payload
       now
       (match options with Some o => o_priority o | None => None end)
       (match options with Some o => o_sync o | None => None end)
       (match options with Some o => o_metadata o | None => None end)).

Definition eventsToProto (events : list SpaceEvent) : list ProtoSpaceEvent :=
  map eventToProto events.

Definition protoToEvents (protos : list ProtoSpaceEvent) : list SpaceEvent :=
  map protoToEvent protos.

(* The four priorities of the in-memory type. *)
Definition priorities : list string := ["immediate"; "high"; "normal"; "low"].

(* The form in which protoToEvent returns a component reference: the path is
   present, the type is absent rather than empty. *)
Definition canonical_ref (ref : ComponentRef) : bool :=
  match componentPath ref with Some _ => true | None => false end
  && FacetSerializer.canonical_string (componentType ref).

(* The form in which protoToEvent returns an event: an explicit priority, a
   sync flag that is absent rather than false, a metadata map that is absent
   rather than empty and whose values survive the wire. *)
Definition canonical_event (event : SpaceEvent) : bool :=
  canonical_ref (source event)
  && match payload event with Some p => Json.serializable p | None => true end
  && match priority event with
     | Some p => existsb (String.eqb p) priorities
     | None => false
     end
  && match sync event with Some false => false | _ => true end
  && FacetSerializer.canonical_props (metadata event).

End EventTransfer.

(** ** src/serialization/facet-serializer.ts: batches, and what the codec
    keeps of a facet tree *)
Module FacetTransfer.

Import FacetSerializer.

(* facets.map(facetToProto): one exception aborts the batch. *)
Definition facetsToProto (facets : list Facet) : option (list ProtoFacet) :=
  map_throwing facetToProto facets.

Definition protoToFacets (protos : list ProtoFacet) : list Facet :=
  map protoToFacet protos.

(* A base64 text that attachmentToProto hands to atob and atob rejects. *)
Definition rejected (attachment : Attachment) : bool :=
  match a_data attachment with
  | Some (DataBase64 s) =>
      Js.truthy_str s
      && match Base64.atob_bytes s with Some _ => false | None => true end
  | _ => false
  end.

(* Some attachment of the facet or of a descendant is rejected. *)
Fixpoint has_rejected (facet : Facet) : bool :=
  match facet with
  | mkFacet _ _ _ _ _ _ _ _ _ _ _ children _ attachments =>
      match children with
      | Some cs => existsb has_rejected cs
      | None => false
      end
      || existsb rejected (opt_list attachments)
  end.






(* The wire facet with its state, attributes and attachments blanked, at
   every depth: the plain fields and the shape of the tree. *)
Fixpoint skeleton (proto : ProtoFacet) : ProtoFacet :=
  match proto with
  | mkProtoFacet id type _ content tags agentId agentName streamId streamType
      scopes ephemeral children _ _ =>
      mkProtoFacet id type [] content tags agentId agentName streamId streamType
        scopes ephemeral (map skeleton children) [] []
  end.

(* Ids and types of a facet tree, in place. *)
Inductive Outline : Type :=
| Node (id type : string) (children : list Outline).

Fixpoint outline (facet : Facet) : Outline :=
  match facet with
  | mkFacet id type _ _ _ _ _ _ _ _ _ children _ _ =>
      Node id type
        match children with
        | Some cs => map outline cs
        | None => []
        end
  end.

(* Induction over wire facets that reaches into the children. *)
Section ProtoFacet_ind_nested.
Variable P : ProtoFacet -> Prop.
Hypothesis Hproto :
  forall id type stateJson content tags agentId agentName streamId streamType
    scopes ephemeral children attributes attachments,
    Forall P children ->
    P (mkProtoFacet id type stateJson content tags agentId agentName streamId
         streamType scopes ephemeral children attributes attachments).

Fixpoint ProtoFacet_ind_nested (p : ProtoFacet) : P p :=
  match p with
  | mkProtoFacet id type stateJson content tags agentId agentName streamId
      streamType scopes ephemeral children attributes attachments =>
      Hproto id type stateJson content tags agentId agentName streamId
        streamType scopes ephemeral children attributes attachments
        ((fix go (l : list ProtoFacet) : Forall P l :=
            match l with
            | [] => Forall_nil _
            | c :: l' => Forall_cons c (ProtoFacet_ind_nested c) (go l')
            end) children)
  end.
End ProtoFacet_ind_nested.

End FacetTransfer.

(** ** Facet deltas from ConnectomeServer to ConnectomeClient *)
Module DeltaTransfer.

Import FacetSerializer.

(* interface FacetDelta; an absent facet is null. *)
Record FacetDelta : Type := mkFacetDelta {
  d_type : string;
  d_facet : option Facet;
  d_oldFacet : option Facet;
  d_sequence : Z;
  d_frameUuid : string
}.

(* The delta message of the wire; the enum travels by name. *)
Record ProtoDelta : Type := mkProtoDelta {
  pd_type : string;
  pd_facet : option ProtoFacet;
  pd_oldFacet : option ProtoFacet;
  pd_sequence : Z;
  pd_frameUuid : string
}.

(* facet ? facetToProto(facet) : null; the outer [None] is the exception of
   facetToProto. *)
Definition facet_or_null (facet : option Facet) : option (option ProtoFacet) :=
  match facet with
  | Some f =>
      match facetToProto f with
      | Some p => Some (Some p)
      | None => None
      end
  | None => Some None
  end.

(* The object literal of sendDelta and of handleEmitEvent (ConnectomeServer). *)
Definition protoData (delta : FacetDelta) : option ProtoDelta :=
  let type :=
    if String.eqb (d_type delta) "added" then "DELTA_ADDED"
    else if String.eqb (d_type delta) "changed" then "DELTA_CHANGED"
    else "DELTA_REMOVED" in
  match facet_or_null (d_facet delta) with
  | None => None
  | Some facet =>
      match facet_or_null (d_oldFacet delta) with
      | None => None
      | Some oldFacet =>
          Some (mkProtoDelta type facet oldFacet (d_sequence delta)
                  (d_frameUuid delta))
      end
  end.

(* The object literal of the 'data' listener of subscribe() and of
   emitEvent() (ConnectomeClient). *)
Definition onData (data : ProtoDelta) : FacetDelta :=
  mkFacetDelta
    (if String.eqb (pd_type data) "DELTA_ADDED" then "added"
     else if String.eqb (pd_type data) "DELTA_CHANGED" then "changed"
     else "removed")
    (option_map protoToFacet (pd_facet data))
    (option_map protoToFacet (pd_oldFacet data))
    (pd_sequence data)
    (pd_frameUuid data).

(* What the emitEvent handler resolves to. *)
Record HandlerResult : Type := mkHandlerResult {
  h_success : bool;
  h_sequence : Z;
  h_frameUuid : string;
  h_deltas : option (list FacetDelta);
  h_error : option string
}.

(* The EmitEvent response message. *)
Record EmitEventResponse : Type := mkEmitEventResponse {
  er_success : bool;
  er_sequence : Z;
  er_frameUuid : string;
  er_deltas : list ProtoDelta;
  er_error : string
}.

(* interface FrameResult, as emitEvent() fills it. *)
Record FrameResult : Type := mkFrameResult {
  success : bool;
  sequence : Z;
  frameUuid : string;
  deltas : list FacetDelta;
  error : string
}.

(* handleEmitEvent, from the handler's result on: the response passed to the
   callback, or [None] when an exception makes it answer with INTERNAL. *)
Definition handleEmitEvent_response (result : HandlerResult) : option EmitEventResponse :=
  match map_throwing protoData (opt_list (h_deltas result)) with
  | Some ds =>
      Some (mkEmitEventResponse (h_success result) (h_sequence result)
              (h_frameUuid result) ds (Js.opt_str_or (h_error result) ""))
  | None => None
  end.

(* emitEvent(), from the response on: the value the promise resolves to. *)
Definition emitEvent_result (response : EmitEventResponse) : FrameResult :=
  mkFrameResult (er_success response) (er_sequence response)
    (er_frameUuid response) (map onData (er_deltas response)) (er_error response).

(* The kind a delta arrives with. *)
Definition received_type (type : string) : string :=
  if String.eqb type "added" then "added"
  else if String.eqb type "changed" then "changed"
  else "removed".

Definition canonical_opt (facet : option Facet) : bool :=
  match facet with Some f => canonical f | None => true end.

Definition canonical_delta (delta : FacetDelta) : bool :=
  canonical_opt (d_facet delta) && canonical_opt (d_oldFacet delta).

End DeltaTransfer.

(** ** src/client.ts: what holds of a session at every moment *)
Module ClientSession.

Import Client.

(* The reconnecting flag is set exactly while an attemptReconnect() activation
   is pending, and the attempt counter stays within a budget that is a
   bound. *)
Definition consistent (s : State) : Prop :=
  (reconnecting s = true <-> loop s <> NotRunning)
  /\ (0 <= reconnectAttempts s)%Z
  /\ ((0 <= maxReconnectAttempts (config s))%Z ->
      (reconnectAttempts s <= maxReconnectAttempts (config s))%Z).

(* A connect attempt that succeeds. *)
Definition succeeding_round : list Event := [ProtoLoaded; ReadyResult true].

End ClientSession.

(** ** ConnectomeServer: the registry of active subscriptions *)
Module Server.

Import AttachmentHandler.

(* One SubscribeToFacets call: the client id of its request, the value of
   Date.now() when it was handled, and the identity of the unsubscribe
   function the handler returned for it. *)
Record Call : Type := mkCall {
  request_clientId : string;
  arrived : Z;
  unsubscribe : nat
}.

(* request.clientId || `client-${Date.now()}` *)
Definition clientId (call : Call) : string :=
  Js.str_or (request_clientId call) ("client-" ++ String_of_number (arrived call)).

(* activeSubscriptions: Map<string, { cancel }>, in insertion order. *)
Definition Registry : Type := list (string * nat).

(* map.delete(key) *)
Fixpoint Map_delete (k : string) (m : Registry) : Registry :=
  match m with
  | [] => []
  | (k', v) :: m' => if String.eqb k' k then m' else (k', v) :: Map_delete k m'
  end.

Inductive ServerAction : Type :=
| Unsubscribe (fn : nat)   (* a call of an unsubscribe function *)
| CallEnd (fn : nat).      (* call.end() on the stream of that subscription *)

(* handleSubscribeToFacets: activeSubscriptions.set(clientId, ...) *)
Definition handleSubscribeToFacets (call : Call) (subs : Registry) : Registry :=
  Json.obj_set (clientId call) (unsubscribe call) subs.

(* The 'cancelled' listener, and the 'error' listener, of a call. *)
Definition onCancelled (call : Call) (subs : Registry) : Registry * list ServerAction :=
  (Map_delete (clientId call) subs, [Unsubscribe (unsubscribe call)]).

(* onEnd, which the handler calls when it ends the subscription. *)
Definition onEnd (writable : bool) (call : Call) (subs : Registry)
  : Registry * list ServerAction :=
  (Map_delete (clientId call) subs,
   if writable then [CallEnd (unsubscribe call)] else []).

(* stop(), up to the shutdown of the transport: every registered
   subscription is cancelled, then the registry is cleared. *)
Definition stop (subs : Registry) : Registry * list ServerAction :=
  ([], map (fun entry => Unsubscribe (snd entry)) subs).

(* getStats().activeSubscriptions *)
Definition getStats (subs : Registry) : nat := List.length subs.

Inductive CallEvent : Type :=
| Subscribed (call : Call)
| Cancelled (call : Call)
| Errored (call : Call)
| Ended (writable : bool) (call : Call).

Definition handle (subs : Registry) (e : CallEvent) : Registry * list ServerAction :=
  match e with
  | Subscribed call => (handleSubscribeToFacets call subs, [])
  | Cancelled call | Errored call => onCancelled call subs
  | Ended writable call => onEnd writable call subs
  end.

Fixpoint handle_all (subs : Registry) (events : list CallEvent) : Registry * list ServerAction :=
  match events with
  | [] => (subs, [])
  | e :: rest =>
      let (subs1, a1) := handle subs e in
      let (subs2, a2) := handle_all subs1 rest in
      (subs2, a1 ++ a2)
  end.






Definition entry (call : Call) : string * nat := (clientId call, unsubscribe call).

End Server.


(** * Properties *)

(** ** JSON.parse after JSON.stringify *)
Module JsonFacts.

Import Json.

(** *** Decimal numbers *)

Lemma digit_char_code d : (d < 10)%N -> N_of_ascii (digit_char d) = (48 + d)%N.
Proof. intros H. unfold digit_char. apply N_ascii_embedding. lia. Qed.

Lemma is_digit_digit_char d : (d < 10)%N -> is_digit (digit_char d) = true.
Proof.
  intros H. unfold is_digit. rewrite digit_char_code by exact H.
  apply andb_true_intro; split; apply N.leb_le; lia.
Qed.

Lemma digit_val_digit_char d : (d < 10)%N -> digit_val (digit_char d) = d.
Proof. intros H. unfold digit_val. rewrite digit_char_code by exact H. lia. Qed.

Lemma N_of_digits_eq ds : N_of_digits ds = fold_left val_step ds 0%N.
Proof. reflexivity. Qed.

(* Reading the digits of [n] gives [n]. *)
Lemma digits_aux_val f : forall n acc,
  (n < 2 ^ N.of_nat f)%N ->
  fold_left val_step (digits_aux f n acc) 0%N = fold_left val_step acc n.
Proof.
  induction f as [|f IH]; intros n acc Hn.
  - simpl in *. assert (n = 0%N) by lia. subst. reflexivity.
  - cbn [digits_aux]. 
    assert (Hm : (n mod 10 < 10)%N) by (apply N.mod_lt; lia).
    destruct (N.eqb_spec (n / 10) 0) as [Hz|Hz].
    + cbn [fold_left]. unfold val_step at 2. rewrite digit_val_digit_char by exact Hm.
      f_equal. pose proof (N.div_mod n 10). lia.
    + rewrite IH.
      * cbn [fold_left]. unfold val_step at 2. rewrite digit_val_digit_char by exact Hm.
        f_equal. pose proof (N.div_mod n 10). lia.
      * rewrite Nat2N.inj_succ, N.pow_succ_r' in Hn.
        apply N.Div0.div_lt_upper_bound. lia.
Qed.

Lemma digits_aux_all f : forall n acc,
  Forall (fun c => is_digit c = true) acc ->
  Forall (fun c => is_digit c = true) (digits_aux f n acc).
Proof.
  induction f as [|f IH]; intros n acc Hacc; cbn [digits_aux]; [exact Hacc|].
  assert (Hm : (n mod 10 < 10)%N) by (apply N.mod_lt; lia).
  destruct (N.eqb_spec (n / 10) 0).
  - constructor; [apply is_digit_digit_char; exact Hm|exact Hacc].
  - apply IH. constructor; [apply is_digit_digit_char; exact Hm|exact Hacc].
Qed.

Lemma log2_fuel n : (n < 2 ^ N.of_nat (S (N.to_nat (N.log2 n))))%N.
Proof.
  rewrite Nat2N.inj_succ, N2Nat.id.
  destruct (N.eq_dec n 0) as [->|Hn]; [reflexivity|].
  apply N.log2_spec. lia.
Qed.

Lemma digits_val n : N_of_digits (digits n) = n.
Proof.
  unfold digits. rewrite N_of_digits_eq, digits_aux_val by apply log2_fuel. reflexivity.
Qed.

Lemma digits_all n : Forall (fun c => is_digit c = true) (digits n).
Proof. apply digits_aux_all. constructor. Qed.

(* The most significant digit is not a zero unless the number is zero. *)
Lemma digits_aux_head f : forall n acc,
  (n < 2 ^ N.of_nat f)%N -> (0 < n)%N ->
  exists d r, digits_aux f n acc = digit_char d :: r /\ (0 < d < 10)%N.
Proof.
  induction f as [|f IH]; intros n acc Hn Hpos.
  - simpl in Hn. lia.
  - cbn [digits_aux].
    destruct (N.eqb_spec (n / 10) 0) as [Hz|Hz].
    + exists (n mod 10)%N, acc. split; [reflexivity|].
      pose proof (N.div_mod n 10). pose proof (N.mod_lt n 10). lia.
    + apply IH.
      * rewrite Nat2N.inj_succ, N.pow_succ_r' in Hn.
        apply N.Div0.div_lt_upper_bound. lia.
      * apply N.neq_0_lt_0. exact Hz.
Qed.

Lemma digits_head n : (0 < n)%N ->
  exists d r, digits n = digit_char d :: r /\ (0 < d < 10)%N.
Proof. intros H. apply digits_aux_head; [apply log2_fuel|exact H]. Qed.

(* A run of digits is cut where the digits end. *)
Lemma span_digits_app ds : forall rest,
  Forall (fun c => is_digit c = true) ds -> starts_nondigit rest = true ->
  span_digits (ds ++ rest) = (ds, rest).
Proof.
  induction ds as [|c ds IH]; intros rest Hall Hrest.
  - cbn [app]. destruct rest as [|c r]; [reflexivity|].
    cbn in *. destruct (is_digit c); [discriminate|reflexivity].
  - inversion Hall; subst. cbn. rewrite H1, IH by assumption. reflexivity.
Qed.

Lemma delim_nondigit s : delim s = true -> starts_nondigit s = true.
Proof.
  destruct s as [|c r]; [reflexivity|]. cbn.
  destruct (Ascii.eqb_spec c ","); [subst; reflexivity|].
  destruct (Ascii.eqb_spec c "]"); [subst; reflexivity|].
  destruct (Ascii.eqb_spec c "}"); [subst; reflexivity|]. discriminate.
Qed.

Lemma delim_frac s : delim s = true -> parse_frac s = Some ([], s).
Proof.
  destruct s as [|c r]; [reflexivity|]. cbn.
  destruct (Ascii.eqb_spec c ","); [subst; reflexivity|].
  destruct (Ascii.eqb_spec c "]"); [subst; reflexivity|].
  destruct (Ascii.eqb_spec c "}"); [subst; reflexivity|]. discriminate.
Qed.

Lemma delim_exp s : delim s = true -> parse_exp s = Some ([], s).
Proof.
  destruct s as [|c r]; [reflexivity|]. cbn.
  destruct (Ascii.eqb_spec c ","); [subst; reflexivity|].
  destruct (Ascii.eqb_spec c "]"); [subst; reflexivity|].
  destruct (Ascii.eqb_spec c "}"); [subst; reflexivity|]. discriminate.
Qed.

(* The digits of a safe integer, followed by a delimiter, are an integer
   token. *)
Lemma number_token_digits n rest sg :
  (Z.of_N n <= MAX_SAFE_INTEGER)%Z -> delim rest = true ->
  number_token sg (digits n ++ rest)
  = Some (JNum (if is_nil sg then Z.of_N n else (- Z.of_N n)%Z), rest).
Proof.
  intros Hsafe Hrest. unfold number_token.
  rewrite span_digits_app by (auto using digits_all, delim_nondigit).
  assert (Hlead : exists d ds, digits n = d :: ds /\
                   ((d =? "0")%char && negb (is_nil ds) = false)).
  { destruct (N.eq_dec n 0) as [->|Hn].
    - exists "0"%char, []. split; reflexivity.
    - destruct (digits_head n) as (d & r & Heq & Hd); [lia|].
      exists (digit_char d), r. split; [exact Heq|].
      assert (Hne : (digit_char d =? "0")%char = false).
      { apply Ascii.eqb_neq. intros Hc.
        apply (f_equal N_of_ascii) in Hc. rewrite digit_char_code in Hc by lia.
        change (N_of_ascii "0"%char) with 48%N in Hc. lia. }
      rewrite Hne. reflexivity. }
  destruct Hlead as (d & ds & Heq & Hlead).
  pose proof (digits_val n) as Hval. rewrite Heq in *. rewrite Hlead.
  rewrite delim_frac, delim_exp by exact Hrest. cbn [is_nil andb].
  rewrite Hval.
  destruct (Z.leb_spec (Z.of_N n) MAX_SAFE_INTEGER); [reflexivity|lia].
Qed.

Lemma digit_not_minus c : is_digit c = true -> (c =? "-")%char = false.
Proof.
  intros H. apply Ascii.eqb_neq. intros ->. discriminate.
Qed.

Lemma digits_cons n : exists c r, digits n = c :: r /\ is_digit c = true.
Proof.
  destruct (N.eq_dec n 0) as [->|Hn].
  - exists "0"%char, []. split; reflexivity.
  - destruct (digits_head n) as (d & r & Heq & Hd); [lia|].
    exists (digit_char d), r. split; [exact Heq|].
    apply is_digit_digit_char. lia.
Qed.

Lemma parse_number_print z rest :
  (Z.abs z <= MAX_SAFE_INTEGER)%Z -> delim rest = true ->
  parse_number (print_Z z ++ rest) = Some (JNum z, rest).
Proof.
  intros Hsafe Hrest. unfold print_Z, parse_number.
  assert (Hs : (- MAX_SAFE_INTEGER <= z <= MAX_SAFE_INTEGER)%Z) by lia.
  clear Hsafe. destruct Hs as [Hlo Hhi].
  destruct (Z.ltb_spec z 0) as [Hneg|Hpos].
  - cbn [app]. cbn [Ascii.eqb Bool.eqb].
    rewrite number_token_digits; [|lia|exact Hrest].
    cbn [is_nil]. do 3 f_equal. lia.
  - destruct (digits_cons (Z.to_N z)) as (c & r & Heq & Hc).
    pose proof (number_token_digits (Z.to_N z) rest []) as Htok.
    rewrite Heq in *. cbn [app] in *.
    rewrite (digit_not_minus c Hc), Htok; [|lia|exact Hrest].
    cbn [is_nil]. do 3 f_equal. lia.
Qed.

(** *** String literals *)

(* Each quoted character is read back as itself. *)
Lemma parse_chars_quote_char c : forall tl,
  parse_chars (quote_char c ++ tl) = option_map (cons_fst c) (parse_chars tl).
Proof.
  intros tl.
  destruct c as [[|] [|] [|] [|] [|] [|] [|] [|]]; reflexivity.
Qed.

Lemma parse_chars_quote s : forall rest,
  parse_chars (quote_chars s ++ c_quote :: rest) = Some (s, rest).
Proof.
  induction s as [|c s IH]; intros rest.
  - reflexivity.
  - cbn [quote_chars]. rewrite <- app_assoc, parse_chars_quote_char, IH. reflexivity.
Qed.

(** *** Values *)

Lemma print_arr l : print (JArr l) = "["%char :: print_elems l ++ ["]"%char].
Proof. reflexivity. Qed.

Lemma print_obj m : print (JObj m) = "{"%char :: print_members m ++ ["}"%char].
Proof. reflexivity. Qed.

Lemma print_elems_cons x y l :
  print_elems (x :: y :: l) = print x ++ ","%char :: print_elems (y :: l).
Proof. reflexivity. Qed.

Lemma print_members_cons k x kv l :
  print_members ((k, x) :: kv :: l)
  = print_string k ++ ":"%char :: print x ++ ","%char :: print_members (kv :: l).
Proof. reflexivity. Qed.

Lemma opens_value_app s t : opens_value s = true -> opens_value (s ++ t) = true.
Proof. destruct s; [discriminate|auto]. Qed.

Lemma is_digit_opens c r : is_digit c = true -> opens_value (c :: r) = true.
Proof.
  intros H. destruct c as [[|] [|] [|] [|] [|] [|] [|] [|]]; try discriminate H; reflexivity.
Qed.

Lemma print_opens v : serializable v = true -> opens_value (print v) = true.
Proof.
  destruct v as [|[|]|z|s|s|l|m]; cbn [serializable]; intros H; try reflexivity; try discriminate.
  cbn [print]. unfold print_Z. destruct (z <? 0)%Z; [reflexivity|].
  destruct (digits_cons (Z.to_N z)) as (c & r & -> & Hc).
  apply is_digit_opens; exact Hc.
Qed.

Lemma skip_ws_opens s : opens_value s = true -> skip_ws s = s.
Proof.
  destruct s as [|c r]; [discriminate|]. cbn.
  destruct (is_ws c); [discriminate|reflexivity].
Qed.

Lemma print_nonempty v : serializable v = true -> (1 <= List.length (print v))%nat.
Proof.
  intros H. apply print_opens in H. destruct (print v); [discriminate|cbn; lia].
Qed.

(* obj_set on fresh keys appends. *)
Lemma obj_set_fresh {A} k (v : A) o :
  existsb (String.eqb k) (map fst o) = false -> obj_set k v o = o ++ [(k, v)].
Proof.
  induction o as [|[k' v'] o IH]; cbn; intros H; [reflexivity|].
  apply orb_false_elim in H. destruct H as [H1 H2].
  rewrite String.eqb_sym, H1, IH by exact H2. reflexivity.
Qed.

Lemma existsb_app_false {A} (f : A -> bool) l1 l2 :
  existsb f (l1 ++ l2) = false <-> existsb f l1 = false /\ existsb f l2 = false.
Proof. rewrite existsb_app. apply orb_false_iff. Qed.

Lemma obj_entries_fresh {A} (l : list (string * A)) : forall acc,
  fresh_keys (map fst (acc ++ l)) = true ->
  fold_left (fun o kv => obj_set (fst kv) (snd kv) o) l acc = acc ++ l.
Proof.
  induction l as [|[k v] l IH]; intros acc H; cbn [fold_left].
  - symmetry; apply app_nil_r.
  - cbn [fst snd]. rewrite obj_set_fresh.
    + rewrite IH; rewrite <- app_assoc; [reflexivity|exact H].
    + clear IH. induction acc as [|[k' v'] acc IHa]; [reflexivity|].
      cbn in H. apply andb_prop in H. destruct H as [H1 H2].
      cbn. rewrite IHa by exact H2. rewrite orb_false_r.
      apply negb_true_iff in H1. rewrite map_app in H1.
      apply existsb_app_false in H1. destruct H1 as [_ H1]. cbn in H1.
      apply orb_false_elim in H1. destruct H1 as [H1 _].
      rewrite String.eqb_sym. exact H1.
Qed.

Lemma obj_of_entries_fresh {A} (l : list (string * A)) :
  fresh_keys (map fst l) = true -> obj_of_entries l = l.
Proof. intros H. apply (obj_entries_fresh l []). exact H. Qed.

(* Evaluate the character tests whose arguments are known. *)
Ltac reduce_tests :=
  repeat match goal with
  | |- context [Ascii.eqb ?a ?b] =>
      let v := eval vm_compute in (Ascii.eqb a b) in
      lazymatch v with true => idtac | false => idtac end;
      change (Ascii.eqb a b) with v
  | |- context [is_ws ?a] =>
      let v := eval vm_compute in (is_ws a) in
      lazymatch v with true => idtac | false => idtac end;
      change (is_ws a) with v
  end; cbv beta iota.

Lemma length_cons_S {A} (x : A) l : List.length (x :: l) = S (List.length l).
Proof. reflexivity. Qed.

(* Push [length] through [++] and [::] in [H]. *)
Ltac norm_length H :=
  repeat first [rewrite length_app in H | rewrite length_cons_S in H].

(* One step of the parser on each kind of printed value. *)
Lemma parse_value_number f s c r :
  skip_ws s = c :: r -> (c = "-"%char \/ is_digit c = true) ->
  parse_value (S f) s = parse_number (c :: r).
Proof.
  intros Hs Hc. cbn [parse_value]. rewrite Hs.
  destruct Hc as [->|Hc]; [reflexivity|].
  destruct c as [[|] [|] [|] [|] [|] [|] [|] [|]]; try discriminate Hc; reflexivity.
Qed.

Lemma parse_value_array f r :
  opens_value r = true ->
  parse_value (S f) ("["%char :: r)
  = match parse_elems f r with
    | Some (vs, r') => Some (JArr vs, r')
    | None => None
    end.
Proof.
  intros H. cbn [parse_value skip_ws]. reduce_tests.
  rewrite (skip_ws_opens r H). destruct r as [|c2 r2]; [discriminate|].
  cbn in H. destruct (c2 =? "]")%char; [|reflexivity].
  rewrite andb_false_r in H. discriminate.
Qed.

Lemma parse_value_object f r :
  opens_value r = true ->
  parse_value (S f) ("{"%char :: r)
  = match parse_members f r with
    | Some (kvs, r') => Some (JObj (obj_of_entries kvs), r')
    | None => None
    end.
Proof.
  intros H. cbn [parse_value skip_ws]. reduce_tests.
  rewrite (skip_ws_opens r H). destruct r as [|c2 r2]; [discriminate|].
  cbn in H. destruct (c2 =? "}")%char; [|reflexivity].
  rewrite andb_false_r in H. discriminate.
Qed.

Lemma parse_elems_step f v r s :
  parse_value f s = Some (v, r) ->
  parse_elems (S f) s
  = match skip_ws r with
    | c :: r' =>
        if (c =? ",")%char then
          match parse_elems f r' with
          | Some (vs, r'') => Some (v :: vs, r'')
          | None => None
          end
        else if (c =? "]")%char then Some ([v], r')
        else None
    | [] => None
    end.
Proof. intros H. cbn [parse_elems]. rewrite H. reflexivity. Qed.

Lemma parse_elems_print l :
  Forall (fun x => serializable x = true -> reparses x) l -> forallb serializable l = true -> l <> [] ->
  forall f rest, (List.length (print_elems l) < f)%nat ->
    parse_elems f (print_elems l ++ "]"%char :: rest) = Some (l, rest).
Proof.
  induction l as [|x l IH]; intros HP Hwf Hne f rest Hf; [congruence|].
  inversion HP as [|? ? Hx HPl]; subst.
  cbn [forallb] in Hwf. apply andb_prop in Hwf. destruct Hwf as [Hwx Hwl].
  destruct f as [|f]; [lia|].
  destruct l as [|y l].
  - cbn [print_elems] in *.
    rewrite (parse_elems_step f x ("]"%char :: rest)).
    + reflexivity.
    + apply Hx; [exact Hwx|lia|reflexivity].
  - rewrite print_elems_cons in *. rewrite <- app_assoc. cbn [app].
    norm_length Hf.
    rewrite (parse_elems_step f x (","%char :: print_elems (y :: l) ++ "]"%char :: rest)).
    + cbn [skip_ws]. reduce_tests.
      rewrite IH; [reflexivity|exact HPl|exact Hwl|discriminate|lia].
    + apply Hx; [exact Hwx|lia|reflexivity].
Qed.

Lemma parse_members_step f s k r1 r2 v r3 :
  parse_chars s = Some (k, r1) -> skip_ws r1 = ":"%char :: r2 ->
  parse_value f r2 = Some (v, r3) ->
  parse_members (S f) (c_quote :: s)
  = match skip_ws r3 with
    | c3 :: r4 =>
        if (c3 =? ",")%char then
          match parse_members f r4 with
          | Some (kvs, r5) => Some ((string_of_list_ascii k, v) :: kvs, r5)
          | None => None
          end
        else if (c3 =? "}")%char then Some ([(string_of_list_ascii k, v)], r4)
        else None
    | [] => None
    end.
Proof.
  intros H1 H2 H3. cbn [parse_members skip_ws]. reduce_tests.
  rewrite H1, H2. reduce_tests. rewrite H3. reflexivity.
Qed.

Lemma print_string_unfold k :
  print_string k = c_quote :: quote_chars (list_ascii_of_string k) ++ [c_quote].
Proof. reflexivity. Qed.

Lemma parse_members_print m :
  Forall (fun kv => serializable (snd kv) = true -> reparses (snd kv)) m ->
  forallb (fun kv => serializable (snd kv)) m = true -> m <> [] ->
  forall f rest, (List.length (print_members m) < f)%nat ->
    parse_members f (print_members m ++ "}"%char :: rest) = Some (m, rest).
Proof.
  induction m as [|[k x] m IH]; intros HP Hwf Hne f rest Hf; [congruence|].
  inversion HP as [|? ? Hx HPm]; subst. cbn [snd] in Hx.
  cbn [forallb snd] in Hwf. apply andb_prop in Hwf. destruct Hwf as [Hwx Hwm].
  destruct f as [|f]; [lia|].
  destruct m as [|kv m].
  - cbn [print_members] in *. rewrite print_string_unfold in *.
    norm_length Hf.
    cbn [app]. rewrite <- !app_assoc. cbn [app].
    rewrite (parse_members_step f _ (list_ascii_of_string k)
               (":"%char :: print x ++ "}"%char :: rest)
               (print x ++ "}"%char :: rest) x ("}"%char :: rest)).
    + cbn [skip_ws]. reduce_tests.
      rewrite string_of_list_ascii_of_string. reflexivity.
    + apply parse_chars_quote.
    + reflexivity.
    + apply Hx; [exact Hwx|lia|reflexivity].
  - rewrite print_members_cons in *. rewrite print_string_unfold in *.
    norm_length Hf.
    cbn [app]. rewrite <- !app_assoc. cbn [app]. rewrite <- !app_assoc. cbn [app].
    rewrite (parse_members_step f _ (list_ascii_of_string k)
               (":"%char :: print x ++ ","%char :: print_members (kv :: m) ++ "}"%char :: rest)
               (print x ++ ","%char :: print_members (kv :: m) ++ "}"%char :: rest) x
               (","%char :: print_members (kv :: m) ++ "}"%char :: rest)).
    + cbn [skip_ws]. reduce_tests.
      rewrite IH; [|exact HPm|exact Hwm|discriminate|lia].
      rewrite string_of_list_ascii_of_string. reflexivity.
    + apply parse_chars_quote.
    + reflexivity.
    + apply Hx; [exact Hwx|lia|reflexivity].
Qed.

Lemma print_elems_opens l :
  forallb serializable l = true -> l <> [] -> opens_value (print_elems l) = true.
Proof.
  destruct l as [|x l]; [congruence|]. cbn [forallb]. intros H _.
  apply andb_prop in H. destruct H as [H _].
  destruct l; [apply print_opens; exact H|].
  rewrite print_elems_cons. apply opens_value_app, print_opens, H.
Qed.

Lemma print_members_opens m : m <> [] -> opens_value (print_members m) = true.
Proof.
  destruct m as [|[k x] m]; [congruence|]. intros _. destruct m; reflexivity.
Qed.

(* Every serializable value is read back from its printed form. *)
Theorem parse_value_print v : serializable v = true -> reparses v.
Proof.
  induction v as [|b|z|s|s|l IH|m IH] using value_ind_nested;
    intros Hwf f rest Hf Hrest.
  - destruct f; [cbn in Hf; lia|reflexivity].
  - destruct f; [destruct b; cbn in Hf; lia|]. destruct b; reflexivity.
  - pose proof (print_nonempty (JNum z) Hwf).
    destruct f as [|f]; [lia|]. cbn [print] in *. cbn [serializable] in Hwf.
    apply Z.leb_le in Hwf.
    assert (Hstart : exists c r, print_Z z = c :: r /\
                       (c = "-"%char \/ is_digit c = true)).
    { unfold print_Z. destruct (z <? 0)%Z.
      - eexists _, _. split; [reflexivity|left; reflexivity].
      - destruct (digits_cons (Z.to_N z)) as (c & r & -> & Hc).
        exists c, r. split; [reflexivity|right; exact Hc]. }
    destruct Hstart as (c & r & Heq & Hc).
    rewrite (parse_value_number f _ c (r ++ rest)).
    + rewrite <- (parse_number_print z rest Hwf Hrest), Heq. reflexivity.
    + rewrite Heq. cbn [app]. apply skip_ws_opens.
      destruct Hc as [->|Hc]; [reflexivity|apply is_digit_opens; exact Hc].
    + exact Hc.
  - discriminate.
  - destruct f as [|f]; [cbn in Hf; lia|].
    cbn [print]. rewrite print_string_unfold. cbn [app]. rewrite <- app_assoc.
    cbn [app parse_value skip_ws]. reduce_tests.
    rewrite parse_chars_quote.
    rewrite string_of_list_ascii_of_string. reflexivity.
  - rewrite print_arr in *. norm_length Hf. cbn [app].
    destruct f as [|f]; [lia|]. rewrite <- app_assoc. cbn [app].
    cbn [serializable] in Hwf.
    destruct l as [|x l].
    + reflexivity.
    + rewrite parse_value_array.
      * rewrite parse_elems_print; [reflexivity|exact IH|exact Hwf|discriminate|lia].
      * apply opens_value_app, print_elems_opens; [exact Hwf|discriminate].
  - rewrite print_obj in *. norm_length Hf. cbn [app].
    destruct f as [|f]; [lia|]. rewrite <- app_assoc. cbn [app].
    cbn [serializable] in Hwf. apply andb_prop in Hwf. destruct Hwf as [Hfresh Hwf].
    destruct m as [|kv m].
    + reflexivity.
    + rewrite parse_value_object.
      * rewrite parse_members_print; [|exact IH|exact Hwf|discriminate|lia].
        rewrite obj_of_entries_fresh by exact Hfresh. reflexivity.
      * apply opens_value_app, print_members_opens. discriminate.
Qed.

(* JSON.parse(JSON.stringify(v)) is v. *)
Theorem parse_stringify v : serializable v = true -> parse (stringify v) = Some v.
Proof.
  intros Hwf. unfold parse, parse_with, stringify.
  rewrite list_ascii_of_string_of_list_ascii.
  pose proof (parse_value_print v Hwf (S (List.length (print v))) []) as H.
  rewrite app_nil_r in H. rewrite H; [reflexivity|lia|reflexivity].
Qed.

Lemma stringify_nonempty v : serializable v = true -> stringify v <> EmptyString.
Proof.
  intros Hwf Heq. unfold stringify in Heq.
  pose proof (print_nonempty v Hwf) as Hn.
  destruct (print v); [cbn in Hn; lia|discriminate].
Qed.

(** *** The fuel of [parse] is enough *)

Lemma skip_ws_length s : (List.length (skip_ws s) <= List.length s)%nat.
Proof.
  induction s as [|c s IH]; cbn [skip_ws]; [lia|].
  destruct (is_ws c); cbn [List.length]; lia.
Qed.

Lemma skip_ws_cons_length s c r :
  skip_ws s = c :: r -> (List.length r < List.length s)%nat.
Proof.
  intros H. pose proof (skip_ws_length s) as Hl. rewrite H in Hl.
  cbn [List.length] in Hl. lia.
Qed.

Lemma strip_prefix_length p : forall s r,
  strip_prefix p s = Some r -> (List.length r <= List.length s)%nat.
Proof.
  induction p as [|a p IH]; intros s r H; cbn [strip_prefix] in H.
  - inversion H; subst; lia.
  - destruct s as [|b s]; [discriminate|].
    destruct (a =? b)%char; [|discriminate].
    apply IH in H. cbn [List.length]. lia.
Qed.

Lemma keyword_length kw v s v' r :
  keyword kw v s = Some (v', r) -> (List.length r <= List.length s)%nat.
Proof.
  unfold keyword. destruct (strip_prefix _ s) as [r0|] eqn:E; [|discriminate].
  intros H. inversion H; subst. eapply strip_prefix_length; exact E.
Qed.

Lemma option_map_cons_fst {A B : Type} (a : A) (o : option (list A * B)) cs r :
  option_map (cons_fst a) o = Some (cs, r) ->
  exists cs', o = Some (cs', r).
Proof.
  destruct o as [[cs' r']|]; [|discriminate]. cbn. intros H.
  inversion H; subst. eauto.
Qed.

Lemma parse_chars_length_bounded n : forall s cs r,
  (List.length s <= n)%nat ->
  parse_chars s = Some (cs, r) -> (List.length r < List.length s)%nat.
Proof.
  induction n as [|n IH]; intros s cs r Hn H.
  - destruct s; [discriminate|cbn in Hn; lia].
  - destruct s as [|c s]; [discriminate|]. cbn [parse_chars] in H.
    cbn [List.length] in *.
    destruct (c =? c_quote)%char.
    { inversion H; subst. lia. }
    destruct (c =? c_bslash)%char.
    + destruct s as [|e s1]; [discriminate|]. cbn [List.length] in *.
      destruct (unescape e).
      * apply option_map_cons_fst in H. destruct H as (cs' & H).
        apply IH in H; lia.
      * destruct (e =? "u")%char; [|discriminate].
        destruct s1 as [|h1 [|h2 [|h3 [|h4 s2]]]]; try discriminate.
        destruct (hex4 h1 h2 h3 h4) as [m|]; [|discriminate].
        apply option_map_cons_fst in H. destruct H as (cs' & H).
        cbn [List.length] in *. apply IH in H; lia.
    + destruct (N_of_ascii c <? 32)%N; [discriminate|].
      apply option_map_cons_fst in H. destruct H as (cs' & H).
      apply IH in H; lia.
Qed.

Lemma parse_chars_length s cs r :
  parse_chars s = Some (cs, r) -> (List.length r < List.length s)%nat.
Proof. apply (parse_chars_length_bounded (List.length s)). lia. Qed.

Lemma span_digits_length s : forall ds r,
  span_digits s = (ds, r) ->
  List.length s = (List.length ds + List.length r)%nat.
Proof.
  induction s as [|c s IH]; intros ds r H; cbn [span_digits] in H.
  - inversion H; reflexivity.
  - destruct (is_digit c).
    + destruct (span_digits s) as [ds' r']. inversion H; subst.
      cbn [List.length]. rewrite (IH ds' r eq_refl). lia.
    + inversion H; subst. reflexivity.
Qed.

Lemma parse_frac_length s fr r :
  parse_frac s = Some (fr, r) -> (List.length r <= List.length s)%nat.
Proof.
  unfold parse_frac. destruct s as [|c s]; [intros H; inversion H; subst; lia|].
  destruct (c =? ".")%char.
  - destruct (span_digits s) as [ds rest] eqn:E.
    destruct (is_nil ds); [discriminate|]. intros H. inversion H; subst.
    apply span_digits_length in E. cbn [List.length]. lia.
  - intros H. inversion H; subst. lia.
Qed.

Lemma parse_exp_length s ex r :
  parse_exp s = Some (ex, r) -> (List.length r <= List.length s)%nat.
Proof.
  unfold parse_exp. destruct s as [|c s]; [intros H; inversion H; subst; lia|].
  destruct ((c =? "e") || (c =? "E"))%char.
  - destruct (match s with
              | [] => ([], s)
              | c1 :: r' => if ((c1 =? "+") || (c1 =? "-"))%char then ([c1], r') else ([], s)
              end) as [sg r1] eqn:Esg.
    assert (Hr1 : (List.length r1 <= List.length s)%nat).
    { destruct s as [|c1 s']; [inversion Esg; subst; lia|].
      destruct ((c1 =? "+") || (c1 =? "-"))%char; inversion Esg; subst;
        cbn [List.length]; lia. }
    destruct (span_digits r1) as [ds rest] eqn:E.
    destruct (is_nil ds); [discriminate|]. intros H. inversion H; subst.
    apply span_digits_length in E. cbn [List.length]. lia.
  - intros H. inversion H; subst. lia.
Qed.

Lemma number_token_length sg s v r :
  number_token sg s = Some (v, r) -> (List.length r < List.length s)%nat.
Proof.
  unfold number_token. destruct (span_digits s) as [ip r1] eqn:E.
  apply span_digits_length in E.
  destruct ip as [|d ds]; [discriminate|].
  destruct ((d =? "0")%char && negb (is_nil ds)); [discriminate|].
  destruct (parse_frac r1) as [[fr r2]|] eqn:Ef; [|discriminate].
  destruct (parse_exp r2) as [[ex r3]|] eqn:Ee; [|discriminate].
  apply parse_frac_length in Ef. apply parse_exp_length in Ee.
  cbn [List.length] in E.
  destruct (_ && _); intros H; inversion H; subst; lia.
Qed.

Lemma parse_number_length s v r :
  parse_number s = Some (v, r) -> (List.length r < List.length s)%nat.
Proof.
  unfold parse_number. destruct s as [|c s]; [discriminate|].
  destruct (c =? "-")%char; intros H; apply number_token_length in H;
    cbn [List.length] in *; lia.
Qed.

(* Whatever parses with fuel [f] parses with as much fuel as it consumed
   characters. *)
Lemma parse_settles f :
  settles parse_value f /\ settles parse_elems f /\ settles parse_members f.
Proof.
  induction f as [|f (IHv & IHe & IHm)].
  - repeat split; discriminate.
  - split; [|split]; intros s x r H.
    + cbn [parse_value] in H.
      destruct (skip_ws s) as [|c r0] eqn:Hws; [discriminate|].
      pose proof (skip_ws_cons_length s c r0 Hws) as Hr0.
      assert (Hscalar : forall res : option (value * chars),
        res = Some (x, r) ->
        (List.length r <= List.length r0)%nat ->
        (forall g, parse_value (S g) s = res) ->
        (List.length r < List.length s)%nat /\
        (forall g, (List.length s - List.length r <= g)%nat ->
                   parse_value g s = Some (x, r))).
      { intros res Hres Hle Hg. split; [lia|].
        intros g Hge. destruct g as [|g]; [lia|]. rewrite Hg. exact Hres. }
      destruct (c =? "n")%char eqn:E1.
      { apply (Hscalar _ H); [eapply keyword_length; exact H|].
        intros g. cbn [parse_value]. rewrite Hws, E1. reflexivity. }
      destruct (c =? "t")%char eqn:E2.
      { apply (Hscalar _ H); [eapply keyword_length; exact H|].
        intros g. cbn [parse_value]. rewrite Hws, E1, E2. reflexivity. }
      destruct (c =? "f")%char eqn:E3.
      { apply (Hscalar _ H); [eapply keyword_length; exact H|].
        intros g. cbn [parse_value]. rewrite Hws, E1, E2, E3. reflexivity. }
      destruct (c =? c_quote)%char eqn:E4.
      { apply (Hscalar _ H).
        - destruct (parse_chars r0) as [[cs r']|] eqn:Ec; [|discriminate].
          inversion H; subst. apply parse_chars_length in Ec. lia.
        - intros g. cbn [parse_value]. rewrite Hws, E1, E2, E3, E4. reflexivity. }
      destruct (c =? "[")%char eqn:E5.
      { destruct (skip_ws r0) as [|c2 r2] eqn:Hws2; [discriminate|].
        pose proof (skip_ws_cons_length r0 c2 r2 Hws2) as Hr2.
        destruct (c2 =? "]")%char eqn:E6.
        - apply (Hscalar _ H); [inversion H; subst; lia|].
          intros g. cbn [parse_value]. rewrite Hws, E1, E2, E3, E4, E5, Hws2, E6.
          reflexivity.
        - destruct (parse_elems f r0) as [[vs r']|] eqn:Ee; [|discriminate].
          inversion H; subst. destruct (IHe _ _ _ Ee) as [Hlt Hfuel].
          split; [lia|]. intros g Hge. destruct g as [|g]; [lia|].
          cbn [parse_value]. rewrite Hws, E1, E2, E3, E4, E5, Hws2, E6.
          rewrite Hfuel by lia. reflexivity. }
      destruct (c =? "{")%char eqn:E6.
      { destruct (skip_ws r0) as [|c2 r2] eqn:Hws2; [discriminate|].
        pose proof (skip_ws_cons_length r0 c2 r2 Hws2) as Hr2.
        destruct (c2 =? "}")%char eqn:E7.
        - apply (Hscalar _ H); [inversion H; subst; lia|].
          intros g. cbn [parse_value].
          rewrite Hws, E1, E2, E3, E4, E5, E6, Hws2, E7. reflexivity.
        - destruct (parse_members f r0) as [[kvs r']|] eqn:Em; [|discriminate].
          inversion H; subst. destruct (IHm _ _ _ Em) as [Hlt Hfuel].
          split; [lia|]. intros g Hge. destruct g as [|g]; [lia|].
          cbn [parse_value]. rewrite Hws, E1, E2, E3, E4, E5, E6, Hws2, E7.
          rewrite Hfuel by lia. reflexivity. }
      apply (Hscalar _ H).
      * apply parse_number_length in H. cbn [List.length] in H. lia.
      * intros g. cbn [parse_value]. rewrite Hws, E1, E2, E3, E4, E5, E6. reflexivity.
    + cbn [parse_elems] in H.
      destruct (parse_value f s) as [[v r1]|] eqn:Ev; [|discriminate].
      destruct (IHv _ _ _ Ev) as [Hlt1 Hfuel1].
      destruct (skip_ws r1) as [|c r2] eqn:Hws; [discriminate|].
      pose proof (skip_ws_cons_length r1 c r2 Hws) as Hr2.
      destruct (c =? ",")%char eqn:E1.
      * destruct (parse_elems f r2) as [[vs r3]|] eqn:Ee; [|discriminate].
        inversion H; subst. destruct (IHe _ _ _ Ee) as [Hlt3 Hfuel3].
        split; [lia|]. intros g Hge. destruct g as [|g]; [lia|].
        cbn [parse_elems]. rewrite Hfuel1 by lia. rewrite Hws, E1.
        rewrite Hfuel3 by lia. reflexivity.
      * destruct (c =? "]")%char eqn:E2; [|discriminate].
        inversion H; subst. split; [lia|].
        intros g Hge. destruct g as [|g]; [lia|].
        cbn [parse_elems]. rewrite Hfuel1 by lia. rewrite Hws, E1, E2. reflexivity.
    + cbn [parse_members] in H.
      destruct (skip_ws s) as [|c r0] eqn:Hws0; [discriminate|].
      pose proof (skip_ws_cons_length s c r0 Hws0) as Hr0.
      destruct (c =? c_quote)%char eqn:E0; [|discriminate].
      destruct (parse_chars r0) as [[k r1]|] eqn:Ek; [|discriminate].
      pose proof (parse_chars_length _ _ _ Ek) as Hr1.
      destruct (skip_ws r1) as [|c1 r2] eqn:Hws1; [discriminate|].
      pose proof (skip_ws_cons_length r1 c1 r2 Hws1) as Hr2.
      destruct (c1 =? ":")%char eqn:E1; [|discriminate].
      destruct (parse_value f r2) as [[v r3]|] eqn:Ev; [|discriminate].
      destruct (IHv _ _ _ Ev) as [Hlt3 Hfuel3].
      destruct (skip_ws r3) as [|c3 r4] eqn:Hws3; [discriminate|].
      pose proof (skip_ws_cons_length r3 c3 r4 Hws3) as Hr4.
      destruct (c3 =? ",")%char eqn:E3.
      * destruct (parse_members f r4) as [[kvs r5]|] eqn:Em; [|discriminate].
        inversion H; subst. destruct (IHm _ _ _ Em) as [Hlt5 Hfuel5].
        split; [lia|]. intros g Hge. destruct g as [|g]; [lia|].
        cbn [parse_members]. rewrite Hws0, E0, Ek, Hws1, E1.
        rewrite Hfuel3 by lia. rewrite Hws3, E3. rewrite Hfuel5 by lia. reflexivity.
      * destruct (c3 =? "}")%char eqn:E4; [|discriminate].
        inversion H; subst. split; [lia|].
        intros g Hge. destruct g as [|g]; [lia|].
        cbn [parse_members]. rewrite Hws0, E0, Ek, Hws1, E1.
        rewrite Hfuel3 by lia. rewrite Hws3, E3, E4. reflexivity.
Qed.

(* A text that parses with some fuel parses with the fuel [parse] gives it:
   [parse s = None] is a SyntaxError, never an exhausted budget. *)
Theorem parse_fuel_enough fuel s v :
  parse_with fuel s = Some v -> parse s = Some v.
Proof.
  unfold parse, parse_with.
  destruct (parse_value fuel (list_ascii_of_string s)) as [[v' r]|] eqn:E;
    [|discriminate].
  destruct (proj1 (parse_settles fuel) _ _ _ E) as [_ Hfuel].
  rewrite Hfuel by lia. trivial.
Qed.

End JsonFacts.

(** ** TextDecoder after TextEncoder *)
Module TextFacts.

Import Text.

Lemma decode_encode_char c r :
  decode_bytes (encode_char c ++ r) = c :: decode_bytes r.
Proof. destruct c as [[|] [|] [|] [|] [|] [|] [|] [|]]; reflexivity. Qed.

Lemma decode_encode_chars s : decode_bytes (encode_chars s) = s.
Proof.
  induction s as [|c s IH]; [reflexivity|].
  cbn [encode_chars]. rewrite decode_encode_char, IH. reflexivity.
Qed.

Lemma strip_bom_encode_chars s : strip_bom (encode_chars s) = encode_chars s.
Proof.
  destruct s as [|c s]; [reflexivity|]. cbn [encode_chars].
  destruct c as [[|] [|] [|] [|] [|] [|] [|] [|]]; reflexivity.
Qed.

Lemma decode_encode s : decode (encode s) = s.
Proof.
  unfold decode, encode.
  rewrite strip_bom_encode_chars, decode_encode_chars.
  apply string_of_list_ascii_of_string.
Qed.

Lemma encode_nonempty s : s <> EmptyString -> encode s <> [].
Proof.
  destruct s as [|c s]; [congruence|]. intros _. unfold encode.
  cbn [list_ascii_of_string encode_chars]. unfold encode_char.
  destruct (N_of_ascii c <? 128)%N; discriminate.
Qed.

End TextFacts.

(** ** Dictionaries written entry by entry *)
Module JsFacts.

Import Json.

Lemma assign_entries_plain {A B : Type} (f : A -> B) (src : list (string * A)) :
  forall dst,
    Js.assign_entries f src dst
    = fold_left (fun o kv => obj_set (fst kv) (snd kv) o)
        (map (fun kv => (fst kv, f (snd kv))) (Js.plain_named src)) dst.
Proof.
  unfold Js.assign_entries, Js.plain_named.
  induction src as [|kv src IH]; intros dst; [reflexivity|].
  cbn [fold_left filter]. destruct (Js.plain_key (fst kv)) eqn:E.
  - cbn [map fold_left fst snd].
    replace (Js.assign (fst kv) (f (snd kv)) dst)
      with (obj_set (fst kv) (f (snd kv)) dst)
      by (unfold Js.assign; rewrite E; reflexivity).
    apply IH.
  - replace (Js.assign (fst kv) (f (snd kv)) dst) with dst
      by (unfold Js.assign; rewrite E; reflexivity).
    apply IH.
Qed.

Lemma fresh_keys_filter {A : Type} (p : string * A -> bool) (m : list (string * A)) :
  fresh_keys (map fst m) = true -> fresh_keys (map fst (filter p m)) = true.
Proof.
  induction m as [|kv m IH]; [reflexivity|]. cbn [map fresh_keys filter].
  intros H. apply andb_prop in H. destruct H as [Hk Hm].
  destruct (p kv); [|exact (IH Hm)].
  cbn [map fresh_keys]. rewrite (IH Hm), andb_true_r.
  apply negb_true_iff in Hk. apply negb_true_iff.
  clear IH Hm. induction m as [|kv' m IHm]; [reflexivity|].
  cbn [map existsb] in Hk. apply orb_false_elim in Hk. destruct Hk as [H1 H2].
  cbn [filter]. destruct (p kv'); [|exact (IHm H2)].
  cbn [map existsb]. rewrite H1, (IHm H2). reflexivity.
Qed.

(* What a loop of assignments builds from entries with distinct names. *)
Lemma assign_entries_map {A B : Type} (f : A -> B) (src : list (string * A)) :
  fresh_keys (map fst src) = true ->
  Js.assign_entries f src []
  = map (fun kv => (fst kv, f (snd kv))) (Js.plain_named src).
Proof.
  intros Hfresh. rewrite assign_entries_plain.
  apply JsonFacts.obj_of_entries_fresh.
  rewrite map_map. cbn [fst]. apply fresh_keys_filter. exact Hfresh.
Qed.

Lemma plain_named_all {A : Type} (m : list (string * A)) :
  forallb (fun kv => Js.plain_key (fst kv)) m = true -> Js.plain_named m = m.
Proof.
  unfold Js.plain_named. induction m as [|kv m IH]; [reflexivity|].
  cbn [forallb filter]. intros H. apply andb_prop in H. destruct H as [Hk Hm].
  rewrite Hk, (IH Hm). reflexivity.
Qed.

Lemma plain_named_map {A B : Type} (g : A -> B) (m : list (string * A)) :
  Js.plain_named (map (fun kv => (fst kv, g (snd kv))) m)
  = map (fun kv => (fst kv, g (snd kv))) (Js.plain_named m).
Proof.
  unfold Js.plain_named. induction m as [|kv m IH]; [reflexivity|].
  cbn [map filter fst]. destruct (Js.plain_key (fst kv)); cbn [map]; rewrite IH;
    reflexivity.
Qed.

Lemma plain_named_idem {A : Type} (m : list (string * A)) :
  Js.plain_named (Js.plain_named m) = Js.plain_named m.
Proof.
  unfold Js.plain_named. induction m as [|kv m IH]; [reflexivity|].
  cbn [filter]. destruct (Js.plain_key (fst kv)) eqn:E; [|exact IH].
  cbn [filter]. rewrite E, IH. reflexivity.
Qed.

Lemma decode_encode_entry v :
  serializable v = true -> Js.survives v = true ->
  Js.decode_entry (Js.encode_entry v) = v.
Proof.
  intros Hwf Hs. unfold Js.decode_entry.
  destruct v; cbn [Js.encode_entry];
    try (rewrite JsonFacts.parse_stringify by exact Hwf; reflexivity).
  cbn [Js.survives] in Hs. destruct (parse s); [discriminate|reflexivity].
Qed.

(* Entries that all survive come back as they were. *)
Lemma reencode_entries (md : list (string * value)) :
  forallb (fun kv => serializable (snd kv)) md = true ->
  forallb (fun kv => Js.survives (snd kv)) md = true ->
  map (fun kv => (fst kv, Js.decode_entry (Js.encode_entry (snd kv)))) md = md.
Proof.
  induction md as [|[k v] md IH]; intros Hwf Hs; [reflexivity|].
  cbn [forallb snd] in Hwf, Hs.
  apply andb_prop in Hwf. apply andb_prop in Hs.
  cbn [map fst snd]. rewrite decode_encode_entry, IH by tauto. reflexivity.
Qed.

(* What a dictionary becomes on the wire and back. *)
Lemma roundtrip_entries (md : list (string * value)) :
  fresh_keys (map fst md) = true ->
  Js.assign_entries Js.decode_entry (Js.assign_entries Js.encode_entry md []) []
  = map (fun kv => (fst kv, Js.decode_entry (Js.encode_entry (snd kv))))
      (Js.plain_named md).
Proof.
  intros Hfresh. rewrite (assign_entries_map Js.encode_entry) by exact Hfresh.
  rewrite assign_entries_map.
  - rewrite plain_named_map, plain_named_idem, map_map. reflexivity.
  - rewrite map_map. cbn [fst]. apply fresh_keys_filter. exact Hfresh.
Qed.

(* A structured value carried as JSON bytes is read back. *)
Lemma structured_value_roundtrip v :
  serializable v = true ->
  match Text.encode (stringify v) with
  | [] => None
  | _ :: _ =>
      match parse (Text.decode (Text.encode (stringify v))) with
      | Some v' => Some v'
      | None => Some (JObj [])
      end
  end = Some v.
Proof.
  intros Hwf.
  pose proof (TextFacts.encode_nonempty _ (JsonFacts.stringify_nonempty v Hwf)) as Hne.
  rewrite TextFacts.decode_encode, JsonFacts.parse_stringify by exact Hwf.
  destruct (Text.encode (stringify v)); [congruence|reflexivity].
Qed.

End JsFacts.

(** ** Events *)
Module EventFacts.

Import Json EventSerializer.

(** C2.  A JSON-serializable payload comes back from the wire unchanged, and
    an absent payload comes back absent, not as an empty object. *)
Theorem payload_roundtrip :
  (forall (e : SpaceEvent) (P : value),
      payload e = Some P -> serializable P = true ->
      payload (protoToEvent (eventToProto e)) = Some P)
  /\ (forall e : SpaceEvent,
      payload e = None -> payload (protoToEvent (eventToProto e)) = None).
Proof.
  split.
  - intros e P HP Hwf. unfold protoToEvent, eventToProto.
    cbn [payload payloadJson]. rewrite HP.
    apply JsFacts.structured_value_roundtrip. exact Hwf.
  - intros e HP. unfold protoToEvent, eventToProto.
    cbn [payload payloadJson]. rewrite HP. reflexivity.
Qed.

Lemma payload_roundtrip_witness :
  let e := mkSpaceEvent "note.create" (mkComponentRef "c1" None None)
             (Some (JObj [("text", JStr "hi"); ("n", JArr [JNum 1; JNull])]))
             1700000000000 None None None in
  payload (protoToEvent (eventToProto e)) = payload e.
Proof.
  intros e.
  exact (proj1 payload_roundtrip e
           (JObj [("text", JStr "hi"); ("n", JArr [JNum 1; JNull])])
           eq_refl eq_refl).
Defined.

(** C8, as the code has it.  Each metadata value crosses the wire through the
    unquoted-string encoding, and an entry named __proto__ does not cross it:
    a map with distinct keys and JSON-serializable values comes back as its
    other entries, in order, each value parsed from its wire text, and
    absent when no entry is left.  It comes back unchanged when it holds
    neither a __proto__ entry nor a string that is itself JSON text. *)
Theorem metadata_roundtrip (e : SpaceEvent) (md : list (string * value)) :
  metadata e = Some md ->
  fresh_keys (map fst md) = true ->
  forallb (fun kv => serializable (snd kv)) md = true ->
  metadata (protoToEvent (eventToProto e))
  = FacetSerializer.nonempty_list
      (map (fun kv => (fst kv, Js.decode_entry (Js.encode_entry (snd kv))))
         (Js.plain_named md))
  /\ (md <> [] ->
      forallb (fun kv => Js.plain_key (fst kv)) md = true ->
      forallb (fun kv => Js.survives (snd kv)) md = true ->
      metadata (protoToEvent (eventToProto e)) = Some md).
Proof.
  intros Hmd Hfresh Hwf.
  assert (Hrt : metadata (protoToEvent (eventToProto e))
    = FacetSerializer.nonempty_list
        (map (fun kv => (fst kv, Js.decode_entry (Js.encode_entry (snd kv))))
           (Js.plain_named md))).
  { unfold protoToEvent, eventToProto. cbn [metadata p_metadata]. rewrite Hmd.
    rewrite JsFacts.roundtrip_entries by exact Hfresh. reflexivity. }
  split; [exact Hrt|].
  intros Hne Hplain Hs.
  rewrite Hrt, (JsFacts.plain_named_all md Hplain), (JsFacts.reencode_entries md Hwf Hs).
  destruct md; [congruence|reflexivity].
Qed.

Lemma metadata_roundtrip_witness :
  let md := [("trace", JStr "abc-1"); ("retries", JNum 3);
             ("tags", JArr [JStr "x"; JBool true])] in
  let e := mkSpaceEvent "t" (mkComponentRef "c1" None None) None 0 None None (Some md) in
  metadata (protoToEvent (eventToProto e)) = Some md.
Proof.
  intros md e.
  apply (proj2 (metadata_roundtrip e md eq_refl eq_refl eq_refl));
    [discriminate|reflexivity|reflexivity].
Defined.

(** C8 as stated fails: the string value "123" comes back as the number 123,
    and an entry named __proto__ does not come back at all. *)
Lemma metadata_string_not_preserved :
  let e := mkSpaceEvent "t" (mkComponentRef "c1" None None) None 0 None None
             (Some [("build", JStr "123")]) in
  let e' := mkSpaceEvent "t" (mkComponentRef "c1" None None) None 0 None None
              (Some [("__proto__", JStr "x"); ("a", JNum 1)]) in
  metadata (protoToEvent (eventToProto e)) = Some [("build", JNum 123)]
  /\ metadata (protoToEvent (eventToProto e)) <> metadata e
  /\ metadata (protoToEvent (eventToProto e')) = Some [("a", JNum 1)]
  /\ metadata (protoToEvent (eventToProto e')) <> metadata e'.
Proof.
  split; [reflexivity|]. split; [discriminate|]. split; [reflexivity|discriminate].
Qed.

(** C9.  "normal" is the wire default: an omitted priority is sent as 0, 0 is
    read as "normal", "immediate" is 3 and "high" is 2. *)
Theorem priority_wire_default :
  (forall e : SpaceEvent,
      priority e = None -> p_priority (eventToProto e) = 0%Z)
  /\ (forall p : ProtoSpaceEvent,
      p_priority p = 0%Z -> priority (protoToEvent p) = Some "normal")
  /\ priorityToProto (Some "immediate") = 3%Z
  /\ priorityToProto (Some "high") = 2%Z
  /\ PRIORITY_NORMAL = 0%Z.
Proof.
  repeat split.
  - intros e H. unfold eventToProto. cbn [p_priority]. rewrite H. reflexivity.
  - intros p H. unfold protoToEvent. cbn [priority]. rewrite H. reflexivity.
Qed.

Lemma priority_wire_default_witness :
  let e := mkSpaceEvent "t" (mkComponentRef "c1" None None) None 0 None None None in
  p_priority (eventToProto e) = 0%Z
  /\ priority (protoToEvent (eventToProto e)) = Some "normal".
Proof.
  intros e. split.
  - exact (proj1 priority_wire_default e eq_refl).
  - exact (proj1 (proj2 priority_wire_default) (eventToProto e) eq_refl).
Defined.

End EventFacts.

(** ** Facets *)
Module FacetFacts.

Import Json FacetSerializer.

Lemma nonempty_opt_string s :
  canonical_string s = true -> nonempty_string (opt_string s) = s.
Proof.
  destruct s as [x|]; cbn; [|reflexivity]. unfold nonempty_string.
  intros ->. reflexivity.
Qed.

Lemma nonempty_opt_list {A : Type} (l : option (list A)) :
  canonical_list l = true -> nonempty_list (opt_list l) = l.
Proof. destruct l as [[|x l]|]; cbn; congruence. Qed.

Lemma truthy_str_ne s : s <> EmptyString -> Js.truthy_str s = true.
Proof. destruct s; [congruence|reflexivity]. Qed.

Lemma str_or_truthy s d : Js.truthy_str s = true -> Js.str_or s d = s.
Proof. destruct s; [discriminate|reflexivity]. Qed.

Lemma str_or_empty s : Js.str_or s EmptyString = s.
Proof. destruct s; reflexivity. Qed.

(* A canonical dictionary comes back from its wire form. *)
Lemma props_roundtrip (m : option (list (string * value))) :
  canonical_props m = true ->
  forall wire,
    wire = match m with
           | Some attrs => Js.assign_entries Js.encode_entry attrs []
           | None => []
           end ->
    match wire with
    | [] => None
    | _ :: _ => Some (Js.assign_entries Js.decode_entry wire [])
    end = m.
Proof.
  intros H wire ->.
  destruct m as [[|kv props]|]; [discriminate| |reflexivity].
  cbn [canonical_props] in H.
  apply andb_prop in H. destruct H as [H Hs].
  apply andb_prop in H. destruct H as [H Hwf].
  apply andb_prop in H. destruct H as [Hfresh Hplain].
  pose proof (JsFacts.roundtrip_entries (kv :: props) Hfresh) as Hrt.
  pose proof (JsFacts.assign_entries_map Js.encode_entry (kv :: props) Hfresh) as Hw.
  rewrite (JsFacts.plain_named_all _ Hplain) in Hrt, Hw.
  destruct (Js.assign_entries Js.encode_entry (kv :: props) []) as [|w wire];
    [discriminate|].
  rewrite Hrt, (JsFacts.reencode_entries _ Hwf Hs). reflexivity.
Qed.





Lemma attachment_roundtrip (a : Attachment) :
  canonical_attachment a = true ->
  exists p, attachmentToProto a = Some p /\ protoToAttachment p = a.
Proof.
  destruct a as [aid ct data url size fname mime md].
  unfold canonical_attachment.
  cbn [a_contentType a_mimeType a_filename a_metadata a_data a_url a_sizeBytes].
  intros H.
  apply andb_prop in H. destruct H as [H Hshape].
  apply andb_prop in H. destruct H as [H Hmd].
  apply andb_prop in H. destruct H as [H Hfname].
  apply andb_prop in H. destruct H as [Hct Hmime].
  destruct mime; [discriminate|]. destruct fname as [fname|]; [|discriminate].
  pose proof (props_roundtrip md Hmd) as Hmeta.
  unfold attachmentToProto.
  cbn [a_id a_contentType a_mimeType a_filename a_metadata a_data a_url a_sizeBytes].
  destruct data as [[[|b0 b]|s]|]; try discriminate.
  - destruct url; [discriminate|]. destruct size as [n|]; [|discriminate].
    apply Z.eqb_eq in Hshape. subst n.
    eexists. split; [reflexivity|].
    unfold protoToAttachment.
    cbn [pa_id pa_contentType pa_inlineData pa_url pa_sizeBytes pa_filename
         pa_metadata option_map].
    rewrite str_or_empty, (str_or_truthy ct) by exact Hct.
    cbn [Js.opt_str_or]. rewrite str_or_empty.
    rewrite (Hmeta _ eq_refl). reflexivity.
  - destruct url as [u|]; destruct size as [n|]; try discriminate.
    + rewrite Hshape. eexists. split; [reflexivity|].
      unfold protoToAttachment.
      cbn [pa_id pa_contentType pa_inlineData pa_url pa_sizeBytes pa_filename
           pa_metadata option_map].
      rewrite Hshape.
      rewrite str_or_empty, (str_or_truthy ct) by exact Hct.
      cbn [Js.opt_str_or]. rewrite str_or_empty.
      rewrite (Hmeta _ eq_refl).
      assert (Hn : Js.num_or (Some n) 0 = n).
      { cbn. destruct (Z.eqb_spec n 0); congruence. }
      rewrite Hn. reflexivity.
    + apply Z.eqb_eq in Hshape. subst n.
      eexists. split; [reflexivity|].
      unfold protoToAttachment.
      cbn [pa_id pa_contentType pa_inlineData pa_url pa_sizeBytes pa_filename
           pa_metadata option_map].
      rewrite str_or_empty, (str_or_truthy ct) by exact Hct.
      cbn [Js.opt_str_or]. rewrite str_or_empty.
      rewrite (Hmeta _ eq_refl). reflexivity.
Qed.

Lemma map_throwing_roundtrip {A B : Type} (enc : A -> option B) (dec : B -> A)
  (ok : A -> bool) (l : list A) :
  Forall (fun x => ok x = true -> exists y, enc x = Some y /\ dec y = x) l ->
  forallb ok l = true ->
  exists ys, map_throwing enc l = Some ys /\ map dec ys = l.
Proof.
  induction 1 as [|x l Hx _ IH]; intros Hok.
  - exists []. split; reflexivity.
  - cbn [forallb] in Hok. apply andb_prop in Hok. destruct Hok as [Hox Hol].
    destruct (Hx Hox) as (y & Hy & Hdy). destruct (IH Hol) as (ys & Hys & Hdys).
    exists (y :: ys). cbn [map_throwing]. fold (map_throwing enc).
    rewrite Hy, Hys. cbn [map]. rewrite Hdy, Hdys. split; reflexivity.
Qed.

Lemma attachments_roundtrip (atts : option (list Attachment)) :
  match atts with
  | None => true
  | Some [] => false
  | Some l => forallb canonical_attachment l
  end = true ->
  exists ps,
    map_throwing attachmentToProto (opt_list atts) = Some ps
    /\ nonempty_list (map protoToAttachment ps) = atts.
Proof.
  destruct atts as [[|a l]|]; [discriminate| |intros _; exists []; split; reflexivity].
  intros Hok.
  destruct (map_throwing_roundtrip attachmentToProto protoToAttachment
              canonical_attachment (a :: l)) as (ps & Hps & Hdec).
  - apply Forall_forall. intros x _. apply attachment_roundtrip.
  - exact Hok.
  - exists ps. split; [exact Hps|]. cbn [opt_list]. rewrite Hdec. reflexivity.
Qed.

Lemma state_roundtrip (state : option value) :
  match state with Some st => serializable st | None => true end = true ->
  forall wire,
    wire = match state with
           | Some st => Text.encode (stringify st)
           | None => []
           end ->
    match wire with
    | [] => None
    | _ :: _ =>
        match parse (Text.decode wire) with
        | Some v => Some v
        | None => Some (JObj [])
        end
    end = state.
Proof.
  intros Hwf wire ->. destruct state as [st|]; [|reflexivity].
  apply JsFacts.structured_value_roundtrip. exact Hwf.
Qed.

(* A canonical facet is encoded, and decoding gives it back. *)
Lemma canonical_roundtrip (f : Facet) :
  canonical f = true ->
  exists p, facetToProto f = Some p /\ protoToFacet p = f.
Proof.
  induction f as [fid ftype content state tags agentId agentName streamId
                    streamType scopes ephemeral children attributes attachments IH]
    using Facet_ind_nested.
  cbn [canonical]. intros H.
  repeat match type of H with
         | (_ && _)%bool = true =>
             let H' := fresh "Hc" in
             apply andb_prop in H; destruct H as [H H']
         end.
  assert (Hkids : exists ps,
    match children with
    | Some cs => map_throwing facetToProto cs
    | None => Some []
    end = Some ps /\ nonempty_list (map protoToFacet ps) = children).
  { destruct children as [[|c cs]|]; [discriminate| |exists []; split; reflexivity].
    destruct (map_throwing_roundtrip facetToProto protoToFacet canonical (c :: cs) IH)
      as (ps & Hps & Hdec); [assumption|].
    exists ps. split; [exact Hps|]. rewrite Hdec. reflexivity. }
  destruct Hkids as (ps & Hps & Hkids).
  destruct (attachments_roundtrip attachments) as (pas & Hpas & Hatts); [assumption|].
  cbn [facetToProto]. rewrite Hps, Hpas.
  eexists. split; [reflexivity|].
  cbn [protoToFacet].
  rewrite Hkids, Hatts.
  rewrite !nonempty_opt_string, !nonempty_opt_list by assumption.
  rewrite (state_roundtrip state) by (assumption || reflexivity).
  rewrite (props_roundtrip attributes) by (assumption || reflexivity).
  f_equal. destruct ephemeral as [[|]|]; [reflexivity|discriminate|reflexivity].
Qed.







(* An attribute named __proto__ does not come back: the assignment in
   protoToFacet sets the prototype of the fresh object instead of a property. *)
Lemma facet_proto_entry_dropped :
  let f := mkFacet "n1" "note" None None None None None None None None None None
             (Some [("__proto__", JStr "x"); ("a", JNum 1)]) None in
  option_map attributes (roundtrip f) = Some (Some [("a", JNum 1)]).
Proof. reflexivity. Qed.

End FacetFacts.

(** ** Attachment transfer *)
Module AttachmentFacts.

Import FacetSerializer AttachmentHandler.

Lemma obj_get_set_same {A : Type} k (v : A) o :
  obj_get k (Json.obj_set k v o) = Some v.
Proof.
  induction o as [|[k' v'] o IH]; cbn.
  - rewrite String.eqb_refl. reflexivity.
  - destruct (String.eqb k' k) eqn:E; cbn; rewrite E; [reflexivity|exact IH].
Qed.

Lemma obj_get_set_other {A : Type} k k' (v : A) o :
  String.eqb k' k = false ->
  obj_get k (Json.obj_set k' v o) = obj_get k o.
Proof.
  intros Hne. induction o as [|[k1 v1] o IH]; cbn.
  - rewrite Hne. reflexivity.
  - destruct (String.eqb k1 k') eqn:E; cbn.
    + apply String.eqb_eq in E. subst k1. rewrite Hne. reflexivity.
    + rewrite IH. reflexivity.
Qed.

(** C7.  A payload of exactly 1 MiB is inlined; one byte more is left out of
    the message and flagged with requiresUpload and its exact size. *)
Theorem createAttachment_threshold (fresh_id contentType : string)
  (filename : option string) (metadata : option (list (string * string)))
  (data : list Byte.byte) :
  let att := createAttachment fresh_id data contentType filename metadata in
  MAX_INLINE_SIZE = 1048576%Z
  /\ (Z.of_nat (List.length data) = MAX_INLINE_SIZE ->
      pa_inlineData att = Some data
      /\ pa_metadata att = match metadata with Some m => m | None => [] end)
  /\ (Z.of_nat (List.length data) = (MAX_INLINE_SIZE + 1)%Z ->
      pa_inlineData att = None
      /\ pa_url att = None
      /\ obj_get "requiresUpload" (pa_metadata att) = Some "true"
      /\ obj_get "originalSize" (pa_metadata att) = Some "1048577"
      /\ pa_sizeBytes att = 1048577%Z).
Proof.
  intros att. split; [reflexivity|]. subst att. unfold createAttachment. split.
  - intros Hlen. rewrite Hlen. split; reflexivity.
  - intros Hlen. rewrite Hlen.
    change (shouldInlineAttachment (MAX_INLINE_SIZE + 1)) with false.
    cbn [pa_inlineData pa_url pa_metadata pa_sizeBytes].
    repeat split.
    + rewrite obj_get_set_other by reflexivity. apply obj_get_set_same.
    + rewrite obj_get_set_same. reflexivity.
Qed.

Lemma createAttachment_threshold_witness :
  let exact := repeat Byte.x00 (Z.to_nat 1048576) in
  let over := repeat Byte.x00 (Z.to_nat 1048577) in
  pa_inlineData (createAttachment "att-1" exact "image/png" None None) = Some exact
  /\ obj_get "originalSize"
       (pa_metadata (createAttachment "att-2" over "image/png" None None))
     = Some "1048577".
Proof.
  intros exact over.
  assert (Hexact : Z.of_nat (List.length exact) = MAX_INLINE_SIZE).
  { unfold exact. rewrite repeat_length, Z2Nat.id by lia. reflexivity. }
  assert (Hover : Z.of_nat (List.length over) = (MAX_INLINE_SIZE + 1)%Z).
  { unfold over. rewrite repeat_length, Z2Nat.id by lia. reflexivity. }
  destruct (createAttachment_threshold "att-1" "image/png" None None exact)
    as (_ & Hin & _).
  destruct (createAttachment_threshold "att-2" "image/png" None None over)
    as (_ & _ & Hout).
  destruct (Hin Hexact) as (H1 & _).
  destruct (Hout Hover) as (_ & _ & _ & H2 & _).
  split; [exact H1|exact H2].
Defined.

Lemma total_length_from (chunks : list (list Byte.byte)) : forall n,
  fold_left (fun sum chunk => (sum + List.length chunk)%nat) chunks n
  = (n + List.length (List.concat chunks))%nat.
Proof.
  induction chunks as [|c chunks IH]; intros n; cbn [fold_left List.concat].
  - cbn. lia.
  - rewrite IH, length_app. lia.
Qed.

Lemma total_length_concat (chunks : list (list Byte.byte)) : total_length chunks = List.length (List.concat chunks).
Proof. unfold total_length. rewrite total_length_from. reflexivity. Qed.

Lemma Uint8Array_set_fits (done todo chunk : list Byte.byte) :
  (List.length chunk <= List.length todo)%nat ->
  Uint8Array_set (done ++ todo) chunk (List.length done)
  = Some ((done ++ chunk) ++ skipn (List.length chunk) todo).
Proof.
  intros Hfit. unfold Uint8Array_set. rewrite length_app.
  destruct (Nat.leb_spec (List.length done + List.length chunk)
              (List.length done + List.length todo)) as [_|Hgt]; [|lia].
  f_equal. rewrite firstn_app, firstn_all, Nat.sub_diag, firstn_O, app_nil_r.
  rewrite skipn_app, skipn_all2 by lia. cbn [app].
  replace (List.length done + List.length chunk - List.length done)%nat
    with (List.length chunk) by lia.
  rewrite <- app_assoc. reflexivity.
Qed.

(* Every chunk lands behind the bytes already written. *)
Lemma copy_chunks_concat (chunks : list (list Byte.byte)) : forall done todo,
  List.length todo = List.length (List.concat chunks) ->
  copy_chunks chunks (done ++ todo) (List.length done) = Some (done ++ List.concat chunks).
Proof.
  induction chunks as [|c chunks IH]; intros done todo Hlen; cbn [copy_chunks List.concat] in *.
  - destruct todo; [reflexivity|discriminate].
  - rewrite length_app in Hlen.
    rewrite Uint8Array_set_fits by lia.
    rewrite <- (length_app done c), IH.
    + rewrite <- app_assoc. reflexivity.
    + rewrite length_skipn. lia.
Qed.

(** C5, as the code has it.  Reassembly takes the chunks alone, joins them in
    the order received and always returns that result. *)
Theorem assembleChunks_concat (chunks : list (list Byte.byte)) :
  assembleChunks chunks = Some (List.concat chunks).
Proof.
  unfold assembleChunks.
  apply (copy_chunks_concat chunks [] (repeat Byte.x00 (total_length chunks))).
  rewrite repeat_length. apply total_length_concat.
Qed.

(** C5 as stated fails: three bytes are returned to a receiver that was told
    to expect five. *)
Lemma assembleChunks_no_size_check :
  let chunks := [[Byte.x01; Byte.x02]; [Byte.x03]] in
  let expected := 5%nat in
  total_length chunks <> expected
  /\ assembleChunks chunks = Some [Byte.x01; Byte.x02; Byte.x03].
Proof. split; [discriminate|reflexivity]. Qed.

(* The receiver's check accepts what the sender computed. *)
Lemma verifyChecksum_calculateChecksum (data : list Byte.byte) :
  verifyChecksum data (calculateChecksum data) = true.
Proof. unfold verifyChecksum. apply String.eqb_refl. Qed.

(** C6 at the one-byte payload 0x62.  The product in calculateChecksum is
    rounded to a double before it is masked, so the result is e70c2de4 where
    the checksum of the specification is e70c2de5. *)
Theorem calculateChecksum_rounds :
  calculateChecksum [Byte.x62] = "e70c2de4"
  /\ to_hex8 (spec_checksum [Byte.x62]) = "e70c2de5"
  /\ Number_mul (Number_xor 2166136261 98) 16777619
     <> (Number_xor 2166136261 98 * 16777619)%Z.
Proof.
  split; [vm_compute; reflexivity|].
  split; [vm_compute; reflexivity|].
  intros H. vm_compute in H. discriminate H.
Qed.

End AttachmentFacts.

(** ** Client session *)
Module ClientFacts.

Import Client.

Lemma run_app s es1 es2 :
  run s (es1 ++ es2)
  = let (s1, a1) := run s es1 in
    let (s2, a2) := run s1 es2 in (s2, a1 ++ a2).
Proof.
  revert s. induction es1 as [|e es1 IH]; intros s; cbn [run app].
  - destruct (run s es2); reflexivity.
  - destruct (step s e) as [s1 a1]. rewrite IH.
    destruct (run s1 es1) as [s2 a2]. destruct (run s2 es2) as [s3 a3].
    rewrite app_assoc. reflexivity.
Qed.

Lemma count_app p a b : count p (a ++ b) = (count p a + count p b)%nat.
Proof. unfold count. rewrite filter_app, length_app. reflexivity. Qed.

(** C3.  disconnect() cancels the stream, closes the transport, clears
    [connected] and emits 'disconnected' once, but it leaves the
    [reconnecting] flag, the attempt counter and a suspended reconnect loop
    as they were.  The loop's test of the flag therefore still passes: a loop
    that is asleep when disconnect() is called and has budget left makes its
    next connect attempt, and when that attempt succeeds the disconnected
    client is connected again. *)
Theorem disconnect_leaves_reconnecting (s : State) :
  let s' := fst (disconnect s) in
  let acts := snd (disconnect s) in
  subscriptionStream s' = false /\ client s' = false /\ connected s' = false
  /\ reconnecting s' = reconnecting s /\ loop s' = loop s
  /\ reconnectAttempts s' = reconnectAttempts s
  /\ count (is_emit "disconnected") acts = 1%nat
  /\ (subscriptionStream s = true -> In StreamCancel acts)
  /\ (client s = true -> In ClientClose acts)
  /\ (loop s = AwaitSleep -> reconnecting s = true ->
      (maxReconnectAttempts (config s) < 0
       \/ reconnectAttempts s < maxReconnectAttempts (config s))%Z ->
      exists s'',
        run s' [TimerFired; ProtoLoaded; ReadyResult true]
        = (s'', [LoadProto; WaitForReady; Emit "connected"; Emit "reconnected"])
        /\ connected s'' = true /\ client s'' = true).
Proof.
  cbn zeta. unfold disconnect. cbn [fst snd].
  repeat split.
  - destruct (subscriptionStream s), (client s); reflexivity.
  - intros ->. left; reflexivity.
  - intros ->. destruct (subscriptionStream s); cbn; auto.
  - intros Hl Hr Hb. cbn [run].
    unfold step at 1.
    cbn [loop set_connected set_client set_subscriptionStream].
    rewrite Hl. unfold attemptReconnect.
    cbn [reconnecting config reconnectAttempts set_connected set_client
         set_subscriptionStream].
    rewrite Hr.
    assert (E : ((maxReconnectAttempts (config s) >=? 0)
                 && (reconnectAttempts s >=? maxReconnectAttempts (config s)))%Z
                = false).
    { apply andb_false_iff. rewrite !Z.geb_leb.
      destruct Hb; [left|right]; apply Z.leb_gt; lia. }
    rewrite E.
    unfold step at 1. cbn [loop set_loop].
    unfold step at 1. cbn [loop set_loop set_client].
    eexists. split; [reflexivity|]. split; reflexivity.
Qed.

Lemma disconnect_leaves_reconnecting_witness :
  let cfg := mkClientConfig "localhost" None "axon-1" (Some 100%Z) (Some 5%Z) in
  let asleep :=
    fst (run (subscribed cfg true) [StreamError 14; ProtoLoaded; ReadyResult false]) in
  exists s'',
    run (fst (disconnect asleep)) [TimerFired; ProtoLoaded; ReadyResult true]
    = (s'', [LoadProto; WaitForReady; Emit "connected"; Emit "reconnected"])
    /\ connected s'' = true /\ client s'' = true.
Proof.
  intros cfg asleep.
  destruct (disconnect_leaves_reconnecting asleep)
    as (_ & _ & _ & _ & _ & _ & _ & _ & _ & H).
  apply H; [reflexivity|reflexivity|right; vm_compute; reflexivity].
Defined.

(* After disconnect() the flag is still set, and the loop that was asleep
   makes its next connect attempt. *)
Lemma disconnect_does_not_stop_reconnect :
  let cfg := mkClientConfig "localhost" None "axon-1" (Some 100%Z) (Some 5%Z) in
  let asleep :=
    fst (run (subscribed cfg true) [StreamError 14; ProtoLoaded; ReadyResult false]) in
  reconnecting asleep = true
  /\ reconnecting (fst (disconnect asleep)) = true
  /\ snd (run asleep [CallDisconnect; TimerFired])
     = [StreamCancel; ClientClose; Emit "disconnected"; LoadProto].
Proof. repeat split. Qed.

Lemma handleDisconnect_no_error s :
  count (is_emit "error") (snd (handleDisconnect s)) = 0%nat.
Proof.
  unfold handleDisconnect, attemptReconnect.
  destruct (reconnecting s); [reflexivity|].
  cbn [reconnecting set_reconnecting set_connected config reconnectAttempts].
  destruct (_ && _)%bool; reflexivity.
Qed.

(** C10, as the code has it.  A cancelled stream changes nothing and emits
    nothing.  Any other stream error emits 'error' exactly once, first; with
    an 'error' listener handleDisconnect() then runs; with none, emitting
    'error' throws, the handler ends there and nothing else happens. *)
Theorem stream_error_notification (code : Z) (s : State) :
  (code = CANCELLED -> onStreamError code s = (s, []))
  /\ (code <> CANCELLED ->
      exists acts,
        snd (onStreamError code s) = Emit "error" :: acts
        /\ count (is_emit "error") (snd (onStreamError code s)) = 1%nat
        /\ (errorListener s = true ->
            (fst (onStreamError code s), acts) = handleDisconnect s)
        /\ (errorListener s = false -> onStreamError code s = (s, [Emit "error"]))).
Proof.
  unfold onStreamError. split.
  - intros ->. reflexivity.
  - intros Hne. destruct (Z.eqb_spec code CANCELLED) as [E|_]; [contradiction|].
    destruct (errorListener s).
    + pose proof (handleDisconnect_no_error s) as Hc.
      destruct (handleDisconnect s) as [s1 acts]. exists acts. cbn [fst snd] in *.
      split; [reflexivity|]. split; [|split; [reflexivity|discriminate]].
      unfold count in *. cbn. rewrite Hc. reflexivity.
    + exists []. split; [reflexivity|]. split; [reflexivity|].
      split; [discriminate|reflexivity].
Qed.

Lemma stream_error_notification_witness :
  let cfg := mkClientConfig "localhost" None "axon-1" None (Some 3%Z) in
  onStreamError 1 (subscribed cfg true) = (subscribed cfg true, [])
  /\ snd (onStreamError 14 (subscribed cfg true))
     = [Emit "error"; Emit "disconnected"; LoadProto].
Proof.
  intros cfg. split.
  - exact (proj1 (stream_error_notification 1 (subscribed cfg true)) eq_refl).
  - destruct (proj2 (stream_error_notification 14 (subscribed cfg true))
                ltac:(discriminate)) as (acts & H1 & _ & H3 & _).
    rewrite H1. f_equal.
    specialize (H3 eq_refl). apply (f_equal snd) in H3. exact H3.
Defined.

(** C10 as stated fails: on a client without an 'error' listener a stream
    error other than a cancellation does not engage the reconnect path.  The
    client stays marked connected, 'disconnected' is not emitted and no
    connect attempt is made, whatever happens next. *)
Lemma stream_error_without_listener :
  let cfg := mkClientConfig "localhost" None "axon-1" None (Some 3%Z) in
  let s := subscribed cfg false in
  step s (StreamError 14) = (s, [Emit "error"])
  /\ connected (fst (step s (StreamError 14))) = true
  /\ reconnecting (fst (step s (StreamError 14))) = false
  /\ snd (run s [StreamError 14; ProtoLoaded; ReadyResult true; TimerFired])
     = [Emit "error"]
  /\ snd (handleDisconnect s) = [Emit "disconnected"; LoadProto].
Proof. repeat split. Qed.

Lemma unbounded_round s :
  retrying s ->
  exists s', run s failing_round
             = (s', [WaitForReady; SetTimeout (reconnectInterval (config s)); LoadProto])
             /\ retrying s' /\ config s' = config s.
Proof.
  intros (Hl & Hr & Hm). unfold failing_round. cbn [run].
  unfold step at 1. rewrite Hl.
  unfold step at 1. cbn [loop set_loop set_client].
  unfold step at 1. cbn [loop set_loop set_client].
  unfold attemptReconnect.
  cbn [reconnecting config set_loop set_client reconnectAttempts].
  rewrite Hr, Hm. cbn [Z.geb Z.compare andb app].
  eexists. split; [reflexivity|].
  unfold retrying. cbn. rewrite Hm. auto.
Qed.

Lemma unbounded_rounds k : forall s,
  retrying s ->
  exists s' acts, run s (failing_rounds k) = (s', acts)
    /\ count is_connect acts = k
    /\ count (is_emit "reconnect_failed") acts = 0%nat
    /\ retrying s'.
Proof.
  induction k as [|k IH]; intros s Hs.
  - exists s, []. cbn. auto.
  - cbn [failing_rounds]. rewrite run_app.
    destruct (unbounded_round s Hs) as (s1 & -> & Hs1 & _).
    destruct (IH s1 Hs1) as (s2 & acts & -> & Hc & Hf & Hs2).
    eexists _, _. split; [reflexivity|].
    rewrite !count_app, Hc, Hf.
    split; [reflexivity|]. split; [reflexivity|exact Hs2].
Qed.

(** C4 at N = 0.  The constructor turns a budget of 0 into "no bound": after
    any number of failed rounds the client has started one more connect
    attempt and has not emitted 'reconnect_failed'. *)
Theorem zero_budget_is_unbounded (k : nat) :
  let cfg := mkClientConfig "localhost" None "axon-1" (Some 100%Z) (Some 0%Z) in
  let acts := snd (run (subscribed cfg true) (StreamError 14 :: failing_rounds k)) in
  maxReconnectAttempts (constructor_config cfg) = (-1)%Z
  /\ count is_connect acts = S k
  /\ count (is_emit "reconnect_failed") acts = 0%nat.
Proof.
  cbn zeta. split; [reflexivity|].
  set (cfg := mkClientConfig "localhost" None "axon-1" (Some 100%Z) (Some 0%Z)).
  cbn [run]. destruct (step (subscribed cfg true) (StreamError 14)) as [s1 a1] eqn:E.
  vm_compute in E. inversion E; subst s1 a1; clear E.
  match goal with
  | |- context [run ?s _] =>
      destruct (unbounded_rounds k s) as (s' & acts & -> & Hc & Hf & _)
  end.
  - repeat split.
  - cbn [snd]. rewrite !count_app, Hc, Hf. split; reflexivity.
Qed.

Lemma bounded_rounds r : forall n s,
  bounded n r s ->
  exists s',
    run s (failing_rounds (S r))
    = (s', [WaitForReady; SetTimeout (reconnectInterval (config s))]
           ++ failed_attempts (reconnectInterval (config s)) r
           ++ [Emit "reconnect_failed"])
    /\ loop s' = NotRunning /\ reconnecting s' = false.
Proof.
  induction r as [|r IH]; intros n s (Hl & Hr & Hm & Hz & Ha).
  - cbn [failing_rounds failing_round app run].
    unfold step at 1. rewrite Hl.
    unfold step at 1. cbn [loop set_loop set_client].
    unfold step at 1. cbn [loop set_loop set_client].
    unfold attemptReconnect.
    cbn [reconnecting config set_loop set_client reconnectAttempts].
    rewrite Hr, Hm.
    assert (Hge : ((n >=? 0) && (reconnectAttempts s >=? n))%Z = true).
    { apply andb_true_intro. split; apply Z.geb_le; lia. }
    rewrite Hge. eexists. split; [reflexivity|]. split; reflexivity.
  - change (failing_rounds (S (S r))) with (failing_round ++ failing_rounds (S r)).
    rewrite run_app.
    cbn [failing_round run].
    unfold step at 1. rewrite Hl.
    unfold step at 1. cbn [loop set_loop set_client].
    unfold step at 1. cbn [loop set_loop set_client].
    unfold attemptReconnect.
    cbn [reconnecting config set_loop set_client reconnectAttempts].
    rewrite Hr, Hm.
    assert (Hlt : ((n >=? 0) && (reconnectAttempts s >=? n))%Z = false).
    { apply andb_false_intro2. rewrite Z.geb_leb; apply Z.leb_gt; lia. }
    rewrite Hlt.
    match goal with
    | |- context [run ?s1 (failing_rounds (S r))] =>
        destruct (IH n s1) as (s' & Hrun & Hdone)
    end.
    { unfold bounded. cbn. repeat split; try assumption; lia. }
    rewrite Hrun. cbn [config set_loop set_client set_reconnectAttempts].
    eexists. split; [reflexivity|exact Hdone].
Qed.

Lemma stream_error_starts_loop (s : State) (r : nat) :
  errorListener s = true -> reconnecting s = false -> reconnectAttempts s = 0%Z ->
  maxReconnectAttempts (config s) = Z.of_nat (S r) ->
  exists s1,
    step s (StreamError 14) = (s1, [Emit "error"; Emit "disconnected"; LoadProto])
    /\ bounded (Z.of_nat (S r)) r s1 /\ config s1 = config s.
Proof.
  intros Hl Hr Ha Hm. unfold step, onStreamError.
  change (14 =? CANCELLED)%Z with false. cbn match. rewrite Hl.
  unfold handleDisconnect. rewrite Hr. unfold attemptReconnect.
  cbn [reconnecting set_reconnecting set_connected config reconnectAttempts].
  rewrite Hm, Ha.
  assert (Hlt : ((Z.of_nat (S r) >=? 0) && (0 >=? Z.of_nat (S r)))%Z = false).
  { apply andb_false_intro2. rewrite Z.geb_leb; apply Z.leb_gt; lia. }
  rewrite Hlt. eexists. split; [reflexivity|]. split; [|reflexivity].
  unfold bounded.
  cbn [loop reconnecting reconnectAttempts config set_loop set_reconnectAttempts
       set_reconnecting set_connected].
  rewrite Hm. repeat split; lia.
Qed.

(* For a budget N >= 1 the loop makes exactly N connect attempts, each
   followed by the configured delay, then emits 'reconnect_failed' once and
   stops. *)
Lemma positive_budget_is_honoured (n : nat) (interval : Z) :
  interval <> 0%Z ->
  let cfg := mkClientConfig "localhost" None "axon-1" (Some interval)
               (Some (Z.of_nat (S n))) in
  exists s',
    run (subscribed cfg true) (StreamError 14 :: failing_rounds (S n))
    = (s', [Emit "error"; Emit "disconnected"]
           ++ failed_attempts interval (S n) ++ [Emit "reconnect_failed"])
    /\ loop s' = NotRunning /\ reconnecting s' = false.
Proof.
  intros Hi cfg.
  assert (Hint : reconnectInterval (config (subscribed cfg true)) = interval).
  { cbn. destruct (Z.eqb_spec interval 0); [contradiction|reflexivity]. }
  assert (Hmax : maxReconnectAttempts (config (subscribed cfg true)) = Z.of_nat (S n)).
  { cbn -[Z.of_nat]. destruct (Z.eqb_spec (Z.of_nat (S n)) 0); [lia|reflexivity]. }
  destruct (stream_error_starts_loop (subscribed cfg true) n eq_refl eq_refl eq_refl Hmax)
    as (s1 & Hstep & Hb & Hcfg).
  destruct (bounded_rounds n _ s1 Hb) as (s' & Hrun & Hdone).
  exists s'. split; [|exact Hdone].
  cbn [run]. rewrite Hstep, Hrun, Hcfg, Hint. reflexivity.
Qed.

End ClientFacts.

(** * Further properties *)

(** ** Chunking *)
Module ChunkFacts.

Import FacetSerializer AttachmentHandler AttachmentTransfer.

Lemma slice_chunk (data : list Byte.byte) (size offset : Z) :
  (0 <= offset < Z.of_nat (List.length data))%Z -> (1 <= size)%Z ->
  Uint8Array_slice data offset (Z.min (offset + size) (Z.of_nat (List.length data)))
  = firstn (Z.to_nat (Z.min size (Z.of_nat (List.length data) - offset)))
      (skipn (Z.to_nat offset) data).
Proof.
  intros Ho Hs. unfold Uint8Array_slice, relative_index.
  destruct (Z.ltb_spec offset 0); [lia|].
  destruct (Z.ltb_spec (Z.min (offset + size) (Z.of_nat (List.length data))) 0); [lia|].
  f_equal; [f_equal|f_equal]; lia.
Qed.

Lemma chunk_next_inside (data : list Byte.byte) (size offset : Z) :
  (0 <= offset < Z.of_nat (List.length data))%Z -> (1 <= size)%Z ->
  chunk_next data size offset
  = Some (firstn (Z.to_nat (Z.min size (Z.of_nat (List.length data) - offset)))
            (skipn (Z.to_nat offset) data),
          (offset + size)%Z).
Proof.
  intros Ho Hs. unfold chunk_next.
  destruct (Z.ltb_spec offset (Z.of_nat (List.length data))); [|lia].
  rewrite slice_chunk by assumption. reflexivity.
Qed.

Lemma chunk_next_outside (data : list Byte.byte) (size offset : Z) :
  (Z.of_nat (List.length data) <= offset)%Z -> chunk_next data size offset = None.
Proof.
  intros Ho. unfold chunk_next.
  destruct (Z.ltb_spec offset (Z.of_nat (List.length data))); [lia|reflexivity].
Qed.

(* From any offset the generator yields the rest of the data, cut every
   [size] bytes. *)
Lemma chunks_from_spec (data : list Byte.byte) (size : Z) (fuel : nat) :
  (1 <= size)%Z ->
  forall offset,
    (0 <= offset)%Z ->
    (Z.of_nat (List.length data) - offset <= Z.of_nat fuel)%Z ->
    exists chunks,
      chunks_from fuel data size offset = Some chunks
      /\ List.concat chunks = skipn (Z.to_nat offset) data
      /\ full_but_last (Z.to_nat size) chunks
      /\ (Z.of_nat (List.length chunks)
          = Z.max 0 ((Z.of_nat (List.length data) - offset + size - 1) / size))%Z.
Proof.
  intros Hs. induction fuel as [|fuel IH]; intros offset Ho Hfuel.
  - exists []. cbn [chunks_from]. rewrite chunk_next_outside by lia.
    repeat split.
    + cbn. rewrite skipn_all2; [reflexivity|lia].
    + cbn [List.length]. 
      assert ((Z.of_nat (List.length data) - offset + size - 1) / size <= 0)%Z.
      { apply Z.lt_succ_r. apply Z.div_lt_upper_bound; lia. }
      lia.
  - destruct (Z.lt_ge_cases offset (Z.of_nat (List.length data))) as [Hin|Hout].
    + cbn [chunks_from]. rewrite chunk_next_inside by lia.
      destruct (IH (offset + size)%Z) as (rest & Hrest & Hcat & Hshape & Hcount);
        [lia|lia|].
      rewrite Hrest. eexists. split; [reflexivity|].
      set (len := Z.of_nat (List.length data)) in *.
      set (tail := skipn (Z.to_nat offset) data).
      assert (Htail : List.length tail = Z.to_nat (len - offset)).
      { unfold tail. rewrite length_skipn. lia. }
      assert (Hskip : skipn (Z.to_nat (offset + size)) data
                      = skipn (Z.to_nat size) tail).
      { unfold tail. rewrite skipn_skipn. f_equal. lia. }
      split; [|split].
      * cbn [List.concat]. rewrite Hcat, Hskip.
        destruct (Z.le_gt_cases size (len - offset)) as [Hfull|Hpart].
        -- rewrite Z.min_l by lia. apply firstn_skipn.
        -- rewrite Z.min_r by lia.
           rewrite firstn_all2 by lia. rewrite skipn_all2 by lia.
           apply app_nil_r.
      * cbn [full_but_last].
        destruct rest as [|c rest'] eqn:Er.
        -- rewrite length_firstn, Htail. lia.
        -- split; [|exact Hshape].
           assert (Hmore : (offset + size < len)%Z).
           { destruct (Z.lt_ge_cases (offset + size) len) as [|Hge]; [assumption|].
             cbn [chunks_from] in Hrest.
             pose proof (chunk_next_outside data size (offset + size)%Z) as Hn.
             fold len in Hn. specialize (Hn ltac:(lia)).
             destruct fuel; cbn [chunks_from] in Hrest; rewrite Hn in Hrest;
               discriminate. }
           rewrite length_firstn, Htail. lia.
      * cbn [List.length]. rewrite Nat2Z.inj_succ, Hcount.
        replace (len - offset + size - 1)%Z
          with ((len - (offset + size) + size - 1) + 1 * size)%Z by lia.
        rewrite Z.div_add by lia.
        assert (0 <= (len - (offset + size) + size - 1) / size)%Z.
        { apply Z.div_pos; lia. }
        lia.
    + exists []. cbn [chunks_from]. rewrite chunk_next_outside by lia.
      repeat split.
      * cbn. rewrite skipn_all2; [reflexivity|lia].
      * cbn [List.length].
        assert ((Z.of_nat (List.length data) - offset + size - 1) / size <= 0)%Z.
        { apply Z.lt_succ_r. apply Z.div_lt_upper_bound; lia. }
        lia.
Qed.

Lemma assemble_concat (chunks : list (list Byte.byte)) :
  assembleChunks chunks = Some (List.concat chunks).
Proof.
  unfold assembleChunks.
  apply (AttachmentFacts.copy_chunks_concat chunks []
           (repeat Byte.x00 (total_length chunks))).
  rewrite repeat_length. apply AttachmentFacts.total_length_concat.
Qed.

(** X1.  With a chunk size of at least 1 the generator returns, within as many
    turns as there are bytes, and reassembling its chunks gives the data
    back. *)
Theorem chunk_assemble_roundtrip (data : list Byte.byte) (size : Z) :
  (1 <= size)%Z ->
  exists chunks,
    chunkData (List.length data) data (Some size) = Some chunks
    /\ assembleChunks chunks = Some data.
Proof.
  intros Hs. unfold chunkData.
  destruct (chunks_from_spec data size (List.length data) Hs 0%Z)
    as (chunks & Hc & Hcat & _); [lia|lia|].
  exists chunks. split; [exact Hc|].
  rewrite assemble_concat, Hcat. reflexivity.
Qed.

Lemma chunk_assemble_roundtrip_witness :
  exists chunks,
    chunkData 5 [Byte.x01; Byte.x02; Byte.x03; Byte.x04; Byte.x05] (Some 2%Z)
    = Some chunks
    /\ assembleChunks chunks
       = Some [Byte.x01; Byte.x02; Byte.x03; Byte.x04; Byte.x05].
Proof.
  exact (chunk_assemble_roundtrip
           [Byte.x01; Byte.x02; Byte.x03; Byte.x04; Byte.x05] 2 ltac:(lia)).
Defined.

(** X2.  With a chunk size of at least 1 there are ceil(length / size) chunks;
    every chunk but the last has exactly [size] bytes and the last has
    between 1 and [size]: no chunk is empty. *)
Theorem chunk_shape (data : list Byte.byte) (size : Z) (chunks : list (list Byte.byte)) :
  (1 <= size)%Z ->
  chunkData (List.length data) data (Some size) = Some chunks ->
  full_but_last (Z.to_nat size) chunks
  /\ (Z.of_nat (List.length chunks)
      = (Z.of_nat (List.length data) + size - 1) / size)%Z.
Proof.
  intros Hs Hc. unfold chunkData in Hc.
  destruct (chunks_from_spec data size (List.length data) Hs 0%Z)
    as (chunks' & Hc' & _ & Hshape & Hcount); [lia|lia|].
  rewrite Hc in Hc'. inversion Hc'; subst chunks'. split; [exact Hshape|].
  rewrite Hcount, Z.sub_0_r.
  assert (0 <= (Z.of_nat (List.length data) + size - 1) / size)%Z.
  { apply Z.div_pos; lia. }
  lia.
Qed.

Lemma chunk_shape_witness :
  full_but_last 2 [[Byte.x01; Byte.x02]; [Byte.x03; Byte.x04]; [Byte.x05]]
  /\ (3 = (5 + 2 - 1) / 2)%Z.
Proof.
  exact (chunk_shape [Byte.x01; Byte.x02; Byte.x03; Byte.x04; Byte.x05] 2
           [[Byte.x01; Byte.x02]; [Byte.x03; Byte.x04]; [Byte.x05]]
           ltac:(lia) eq_refl).
Defined.

Lemma chunk_next_stuck (data : list Byte.byte) (size offset : Z) :
  data <> [] -> (size <= 0)%Z -> (offset <= 0)%Z ->
  exists chunk, chunk_next data size offset = Some (chunk, (offset + size)%Z).
Proof.
  intros Hd Hs Ho. unfold chunk_next.
  destruct (Z.ltb_spec offset (Z.of_nat (List.length data))) as [_|Hge].
  - eexists. reflexivity.
  - destruct data; [congruence|cbn [List.length] in Hge; lia].
Qed.

(** X3.  With a chunk size of 0 or less and data that is not empty the
    generator never returns: it yields a chunk on every turn.  With size 0
    every chunk it yields is empty. *)
Theorem chunk_size_not_positive (data : list Byte.byte) (size : Z) :
  data <> [] -> (size <= 0)%Z ->
  (forall fuel, chunkData fuel data (Some size) = None)
  /\ (forall n, List.length (first_chunks n data size 0) = n)
  /\ (size = 0%Z -> forall n, Forall (fun c => c = []) (first_chunks n data size 0)).
Proof.
  intros Hd Hs. split; [|split].
  - intros fuel. unfold chunkData.
    assert (H : forall offset, (offset <= 0)%Z -> chunks_from fuel data size offset = None);
      [|apply H; lia].
    induction fuel as [|fuel IH]; intros offset Ho; cbn [chunks_from];
      destruct (chunk_next_stuck data size offset Hd Hs Ho) as (c & ->);
      [reflexivity|].
    rewrite IH by lia. reflexivity.
  - intros n.
    assert (H : forall offset, (offset <= 0)%Z ->
                List.length (first_chunks n data size offset) = n);
      [|apply H; lia].
    induction n as [|n IH]; intros offset Ho; cbn [first_chunks]; [reflexivity|].
    destruct (chunk_next_stuck data size offset Hd Hs Ho) as (c & ->).
    cbn [List.length]. rewrite IH by lia. reflexivity.
  - intros -> n.
    assert (H0 : chunk_next data 0 0 = Some ([], 0%Z)).
    { unfold chunk_next.
      destruct (Z.ltb_spec 0 (Z.of_nat (List.length data))) as [_|Hge].
      - unfold Uint8Array_slice, relative_index.
        change (0 + 0)%Z with 0%Z. rewrite Z.min_l by lia.
        change (0 <? 0)%Z with false. cbv iota. rewrite Z.min_l by lia.
        reflexivity.
      - destruct data; [congruence|cbn [List.length] in Hge; lia]. }
    induction n as [|n IH]; cbn [first_chunks]; [constructor|].
    rewrite H0. constructor; [reflexivity|exact IH].
Qed.

Lemma chunk_size_not_positive_witness :
  chunkData 1000 [Byte.x01; Byte.x02] (Some 0%Z) = None
  /\ first_chunks 3 [Byte.x01; Byte.x02] 0 0 = [[]; []; []].
Proof.
  destruct (chunk_size_not_positive [Byte.x01; Byte.x02] 0 ltac:(discriminate) ltac:(lia))
    as (H1 & _ & _).
  split; [exact (H1 1000%nat)|reflexivity].
Defined.

End ChunkFacts.

(** ** Building and relaying attachments *)
Module AttachmentTransferFacts.

Import Json FacetSerializer AttachmentHandler AttachmentTransfer.

(** X4.  createAttachment, for every payload: the size is the payload's
    length, no URL is set, the payload is inlined exactly when it is within
    the threshold; a larger one gets the two flags, which overwrite what the
    caller supplied under those names, and every other caller entry stays. *)
Theorem createAttachment_invariants (fresh_id contentType : string)
  (filename : option string) (metadata : option (list (string * string)))
  (data : list Byte.byte) :
  let att := createAttachment fresh_id data contentType filename metadata in
  let size := Z.of_nat (List.length data) in
  let given := match metadata with Some m => m | None => [] end in
  pa_sizeBytes att = size
  /\ pa_url att = None
  /\ pa_inlineData att = (if (size <=? MAX_INLINE_SIZE)%Z then Some data else None)
  /\ ((size <= MAX_INLINE_SIZE)%Z -> pa_metadata att = given)
  /\ ((MAX_INLINE_SIZE < size)%Z ->
      obj_get "requiresUpload" (pa_metadata att) = Some "true"
      /\ obj_get "originalSize" (pa_metadata att) = Some (String_of_number size))
  /\ (forall k, String.eqb "requiresUpload" k = false ->
                String.eqb "originalSize" k = false ->
                obj_get k (pa_metadata att) = obj_get k given).
Proof.
  cbn zeta. unfold createAttachment, shouldInlineAttachment.
  destruct (Z.leb_spec (Z.of_nat (List.length data)) MAX_INLINE_SIZE) as [Hle|Hgt];
    cbn [pa_sizeBytes pa_url pa_inlineData pa_metadata].
  - split; [reflexivity|]. split; [reflexivity|]. split; [reflexivity|].
    split; [reflexivity|]. split; [lia|reflexivity].
  - split; [reflexivity|]. split; [reflexivity|]. split; [reflexivity|].
    split; [lia|]. split.
    + intros _. split.
      * rewrite AttachmentFacts.obj_get_set_other by reflexivity.
        apply AttachmentFacts.obj_get_set_same.
      * apply AttachmentFacts.obj_get_set_same.
    + intros k H1 H2. rewrite !AttachmentFacts.obj_get_set_other by assumption.
      reflexivity.
Qed.

Lemma createAttachment_invariants_witness :
  let att := createAttachment "att-1" [Byte.x01; Byte.x02] "text/plain" None
               (Some [("owner", "ada")]) in
  pa_metadata att = [("owner", "ada")]
  /\ obj_get "owner" (pa_metadata att) = Some "ada".
Proof.
  intros att.
  destruct (createAttachment_invariants "att-1" "text/plain" None
              (Some [("owner", "ada")]) [Byte.x01; Byte.x02])
    as (_ & _ & _ & Hsmall & _ & Hkeep).
  split.
  - apply Hsmall. vm_compute. discriminate.
  - exact (Hkeep "owner" eq_refl eq_refl).
Defined.

Lemma plain_entries_decode (m : list (string * string)) :
  plain_entries m = true ->
  Js.assign_entries Js.decode_entry m [] = map (fun kv => (fst kv, JStr (snd kv))) m.
Proof.
  unfold plain_entries. intros H. apply andb_prop in H. destruct H as [H Hp].
  apply andb_prop in H. destruct H as [Hf Hk].
  rewrite JsFacts.assign_entries_map by exact Hf.
  rewrite (JsFacts.plain_named_all m Hk).
  clear Hf Hk. induction m as [|[k s] m IH]; [reflexivity|].
  cbn [forallb snd] in Hp. apply andb_prop in Hp. destruct Hp as [Hs Hp].
  cbn [map fst snd]. rewrite IH by exact Hp. unfold Js.decode_entry.
  destruct (parse s); [discriminate|reflexivity].
Qed.

(* Plain wire metadata is the same after a decode and a re-encode. *)
Lemma plain_entries_relay (m : list (string * string)) :
  plain_entries m = true ->
  match
    match m with
    | [] => None
    | _ :: _ => Some (Js.assign_entries Js.decode_entry m [])
    end
  with
  | Some md => Js.assign_entries Js.encode_entry md []
  | None => []
  end = m.
Proof.
  intros H. destruct m as [|kv m]; [reflexivity|].
  rewrite plain_entries_decode by exact H.
  unfold plain_entries in H. apply andb_prop in H. destruct H as [H _].
  apply andb_prop in H. destruct H as [Hf Hk].
  rewrite JsFacts.assign_entries_map.
  - rewrite JsFacts.plain_named_map, (JsFacts.plain_named_all _ Hk), map_map.
    cbn [fst snd Js.encode_entry].
    rewrite <- (map_id (kv :: m)) at 2. apply map_ext. intros [k s]. reflexivity.
  - rewrite map_map. cbn [fst]. exact Hf.
Qed.

(** X5.  A wire attachment built by createAttachment around 1 byte to 1 MiB,
    or by createUrlAttachment around a URL, with a content type and metadata
    that has distinct keys, no key __proto__ and no value that is JSON text,
    is the same after protoToAttachment and attachmentToProto. *)
Theorem built_attachment_relay (fresh_id contentType : string)
  (filename : option string) (metadata : option (list (string * string))) :
  contentType <> EmptyString ->
  plain_entries (match metadata with Some m => m | None => [] end) = true ->
  (forall data : list Byte.byte,
      data <> [] -> (Z.of_nat (List.length data) <= MAX_INLINE_SIZE)%Z ->
      let att := createAttachment fresh_id data contentType filename metadata in
      attachmentToProto (protoToAttachment att) = Some att)
  /\ (forall (url : string) (sizeBytes : Z),
      url <> EmptyString ->
      let att := createUrlAttachment fresh_id url contentType sizeBytes filename metadata in
      attachmentToProto (protoToAttachment att) = Some att).
Proof.
  intros Hct Hplain.
  pose proof (plain_entries_relay _ Hplain) as Hrelay.
  apply FacetFacts.truthy_str_ne in Hct.
  split.
  - intros data Hne Hle att. subst att. unfold createAttachment, shouldInlineAttachment.
    destruct (Z.leb_spec (Z.of_nat (List.length data)) MAX_INLINE_SIZE); [|lia].
    destruct data as [|b data]; [congruence|].
    unfold protoToAttachment, attachmentToProto.
    cbn [pa_id pa_contentType pa_inlineData pa_url pa_sizeBytes pa_filename
         pa_metadata option_map a_id a_contentType a_data a_url a_sizeBytes
         a_filename a_mimeType a_metadata].
    rewrite Hrelay, !FacetFacts.str_or_empty, (FacetFacts.str_or_truthy _ _ Hct).
    cbn [Js.opt_str_or]. rewrite FacetFacts.str_or_empty. reflexivity.
  - intros url sizeBytes Hurl att. subst att. unfold createUrlAttachment.
    apply FacetFacts.truthy_str_ne in Hurl.
    unfold protoToAttachment, attachmentToProto.
    cbn [pa_id pa_contentType pa_inlineData pa_url pa_sizeBytes pa_filename
         pa_metadata option_map a_id a_contentType a_data a_url a_sizeBytes
         a_filename a_mimeType a_metadata].
    rewrite Hurl. cbn [a_url]. rewrite Hurl.
    rewrite Hrelay, !FacetFacts.str_or_empty, (FacetFacts.str_or_truthy _ _ Hct).
    cbn [Js.opt_str_or]. rewrite FacetFacts.str_or_empty.
    assert (Hn : Js.num_or (Some sizeBytes) 0 = sizeBytes).
    { cbn. destruct (Z.eqb_spec sizeBytes 0); congruence. }
    rewrite Hn. reflexivity.
Qed.

Lemma built_attachment_relay_witness :
  let att := createAttachment "att-1" [Byte.x89; Byte.x50] "image/png"
               (Some "p.png") (Some [("owner", "ada")]) in
  attachmentToProto (protoToAttachment att) = Some att.
Proof.
  intros att.
  exact (proj1 (built_attachment_relay "att-1" "image/png" (Some "p.png")
                  (Some [("owner", "ada")]) ltac:(discriminate) eq_refl)
           [Byte.x89; Byte.x50] ltac:(discriminate) ltac:(vm_compute; discriminate)).
Defined.

Lemma fresh_keys_obj_set {A : Type} k (v : A) o :
  fresh_keys (map fst o) = true -> fresh_keys (map fst (obj_set k v o)) = true.
Proof.
  induction o as [|[k' v'] o IH]; cbn [obj_set map fst fresh_keys]; intros H.
  - reflexivity.
  - apply andb_prop in H. destruct H as [Hk Ho].
    destruct (String.eqb k' k) eqn:E; cbn [map fst fresh_keys].
    + rewrite Hk, Ho. reflexivity.
    + rewrite IH by exact Ho. rewrite andb_true_r.
      apply negb_true_iff in Hk. apply negb_true_iff.
      clear IH Ho. induction o as [|[k2 v2] o IHo]; cbn.
      * rewrite E. reflexivity.
      * cbn in Hk. apply orb_false_elim in Hk. destruct Hk as [Hk1 Hk2].
        destruct (String.eqb k2 k) eqn:E2; cbn; rewrite Hk1; cbn.
        -- exact Hk2.
        -- apply IHo. exact Hk2.
Qed.

Lemma obj_get_map {A B : Type} (f : A -> B) k (o : list (string * A)) :
  obj_get k (map (fun kv => (fst kv, f (snd kv))) o) = option_map f (obj_get k o).
Proof.
  induction o as [|[k' v] o IH]; [reflexivity|]. cbn.
  destruct (String.eqb k' k); [reflexivity|exact IH].
Qed.

Lemma obj_get_plain_named {A : Type} k (o : list (string * A)) :
  Js.plain_key k = true -> obj_get k (Js.plain_named o) = obj_get k o.
Proof.
  intros Hk. unfold Js.plain_named.
  induction o as [|[k' v] o IH]; [reflexivity|]. cbn [filter fst obj_get].
  destruct (String.eqb_spec k' k) as [->|Hne].
  - rewrite Hk. cbn [obj_get]. rewrite String.eqb_refl. reflexivity.
  - destruct (Js.plain_key k'); [|exact IH].
    cbn [obj_get]. destruct (String.eqb_spec k' k); [contradiction|exact IH].
Qed.

Lemma parse_number_text (n : Z) :
  (Z.abs n <= MAX_SAFE_INTEGER)%Z -> parse (String_of_number n) = Some (JNum n).
Proof.
  intros H. apply (JsonFacts.parse_stringify (JNum n)).
  cbn [serializable]. apply Z.leb_le. exact H.
Qed.

(** X6.  A payload above the threshold leaves a placeholder.  Decoded, its
    flags are the boolean true and the number of bytes, not strings, and it
    has neither data nor URL; encoded again, its sizeBytes is 0. *)
Theorem oversize_attachment_relay (fresh_id contentType : string)
  (filename : option string) (metadata : option (list (string * string)))
  (data : list Byte.byte) :
  let size := Z.of_nat (List.length data) in
  let att := createAttachment fresh_id data contentType filename metadata in
  (MAX_INLINE_SIZE < size <= MAX_SAFE_INTEGER)%Z ->
  fresh_keys (map fst (match metadata with Some m => m | None => [] end)) = true ->
  pa_sizeBytes att = size
  /\ a_data (protoToAttachment att) = None
  /\ a_url (protoToAttachment att) = None
  /\ (exists md,
        a_metadata (protoToAttachment att) = Some md
        /\ obj_get "requiresUpload" md = Some (JBool true)
        /\ obj_get "originalSize" md = Some (JNum size))
  /\ (exists again,
        attachmentToProto (protoToAttachment att) = Some again
        /\ pa_sizeBytes again = 0%Z).
Proof.
  cbn zeta. intros [Hgt Hsafe] Hfresh.
  unfold createAttachment, shouldInlineAttachment.
  destruct (Z.leb_spec (Z.of_nat (List.length data)) MAX_INLINE_SIZE); [lia|].
  set (given := match metadata with Some m => m | None => [] end) in *.
  set (size := Z.of_nat (List.length data)) in *.
  set (wire := obj_set "originalSize" (String_of_number size)
                 (obj_set "requiresUpload" "true" given)).
  assert (Hwf : fresh_keys (map fst wire) = true).
  { unfold wire. apply fresh_keys_obj_set, fresh_keys_obj_set, Hfresh. }
  assert (Hne : wire <> []).
  { unfold wire. destruct (obj_set "requiresUpload" "true" given) as [|[k v] o];
      cbn; [discriminate|]. destruct (String.eqb k "originalSize"); discriminate. }
  unfold protoToAttachment.
  cbn [pa_id pa_contentType pa_inlineData pa_url pa_sizeBytes pa_filename
       pa_metadata option_map a_data a_url a_metadata].
  fold wire.
  split; [reflexivity|]. split; [reflexivity|]. split; [reflexivity|]. split.
  - exists (Js.assign_entries Js.decode_entry wire []). split.
    + destruct wire; [congruence|reflexivity].
    + rewrite JsFacts.assign_entries_map by exact Hwf.
      rewrite !obj_get_map, !obj_get_plain_named by reflexivity.
      unfold wire. split.
      * rewrite AttachmentFacts.obj_get_set_other by reflexivity.
        rewrite AttachmentFacts.obj_get_set_same. reflexivity.
      * rewrite AttachmentFacts.obj_get_set_same. cbn [option_map].
        unfold Js.decode_entry. rewrite parse_number_text; [reflexivity|].
        unfold MAX_SAFE_INTEGER in *. lia.
  - unfold attachmentToProto.
    cbn [a_id a_contentType a_data a_url a_sizeBytes a_filename a_mimeType a_metadata].
    eexists. split; [reflexivity|]. reflexivity.
Qed.

Lemma oversize_attachment_relay_witness :
  let data := repeat Byte.x00 (Z.to_nat 1048577) in
  let att := createAttachment "att-2" data "video/mp4" None None in
  a_data (protoToAttachment att) = None.
Proof.
  intros data att.
  assert (Hlen : Z.of_nat (List.length data) = 1048577%Z).
  { unfold data. rewrite repeat_length, Z2Nat.id by lia. reflexivity. }
  destruct (oversize_attachment_relay "att-2" "video/mp4" None None data)
    as (_ & H & _).
  - rewrite Hlen. unfold MAX_INLINE_SIZE, MAX_SAFE_INTEGER. lia.
  - reflexivity.
  - exact H.
Defined.

End AttachmentTransferFacts.

(** ** createAttachment and the caller's metadata object *)
Module AttachmentStoreFacts.

Import Json FacetSerializer AttachmentHandler AttachmentStore.

Lemma read_update_same ref f (store : Store) :
  (ref < List.length store)%nat -> read ref (update ref f store) = f (read ref store).
Proof.
  unfold read. revert ref. induction store as [|o store IH]; intros ref H.
  - cbn in H. lia.
  - destruct ref as [|r]; [reflexivity|]. cbn [update nth]. apply IH.
    cbn in H. lia.
Qed.

Lemma read_update_other ref ref' f (store : Store) :
  ref <> ref' -> read ref' (update ref f store) = read ref' store.
Proof.
  unfold read. revert ref ref'. induction store as [|o store IH]; intros ref ref' H.
  - destruct ref; reflexivity.
  - destruct ref as [|r], ref' as [|r']; cbn [update nth]; try reflexivity.
    + congruence.
    + apply IH. congruence.
Qed.

Lemma read_new (store : Store) : read (List.length store) (store ++ [[]]) = [].
Proof. unfold read. rewrite app_nth2, Nat.sub_diag by lia. reflexivity. Qed.

Lemma read_old ref (store : Store) :
  (ref < List.length store)%nat -> read ref (store ++ [[]]) = read ref store.
Proof. intros H. unfold read. apply app_nth1. exact H. Qed.

Lemma update_length ref f (store : Store) :
  List.length (update ref f store) = List.length store.
Proof.
  revert ref. induction store as [|o store IH]; intros ref; [destruct ref; reflexivity|].
  destruct ref; cbn [update List.length]; [reflexivity|]. rewrite IH. reflexivity.
Qed.

(* What the stored attachment looks like is what the function on values
   computes from the record the caller passed. *)
Lemma createAttachment_view (store : Store) (fresh_id : string)
  (data : list Byte.byte) (contentType : string) (filename : option string)
  (metadata : option Ref) :
  match metadata with Some ref => (ref < List.length store)%nat | None => True end ->
  let (store', att) :=
    AttachmentStore.createAttachment store fresh_id data contentType filename metadata in
  view store' att
  = AttachmentHandler.createAttachment fresh_id data contentType filename
      (option_map (fun ref => read ref store) metadata).
Proof.
  intros Hv.
  unfold AttachmentStore.createAttachment, AttachmentHandler.createAttachment, view.
  destruct metadata as [ref|]; cbn [metadata_or_new option_map];
    destruct (shouldInlineAttachment (Z.of_nat (List.length data)));
    cbn [sa_id sa_contentType sa_inlineData sa_url sa_sizeBytes sa_filename sa_metadata].
  - reflexivity.
  - rewrite read_update_same by exact Hv. reflexivity.
  - rewrite read_new. reflexivity.
  - rewrite read_update_same by (rewrite length_app; cbn; lia).
    rewrite read_new. reflexivity.
Qed.

(** X7.  createAttachment writes into the caller's metadata record.  After
    it has built the placeholder for a payload above the threshold, the
    record the caller passed carries requiresUpload and originalSize itself;
    an attachment built later from the same record, even around a small
    payload, has both flags in its metadata, with the size of the earlier
    payload; every other record of the store is as it was. *)
Theorem oversize_flags_caller_record (store : Store) (ref : Ref)
  (id1 id2 type1 type2 : string) (name1 name2 : option string)
  (large small : list Byte.byte) :
  (ref < List.length store)%nat ->
  (MAX_INLINE_SIZE < Z.of_nat (List.length large))%Z ->
  (Z.of_nat (List.length small) <= MAX_INLINE_SIZE)%Z ->
  let size := Z.of_nat (List.length large) in
  let first :=
    AttachmentStore.createAttachment store id1 large type1 name1 (Some ref) in
  let second :=
    AttachmentStore.createAttachment (fst first) id2 small type2 name2 (Some ref) in
  sa_metadata (snd first) = ref /\ sa_metadata (snd second) = ref
  /\ obj_get "requiresUpload" (read ref (fst first)) = Some "true"
  /\ obj_get "originalSize" (read ref (fst first)) = Some (String_of_number size)
  /\ pa_inlineData (view (fst second) (snd second)) = Some small
  /\ obj_get "requiresUpload" (pa_metadata (view (fst second) (snd second)))
     = Some "true"
  /\ obj_get "originalSize" (pa_metadata (view (fst second) (snd second)))
     = Some (String_of_number size)
  /\ (forall other, other <> ref -> read other (fst second) = read other store).
Proof.
  intros Hv Hlarge Hsmall. cbn zeta.
  unfold AttachmentStore.createAttachment, shouldInlineAttachment.
  cbn [metadata_or_new].
  destruct (Z.leb_spec (Z.of_nat (List.length large)) MAX_INLINE_SIZE); [lia|].
  cbn [fst snd].
  destruct (Z.leb_spec (Z.of_nat (List.length small)) MAX_INLINE_SIZE); [|lia].
  unfold view.
  cbn [fst snd sa_id sa_contentType sa_inlineData sa_url sa_sizeBytes sa_filename
       sa_metadata pa_inlineData pa_metadata].
  rewrite read_update_same by exact Hv.
  split; [reflexivity|]. split; [reflexivity|].
  assert (H1 : obj_get "requiresUpload"
                 (obj_set "originalSize" (String_of_number (Z.of_nat (List.length large)))
                    (obj_set "requiresUpload" "true" (read ref store)))
               = Some "true").
  { rewrite AttachmentFacts.obj_get_set_other by reflexivity.
    apply AttachmentFacts.obj_get_set_same. }
  assert (H2 : obj_get "originalSize"
                 (obj_set "originalSize" (String_of_number (Z.of_nat (List.length large)))
                    (obj_set "requiresUpload" "true" (read ref store)))
               = Some (String_of_number (Z.of_nat (List.length large)))).
  { apply AttachmentFacts.obj_get_set_same. }
  split; [exact H1|]. split; [exact H2|]. split; [reflexivity|].
  split; [exact H1|]. split; [exact H2|].
  intros other Hne. apply read_update_other. congruence.
Qed.

Lemma oversize_flags_caller_record_witness :
  let large := repeat Byte.x00 (Z.to_nat 1048577) in
  let store := [[("owner", "ada")]] in
  let first := AttachmentStore.createAttachment store "att-1" large "video/mp4"
                 None (Some 0%nat) in
  let second := AttachmentStore.createAttachment (fst first) "att-2" [Byte.x01]
                  "text/plain" None (Some 0%nat) in
  obj_get "requiresUpload" (pa_metadata (view (fst second) (snd second)))
  = Some "true".
Proof.
  intros large store first second.
  assert (Hlen : Z.of_nat (List.length large) = 1048577%Z).
  { unfold large. rewrite repeat_length, Z2Nat.id by lia. reflexivity. }
  assert (Hv : (0 < List.length store)%nat) by (unfold store; cbn [List.length]; lia).
  assert (Hl : (MAX_INLINE_SIZE < Z.of_nat (List.length large))%Z)
    by (rewrite Hlen; unfold MAX_INLINE_SIZE; lia).
  assert (Hs : (Z.of_nat (List.length [Byte.x01]) <= MAX_INLINE_SIZE)%Z)
    by (unfold MAX_INLINE_SIZE; cbn [List.length]; lia).
  destruct (oversize_flags_caller_record store 0%nat "att-1" "att-2" "video/mp4"
              "text/plain" None None large [Byte.x01] Hv Hl Hs)
    as (_ & _ & _ & _ & _ & H & _).
  exact H.
Defined.

End AttachmentStoreFacts.

(** ** Content types and size estimates *)
Module ContentTypeFacts.

Import FacetSerializer AttachmentHandler AttachmentTransfer.

Lemma toLowerCase_char_idem c :
  toLowerCase_char (toLowerCase_char c) = toLowerCase_char c.
Proof. destruct c as [[|] [|] [|] [|] [|] [|] [|] [|]]; reflexivity. Qed.

Lemma toLowerCase_idem s : toLowerCase (toLowerCase s) = toLowerCase s.
Proof.
  unfold toLowerCase. rewrite map_map. apply map_ext. apply toLowerCase_char_idem.
Qed.

Lemma toLowerCase_char_dot c :
  (toLowerCase_char c =? ".")%char = (c =? ".")%char.
Proof. destruct c as [[|] [|] [|] [|] [|] [|] [|] [|]]; reflexivity. Qed.

Lemma split_dot_nonempty s : split_dot s <> [].
Proof.
  destruct s as [|c r]; [discriminate|]. cbn [split_dot].
  destruct (c =? ".")%char; [discriminate|]. destruct (split_dot r); discriminate.
Qed.

Lemma split_dot_toLowerCase s :
  split_dot (toLowerCase s) = map toLowerCase (split_dot s).
Proof.
  induction s as [|c r IH]; [reflexivity|].
  cbn [toLowerCase map split_dot]. fold (toLowerCase r).
  rewrite toLowerCase_char_dot, IH.
  destruct (c =? ".")%char; [reflexivity|].
  pose proof (split_dot_nonempty r) as Hne.
  destruct (split_dot r); [congruence|reflexivity].
Qed.

Lemma pop_map (f : list ascii -> list ascii) segs :
  segs <> [] -> pop (map f segs) = f (pop segs).
Proof.
  unfold pop. induction segs as [|a segs IH]; [congruence|]. intros _.
  destruct segs as [|b segs]; [reflexivity|].
  cbn [map List.last] in *. apply IH. discriminate.
Qed.

(* The extension of a name is the extension of its lower-case form. *)
Lemma pop_split_toLowerCase s :
  toLowerCase (pop (split_dot s)) = pop (split_dot (toLowerCase s)).
Proof.
  rewrite split_dot_toLowerCase, pop_map by apply split_dot_nonempty. reflexivity.
Qed.

Lemma split_dot_no_dot s :
  existsb (Ascii.eqb ".") s = false -> split_dot s = [s].
Proof.
  induction s as [|c r IH]; [reflexivity|]. cbn [existsb split_dot]. intros H.
  apply orb_false_elim in H. destruct H as [Hc Hr].
  rewrite Ascii.eqb_sym, Hc, IH by exact Hr. reflexivity.
Qed.

(* Splitting around a dot splits both sides. *)
Lemma split_dot_app (a b : list ascii) :
  split_dot (a ++ "."%char :: b) = split_dot a ++ split_dot b.
Proof.
  induction a as [|c r IH]; cbn [app split_dot].
  - reflexivity.
  - rewrite IH. destruct (c =? ".")%char; [reflexivity|].
    pose proof (split_dot_nonempty r) as Hne.
    destruct (split_dot r); [congruence|reflexivity].
Qed.

Lemma pop_app (l1 l2 : list (list ascii)) : l2 <> [] -> pop (l1 ++ l2) = pop l2.
Proof.
  unfold pop. intros Hne. induction l1 as [|a l1 IH]; [reflexivity|].
  cbn [app List.last]. destruct (l1 ++ l2) eqn:E; [|exact IH].
  apply app_eq_nil in E. destruct E. congruence.
Qed.

Lemma pop_split_app (name ext : list ascii) :
  existsb (Ascii.eqb ".") ext = false ->
  pop (split_dot (name ++ "."%char :: ext)) = ext.
Proof.
  intros Hext. rewrite split_dot_app, pop_app by apply split_dot_nonempty.
  rewrite split_dot_no_dot by exact Hext. reflexivity.
Qed.

Lemma list_ascii_app (a b : string) :
  list_ascii_of_string (a ++ b) = list_ascii_of_string a ++ list_ascii_of_string b.
Proof. induction a as [|c a IH]; [reflexivity|]. cbn. rewrite IH. reflexivity. Qed.

Lemma obj_get_In {A : Type} k (v : A) o : obj_get k o = Some v -> In (k, v) o.
Proof.
  induction o as [|[k' v'] o IH]; [discriminate|]. cbn [obj_get].
  destruct (String.eqb_spec k' k) as [->|_].
  - intros H. inversion H; subst. left; reflexivity.
  - intros H. right. apply IH. exact H.
Qed.

Lemma obj_get_None {A : Type} k (o : list (string * A)) :
  obj_get k o = None -> ~ In k (map fst o).
Proof.
  induction o as [|[k' v'] o IH]; [intros _ []|]. cbn [obj_get map fst].
  destruct (String.eqb_spec k' k) as [->|Hne]; [discriminate|].
  intros H [E|Hin]; [congruence|]. exact (IH H Hin).
Qed.

Lemma extension_lower filename :
  toLowerCase (list_ascii_of_string (extension filename))
  = list_ascii_of_string (extension filename).
Proof.
  unfold extension. rewrite list_ascii_of_string_of_list_ascii.
  apply toLowerCase_idem.
Qed.

(** X8.  getContentTypeFromFilename returns a content type of its table or
    application/octet-stream, except for the two extensions "constructor" and
    "__proto__", where the lookup finds a member the table inherits and the
    function returns that member instead of a string. *)
Theorem content_type_range (filename : string) :
  match getContentTypeFromFilename filename with
  | MimeType contentType =>
      In contentType (map snd contentTypes)
      \/ contentType = "application/octet-stream"
  | InheritedMember name =>
      name = extension filename /\ (name = "constructor" \/ name = "__proto__")
  end
  /\ (extension filename = "constructor" ->
      getContentTypeFromFilename filename = InheritedMember "constructor")
  /\ (extension filename = "__proto__" ->
      getContentTypeFromFilename filename = InheritedMember "__proto__").
Proof.
  unfold getContentTypeFromFilename. split.
  - destruct (obj_get (extension filename) contentTypes) as [ct|] eqn:E.
    + left. apply obj_get_In in E. apply (in_map snd) in E. exact E.
    + destruct (existsb _ Object_prototype_names) eqn:Ex; [|right; reflexivity].
      split; [reflexivity|].
      pose proof (extension_lower filename) as Hlow.
      apply existsb_exists in Ex. destruct Ex as (name & Hin & Heq).
      apply String.eqb_eq in Heq. rewrite Heq in *.
      cbn [Object_prototype_names In] in Hin.
      repeat (destruct Hin as [<-|Hin];
              [first [left; reflexivity | right; reflexivity
                     | exfalso; vm_compute in Hlow; discriminate Hlow]|]).
      destruct Hin.
  - split; intros ->; reflexivity.
Qed.

Lemma content_type_range_witness :
  getContentTypeFromFilename "notes.constructor" = InheritedMember "constructor"
  /\ getContentTypeFromFilename "notes.__proto__" = InheritedMember "__proto__".
Proof.
  split.
  - exact (proj1 (proj2 (content_type_range "notes.constructor")) eq_refl).
  - exact (proj2 (proj2 (content_type_range "notes.__proto__")) eq_refl).
Defined.

Lemma getContentType_extension f g :
  extension f = extension g ->
  getContentTypeFromFilename f = getContentTypeFromFilename g.
Proof. unfold getContentTypeFromFilename. intros ->. reflexivity. Qed.

(** X9.  Only the text after the last dot counts, whatever its case: a name
    and its lower-case form get the same answer, and so do "name.ext" and the
    bare "ext" (a name without a dot is taken whole as the extension). *)
Theorem content_type_by_extension :
  (forall f g : string,
      toLowerCase (list_ascii_of_string f) = toLowerCase (list_ascii_of_string g) ->
      getContentTypeFromFilename f = getContentTypeFromFilename g)
  /\ (forall name ext : string,
      existsb (Ascii.eqb ".") (list_ascii_of_string ext) = false ->
      getContentTypeFromFilename (name ++ "." ++ ext) = getContentTypeFromFilename ext).
Proof.
  split.
  - intros f g H. apply getContentType_extension. unfold extension.
    rewrite !pop_split_toLowerCase, H. reflexivity.
  - intros name ext H. apply getContentType_extension. unfold extension.
    rewrite !list_ascii_app. cbn [list_ascii_of_string app].
    rewrite pop_split_app by exact H.
    rewrite split_dot_no_dot by exact H. reflexivity.
Qed.

Lemma content_type_by_extension_witness :
  getContentTypeFromFilename "Holiday.Photo.JPG" = getContentTypeFromFilename "jpg".
Proof.
  rewrite (proj1 content_type_by_extension "Holiday.Photo.JPG" "holiday.photo.jpg" eq_refl).
  exact (proj2 content_type_by_extension "holiday.photo" "jpg" eq_refl).
Defined.

(** X10.  The content type of a file name is an image type exactly for the
    extensions jpg, jpeg, png, gif, webp and svg; and every content type that
    supports compression is an image type. *)
Theorem image_content_types :
  (forall filename contentType : string,
      getContentTypeFromFilename filename = MimeType contentType ->
      (isImageContentType contentType = true
       <-> In (extension filename) ["jpg"; "jpeg"; "png"; "gif"; "webp"; "svg"]))
  /\ (forall contentType : string,
      supportsCompression contentType = true -> isImageContentType contentType = true).
Proof.
  split.
  - intros filename ct. unfold getContentTypeFromFilename.
    destruct (obj_get (extension filename) contentTypes) as [ct'|] eqn:E.
    + intros H. inversion H; subst ct'. clear H.
      apply obj_get_In in E. cbn [contentTypes In] in E.
      repeat (destruct E as [E|E];
              [inversion E; split; intros Hi;
               [first [solve [cbn [In]; auto 10]
                      | vm_compute in Hi; discriminate Hi]
               |first [reflexivity
                      | exfalso; cbn [In] in Hi;
                        repeat (destruct Hi as [Hi|Hi]; [discriminate Hi|]);
                        exact Hi]]|]).
      destruct E.
    + apply obj_get_None in E.
      destruct (existsb _ Object_prototype_names); [discriminate|].
      intros H. inversion H. split; [discriminate|].
      intros Hi. exfalso. apply E. cbn [contentTypes map fst].
      cbn [In] in Hi |- *. tauto.
  - intros ct H. unfold supportsCompression in H. cbn [existsb] in H.
    destruct (String.eqb ct "image/jpeg") eqn:E1;
      [apply String.eqb_eq in E1; rewrite E1; reflexivity|].
    destruct (String.eqb ct "image/png") eqn:E2;
      [apply String.eqb_eq in E2; rewrite E2; reflexivity|].
    destruct (String.eqb ct "image/webp") eqn:E3;
      [apply String.eqb_eq in E3; rewrite E3; reflexivity|discriminate].
Qed.

Lemma image_content_types_witness :
  isImageContentType "image/svg+xml" = true
  /\ isImageContentType "image/webp" = true.
Proof.
  split.
  - apply (proj1 image_content_types "logo.SVG" "image/svg+xml" eq_refl).
    cbn. tauto.
  - exact (proj2 image_content_types "image/webp" eq_refl).
Defined.

Lemma round_double_bounds (x : Z) :
  (0 <= x)%Z ->
  (0 <= round_double x)%Z /\ (2 ^ 53 * round_double x <= (2 ^ 53 + 1) * x)%Z.
Proof.
  intros Hx. unfold round_double. rewrite Z.abs_eq by exact Hx.
  destruct (Z.ltb_spec x (2 ^ 53)) as [Hsmall|Hbig]; [lia|].
  assert (Hpos : (0 < x)%Z) by lia.
  destruct (Z.log2_spec x Hpos) as [Hlo Hhi].
  assert (Hl : (53 <= Z.log2 x)%Z).
  { apply Z.log2_le_pow2; [lia|exact Hbig]. }
  set (e := (Z.log2 x - 52)%Z) in *.
  assert (He : (2 ^ e = 2 * 2 ^ (e - 1))%Z).
  { replace e with (Z.succ (e - 1)) at 1 by lia. apply Z.pow_succ_r. lia. }
  assert (Hh : (2 ^ (e - 1) * 2 ^ 53 = 2 ^ Z.log2 x)%Z).
  { rewrite <- Z.pow_add_r by lia. f_equal. lia. }
  assert (Hhp : (0 < 2 ^ (e - 1))%Z) by (apply Z.pow_pos_nonneg; lia).
  pose proof (Z.div_mod x (2 ^ e) ltac:(lia)) as Hdm.
  pose proof (Z.mod_pos_bound x (2 ^ e) ltac:(lia)) as Hr.
  assert (Hq : (0 <= x / 2 ^ e)%Z) by (apply Z.div_pos; lia).
  rewrite (Z.sgn_pos x Hpos), Z.mul_1_l.
  set (q := (x / 2 ^ e)%Z) in *. set (r := (x mod 2 ^ e)%Z) in *.
  set (h := (2 ^ (e - 1))%Z) in *.
  destruct (Z.ltb_spec r h) as [Hlt|Hge].
  - split; [nia|]. nia.
  - destruct (Z.ltb_spec h r) as [Hgt|Heq].
    + split; [nia|]. nia.
    + destruct (Z.even q); split; nia.
Qed.

(** X11.  estimateCompressedSize leaves the size of a type that does not
    support compression unchanged; for one that does, and a size from 0 to
    Number.MAX_SAFE_INTEGER, the estimate is between 0 and the size; for image/webp it is
    half the size, rounded up. *)
Theorem estimate_bounds (originalSize : Z) (contentType : string) :
  (supportsCompression contentType = false ->
   estimateCompressedSize originalSize contentType = originalSize)
  /\ ((0 <= originalSize <= Json.MAX_SAFE_INTEGER)%Z ->
      (0 <= estimateCompressedSize originalSize contentType <= originalSize)%Z)
  /\ ((0 <= originalSize <= Json.MAX_SAFE_INTEGER)%Z ->
      estimateCompressedSize originalSize "image/webp" = ((originalSize + 1) / 2)%Z).
Proof.
  unfold estimateCompressedSize. split; [|split].
  - intros ->. reflexivity.
  - intros [H0 Hmax].
    assert (Hceil : forall m k : Z,
      (0 <= m)%Z -> (0 <= k)%Z -> ((2 ^ 53 + 1) * m <= 2 ^ 53 * 2 ^ k)%Z ->
      (0 <= ceil_times originalSize (mkDouble m k) <= originalSize)%Z).
    { intros m k Hm Hk Hmk. unfold ceil_times. cbn [mantissa scale].
      destruct (round_double_bounds (originalSize * m)) as [Hr0 Hr1]; [nia|].
      assert (Hkp : (0 < 2 ^ k)%Z) by (apply Z.pow_pos_nonneg; lia).
      assert (Hr2 : (round_double (originalSize * m) <= originalSize * 2 ^ k)%Z) by nia.
      split.
      - assert ((- round_double (originalSize * m)) / 2 ^ k <= 0)%Z.
        { apply Z.div_le_upper_bound; lia. }
        lia.
      - assert (- originalSize <= (- round_double (originalSize * m)) / 2 ^ k)%Z.
        { apply Z.div_le_lower_bound; lia. }
        lia. }
    destruct (supportsCompression contentType) eqn:Hs; cbn [negb]; [|lia].
    unfold supportsCompression in Hs. cbn [existsb] in Hs.
    destruct (String.eqb_spec contentType "image/jpeg") as [->|_];
      [apply Hceil; vm_compute; discriminate|].
    destruct (String.eqb_spec contentType "image/png") as [->|_];
      [apply Hceil; vm_compute; discriminate|].
    destruct (String.eqb_spec contentType "image/webp") as [->|_];
      [apply Hceil; vm_compute; discriminate|discriminate].
  - intros [H0 Hmax]. change (supportsCompression "image/webp") with true.
    cbn [negb obj_get ratios String.eqb Ascii.eqb Bool.eqb andb].
    unfold ceil_times. cbn [mantissa scale]. rewrite Z.mul_1_r.
    unfold round_double. rewrite Z.abs_eq by lia.
    destruct (Z.ltb_spec originalSize (2 ^ 53)) as [_|Hbig];
      [|unfold Json.MAX_SAFE_INTEGER in Hmax; lia].
    change (2 ^ 1)%Z with 2%Z.
    pose proof (Z.div_mod (- originalSize) 2 ltac:(lia)).
    pose proof (Z.mod_pos_bound (- originalSize) 2 ltac:(lia)).
    pose proof (Z.div_mod (originalSize + 1) 2 ltac:(lia)).
    pose proof (Z.mod_pos_bound (originalSize + 1) 2 ltac:(lia)).
    lia.
Qed.

Lemma estimate_bounds_witness :
  estimateCompressedSize 1000 "text/plain" = 1000%Z
  /\ (0 <= estimateCompressedSize 1000 "image/png" <= 1000)%Z
  /\ estimateCompressedSize 1001 "image/webp" = 501%Z.
Proof.
  destruct (estimate_bounds 1000 "text/plain") as (H1 & _ & _).
  destruct (estimate_bounds 1000 "image/png") as (_ & H2 & _).
  destruct (estimate_bounds 1001 "image/webp") as (_ & _ & H3).
  split; [exact (H1 eq_refl)|]. split.
  - apply H2. vm_compute. split; discriminate.
  - apply H3. vm_compute. split; discriminate.
Defined.

End ContentTypeFacts.

(** ** Events on the wire *)
Module EventTransferFacts.

Import Json EventSerializer EventTransfer.

Lemma priority_sent_received (p : string) :
  protoToPriority (priorityToProto (Some p))
  = if existsb (String.eqb p) ["immediate"; "high"; "low"] then p else "normal".
Proof.
  unfold priorityToProto. cbn [existsb].
  destruct (String.eqb_spec p "immediate") as [->|_]; [reflexivity|].
  destruct (String.eqb_spec p "high") as [->|_]; [reflexivity|].
  destruct (String.eqb_spec p "low") as [->|_]; reflexivity.
Qed.

Lemma priority_received_sent (n : Z) :
  priorityToProto (Some (protoToPriority n))
  = if ((1 <=? n) && (n <=? 3))%Z then n else 0%Z.
Proof.
  unfold protoToPriority, PRIORITY_IMMEDIATE, PRIORITY_HIGH, PRIORITY_LOW.
  destruct (Z.eqb_spec n 3) as [->|H3]; [reflexivity|].
  destruct (Z.eqb_spec n 2) as [->|H2]; [reflexivity|].
  destruct (Z.eqb_spec n 1) as [->|H1]; [reflexivity|].
  cbn. destruct (Z.leb_spec 1 n), (Z.leb_spec n 3); cbn; try reflexivity. lia.
Qed.

(** X12.  Priorities across the wire: "immediate", "high" and "low" come back
    as themselves and every other string, or no priority, as "normal"; the
    enum values 1, 2 and 3 come back as themselves and every other number
    as 0. *)
Theorem priority_roundtrip :
  (forall p : string,
      protoToPriority (priorityToProto (Some p))
      = if existsb (String.eqb p) ["immediate"; "high"; "low"] then p else "normal")
  /\ protoToPriority (priorityToProto None) = "normal"
  /\ (forall n : Z,
      priorityToProto (Some (protoToPriority n))
      = if ((1 <=? n) && (n <=? 3))%Z then n else 0%Z).
Proof.
  split; [exact priority_sent_received|].
  split; [reflexivity|exact priority_received_sent].
Qed.

Lemma componentRef_relay (p : ProtoComponentRef) :
  componentRefToProto (protoToComponentRef p) = p.
Proof.
  destruct p as [cid path ctype]. unfold componentRefToProto, protoToComponentRef.
  cbn [componentId componentPath componentType p_componentId p_componentPath
       p_componentType].
  f_equal. destruct ctype; reflexivity.
Qed.

(** X13.  A wire event that is decoded and encoded again, as a relay does,
    keeps its topic, source, timestamp and sync flag; it keeps its priority
    when that is one of the enum's values 0..3, and an empty payload stays
    empty. *)
Theorem event_relay (p : ProtoSpaceEvent) :
  let q := eventToProto (protoToEvent p) in
  p_topic q = p_topic p
  /\ p_source q = p_source p
  /\ p_timestamp q = p_timestamp p
  /\ p_sync q = p_sync p
  /\ ((0 <= p_priority p <= 3)%Z -> p_priority q = p_priority p)
  /\ (payloadJson p = [] -> payloadJson q = []).
Proof.
  cbn zeta. unfold eventToProto, protoToEvent.
  cbn [p_topic p_source p_timestamp p_sync p_priority payloadJson
       topic source timestamp sync priority payload].
  split; [reflexivity|]. split; [apply componentRef_relay|].
  split; [reflexivity|]. split; [destruct (p_sync p); reflexivity|]. split.
  - intros H. rewrite priority_received_sent.
    destruct (Z.leb_spec 1 (p_priority p)), (Z.leb_spec (p_priority p) 3);
      cbn; lia.
  - intros ->. reflexivity.
Qed.

Lemma event_relay_witness :
  let p := mkProtoSpaceEvent "note.create" (mkProtoComponentRef "c1" ["root"; "c1"] "")
             [] 1700000000000 2 [] false in
  p_priority (eventToProto (protoToEvent p)) = 2%Z
  /\ payloadJson (eventToProto (protoToEvent p)) = [].
Proof.
  intros p.
  destruct (event_relay p) as (_ & _ & _ & _ & Hp & Hj).
  split; [apply Hp; cbn; lia|exact (Hj eq_refl)].
Defined.

Lemma canonical_priority (p : string) :
  existsb (String.eqb p) priorities = true ->
  protoToPriority (priorityToProto (Some p)) = p.
Proof.
  unfold priorities, priorityToProto. cbn [existsb].
  destruct (String.eqb_spec p "immediate") as [->|_]; [reflexivity|].
  destruct (String.eqb_spec p "high") as [->|_]; [reflexivity|].
  destruct (String.eqb_spec p "normal") as [->|_]; [reflexivity|].
  destruct (String.eqb_spec p "low") as [->|_]; [reflexivity|discriminate].
Qed.

Lemma canonical_event_roundtrip (e : SpaceEvent) :
  canonical_event e = true -> protoToEvent (eventToProto e) = e.
Proof.
  destruct e as [etopic [cid cpath ctype] epayload etime eprio esync emeta].
  unfold canonical_event, canonical_ref.
  cbn [source payload priority sync metadata componentPath componentType].
  intros H. repeat (apply andb_prop in H; destruct H as [H ?]).
  unfold protoToEvent, eventToProto, componentRefToProto, protoToComponentRef.
  cbn [p_topic p_source p_timestamp p_sync p_priority payloadJson p_metadata
       topic source timestamp sync priority payload metadata
       componentId componentPath componentType
       p_componentId p_componentPath p_componentType].
  f_equal.
  - f_equal.
    + destruct cpath; [reflexivity|discriminate].
    + destruct ctype as [[|c s]|]; [discriminate|reflexivity|reflexivity].
  - destruct epayload as [v|]; [|reflexivity].
    apply JsFacts.structured_value_roundtrip. assumption.
  - destruct eprio as [p|]; [|discriminate].
    rewrite canonical_priority by assumption. reflexivity.
  - destruct esync as [[|]|]; [reflexivity|discriminate|reflexivity].
  - destruct emeta as [[|kv md]|]; [discriminate| |reflexivity].
    match goal with
    | Hc : FacetSerializer.canonical_props _ = true |- _ =>
        cbn [FacetSerializer.canonical_props] in Hc;
        apply andb_prop in Hc; destruct Hc as [Hc Hs];
        apply andb_prop in Hc; destruct Hc as [Hc Hwf];
        apply andb_prop in Hc; destruct Hc as [Hfresh Hplain]
    end.
    rewrite JsFacts.roundtrip_entries by exact Hfresh.
    rewrite (JsFacts.plain_named_all _ Hplain), (JsFacts.reencode_entries _ Hwf Hs).
    reflexivity.
Qed.

(** X14.  An event in the form the decoder itself produces (source path
    present, component type not empty, one of the four priorities, sync true
    or absent, metadata absent or non-empty with distinct keys, none of them
    __proto__, and values that survive the wire, payload JSON-serializable)
    crosses the wire unchanged, alone or in a batch. *)
Theorem event_roundtrip :
  (forall e : SpaceEvent,
      canonical_event e = true -> protoToEvent (eventToProto e) = e)
  /\ (forall events : list SpaceEvent,
      forallb canonical_event events = true ->
      protoToEvents (eventsToProto events) = events).
Proof.
  split; [exact canonical_event_roundtrip|].
  intros events. unfold protoToEvents, eventsToProto.
  induction events as [|e events IH]; [reflexivity|].
  cbn [forallb map]. intros H. apply andb_prop in H. destruct H as [He Hes].
  rewrite canonical_event_roundtrip, IH by assumption. reflexivity.
Qed.

Lemma event_roundtrip_witness :
  let e := mkSpaceEvent "note.create" (mkComponentRef "c1" (Some ["root"; "c1"]) (Some "axon"))
             (Some (JObj [("text", JStr "hi")])) 1700000000000 (Some "high")
             (Some true) (Some [("trace", JStr "abc-1"); ("retries", JNum 3)]) in
  protoToEvent (eventToProto e) = e
  /\ protoToEvents (eventsToProto [e; e]) = [e; e].
Proof.
  intros e. split.
  - exact (proj1 event_roundtrip e eq_refl).
  - exact (proj2 event_roundtrip [e; e] eq_refl).
Defined.

(** X15.  What the server reads from an event built by createProtoEvent: the
    topic, the time of the call, a source whose id is the sender and whose
    path is the sender alone, the payload when it is JSON-serializable; with
    no options the priority is "normal" and there is neither a sync flag nor
    metadata. *)
Theorem created_event_received (now : Z) (t sender : string)
  (body : option value) (options : option EventOptions) :
  let e := protoToEvent (createProtoEvent now t sender body options) in
  topic e = t
  /\ timestamp e = now
  /\ source e = mkComponentRef sender (Some [sender]) None
  /\ (match body with Some v => serializable v | None => true end = true ->
      payload e = body)
  /\ (options = None ->
      priority e = Some "normal" /\ sync e = None /\ metadata e = None).
Proof.
  cbn zeta. unfold createProtoEvent, protoToEvent, eventToProto.
  cbn [p_topic p_source p_timestamp p_sync p_priority payloadJson p_metadata
       topic source timestamp sync priority payload metadata].
  split; [reflexivity|]. split; [reflexivity|]. split; [reflexivity|]. split.
  - destruct body as [v|]; [|reflexivity].
    intros Hv. apply JsFacts.structured_value_roundtrip. exact Hv.
  - intros ->. repeat split.
Qed.

Lemma created_event_received_witness :
  let e := protoToEvent
             (createProtoEvent 1700000000000 "note.create" "axon-1"
                (Some (JObj [("text", JStr "hi")])) None) in
  payload e = Some (JObj [("text", JStr "hi")])
  /\ priority e = Some "normal".
Proof.
  intros e.
  destruct (created_event_received 1700000000000 "note.create" "axon-1"
              (Some (JObj [("text", JStr "hi")])) None) as (_ & _ & _ & Hp & Ho).
  split; [exact (Hp eq_refl)|exact (proj1 (Ho eq_refl))].
Defined.

End EventTransferFacts.

(** ** Facet trees on the wire *)
Module FacetTransferFacts.

Import Json FacetSerializer FacetTransfer.



Lemma opt_nonempty_string s : opt_string (nonempty_string s) = s.
Proof. destruct s; reflexivity. Qed.

Lemma opt_nonempty_list {A : Type} (l : list A) : opt_list (nonempty_list l) = l.
Proof. destruct l; reflexivity. Qed.










Lemma attachmentToProto_None (a : Attachment) :
  attachmentToProto a = None <-> rejected a = true.
Proof.
  unfold attachmentToProto, rejected.
  destruct (a_data a) as [[b|s]|].
  - split; discriminate.
  - destruct (Js.truthy_str s); cbn [andb]; [|split; discriminate].
    destruct (Base64.atob_bytes s); split; (discriminate || reflexivity).
  - split; discriminate.
Qed.

Lemma map_throwing_None {A B : Type} (f : A -> option B) (bad : A -> bool) l :
  Forall (fun x => f x = None <-> bad x = true) l ->
  (map_throwing f l = None <-> existsb bad l = true).
Proof.
  induction 1 as [|x l Hx _ IH]; cbn [map_throwing existsb].
  - split; discriminate.
  - fold (map_throwing f). destruct (f x) as [y|].
    + destruct (bad x); [destruct Hx as [_ Hx]; discriminate (Hx eq_refl)|].
      cbn [orb]. destruct (map_throwing f l).
      * split; [discriminate|]. intros H. apply IH in H. discriminate H.
      * split; [intros _; apply IH; reflexivity|reflexivity].
    + rewrite (proj1 Hx eq_refl). split; reflexivity.
Qed.

Lemma facetToProto_None (f : Facet) :
  facetToProto f = None <-> has_rejected f = true.
Proof.
  induction f as [fid ftype fcontent fstate ftags fagentId fagentName fstreamId
                    fstreamType fscopes fephemeral fchildren fattributes
                    fattachments IH]
    using Facet_ind_nested.
  cbn [facetToProto has_rejected].
  assert (Hc : match fchildren with
               | Some cs => map_throwing facetToProto cs
               | None => Some []
               end = None
               <-> match fchildren with
                   | Some cs => existsb has_rejected cs
                   | None => false
                   end = true).
  { destruct fchildren as [cs|]; [|split; discriminate].
    apply map_throwing_None. exact IH. }
  assert (Ha : map_throwing attachmentToProto (opt_list fattachments) = None
               <-> existsb rejected (opt_list fattachments) = true).
  { apply map_throwing_None. apply Forall_forall. intros a _.
    apply attachmentToProto_None. }
  destruct (match fchildren with
            | Some cs => map_throwing facetToProto cs
            | None => Some []
            end) as [cs'|].
  - destruct (match fchildren with
              | Some cs => existsb has_rejected cs
              | None => false
              end); [destruct Hc as [_ Hc]; discriminate (Hc eq_refl)|].
    cbn [orb]. destruct (map_throwing attachmentToProto (opt_list fattachments)).
    + split; [discriminate|]. intros H. apply Ha in H. discriminate H.
    + split; [intros _; apply Ha; reflexivity|reflexivity].
  - rewrite (proj1 Hc eq_refl). split; reflexivity.
Qed.

(** X17.  facetToProto fails exactly when some attachment, of the facet or of
    a descendant at any depth, carries a non-empty base64 text that atob
    rejects; a batch fails exactly when one of its facets does. *)
Theorem encode_fails_iff_rejected :
  (forall f : Facet, facetToProto f = None <-> has_rejected f = true)
  /\ (forall facets : list Facet,
      facetsToProto facets = None <-> existsb has_rejected facets = true).
Proof.
  split; [exact facetToProto_None|].
  intros facets. apply map_throwing_None. apply Forall_forall.
  intros f _. apply facetToProto_None.
Qed.

Lemma encode_fails_iff_rejected_witness :
  let bad := mkAttachment "a1" "image/png" (Some (DataBase64 "abcde")) None None
               None None None in
  let leaf := mkFacet "n2" "note" None None None None None None None None None
                None None (Some [bad]) in
  let root := mkFacet "n1" "note" None None None None None None None None None
                (Some [sample_leaf; leaf]) None None in
  facetToProto root = None /\ facetsToProto [sample_facet; root] = None.
Proof.
  intros bad leaf root. split.
  - apply (proj1 encode_fails_iff_rejected root). reflexivity.
  - apply (proj2 encode_fails_iff_rejected [sample_facet; root]). reflexivity.
Defined.

Lemma decoded_attachment_encodes (p : ProtoAttachment) :
  attachmentToProto (protoToAttachment p) <> None.
Proof.
  intros H. apply attachmentToProto_None in H. unfold rejected in H.
  destruct p as [pid ct inline url size fname md].
  unfold protoToAttachment in H. cbn [a_data pa_inlineData] in H.
  destruct inline as [[|b bs]|]; discriminate H.
Qed.

Lemma map_throwing_total {A B : Type} (f : A -> option B) l :
  (forall x, In x l -> f x <> None) ->
  exists ys, map_throwing f l = Some ys /\ List.length ys = List.length l.
Proof.
  induction l as [|x l IH]; intros H; cbn [map_throwing].
  - exists []. split; reflexivity.
  - fold (map_throwing f).
    destruct (f x) as [y|] eqn:E; [|exfalso; apply (H x); [left; reflexivity|exact E]].
    destruct IH as (ys & -> & Hl); [intros z Hz; apply H; right; exact Hz|].
    exists (y :: ys). split; [reflexivity|]. cbn. rewrite Hl. reflexivity.
Qed.

(** X18.  A decoded wire facet can always be encoded again, and the result
    has the same plain fields (id, type, content, tags, agent and stream
    fields, scopes, ephemeral) and the same children, in the same order, at
    every depth. *)
Theorem facet_relay (p : ProtoFacet) :
  exists q, facetToProto (protoToFacet p) = Some q /\ skeleton q = skeleton p.
Proof.
  induction p as [pid ptype sj pcontent ptags pagentId pagentName pstreamId
                    pstreamType pscopes pephemeral pchildren pattrs patts IH]
    using ProtoFacet_ind_nested.
  cbn [protoToFacet facetToProto].
  assert (Hc : exists qs,
             match nonempty_list (map protoToFacet pchildren) with
             | Some cs => map_throwing facetToProto cs
             | None => Some []
             end = Some qs
             /\ map skeleton qs = map skeleton pchildren).
  { assert (Hm : exists qs,
               map_throwing facetToProto (map protoToFacet pchildren) = Some qs
               /\ map skeleton qs = map skeleton pchildren).
    { clear -IH. induction IH as [|c cs (q & Hq & Hs) _ (qs & Hqs & Hss)].
      - exists []. split; reflexivity.
      - exists (q :: qs). cbn [map map_throwing]. fold (map_throwing facetToProto).
        rewrite Hq, Hqs, Hs, Hss. split; reflexivity. }
    destruct pchildren as [|c cs]; [exists []; split; reflexivity|exact Hm]. }
  destruct Hc as (qs & -> & Hqs).
  destruct (map_throwing_total attachmentToProto
              (opt_list (nonempty_list (map protoToAttachment patts))))
    as (as' & -> & _).
  { rewrite opt_nonempty_list. intros a Ha. apply in_map_iff in Ha.
    destruct Ha as (pa & <- & _). apply decoded_attachment_encodes. }
  eexists. split; [reflexivity|].
  cbn [skeleton]. rewrite !opt_nonempty_string, !opt_nonempty_list, Hqs.
  destruct pephemeral; reflexivity.
Qed.

Lemma outline_children (ps : list ProtoFacet) :
  match nonempty_list (map protoToFacet ps) with
  | Some cs => map outline cs
  | None => []
  end = map outline (map protoToFacet ps).
Proof. destruct ps; reflexivity. Qed.

Lemma outline_decoded (p : ProtoFacet) :
  match protoToFacet p with
  | mkFacet id type _ _ _ _ _ _ _ _ _ children _ _ =>
      id = p_id p /\ type = p_type p
      /\ children = nonempty_list (map protoToFacet (p_children p))
  end.
Proof. destruct p. cbn. auto. Qed.

(** X19.  A facet tree that facetToProto accepts keeps its outline across the
    wire: the same ids and types, with the same children in the same order,
    at every depth; no facet is lost, added, moved or renamed. *)
Theorem outline_preserved (f f' : Facet) :
  roundtrip f = Some f' -> outline f' = outline f.
Proof.
  revert f'.
  induction f as [fid ftype fcontent fstate ftags fagentId fagentName fstreamId
                    fstreamType fscopes fephemeral fchildren fattributes
                    fattachments IH]
    using Facet_ind_nested.
  intros f'. unfold roundtrip. cbn [facetToProto].
  destruct (match fchildren with
            | Some cs => map_throwing facetToProto cs
            | None => Some []
            end) as [ps|] eqn:Ec; [|discriminate].
  destruct (map_throwing attachmentToProto (opt_list fattachments)); [|discriminate].
  cbn [option_map protoToFacet]. intros H. inversion H; subst f'; clear H.
  cbn [outline]. f_equal. rewrite outline_children.
  destruct fchildren as [cs|]; [|inversion Ec; reflexivity].
  revert ps Ec. induction IH as [|c cs Hc _ IHcs]; intros ps Ec.
  - inversion Ec. reflexivity.
  - cbn [map_throwing] in Ec. fold (map_throwing facetToProto) in Ec.
    destruct (facetToProto c) as [pc|] eqn:Epc; [|discriminate].
    destruct (map_throwing facetToProto cs) as [pcs|]; [|discriminate].
    inversion Ec; subst ps. cbn [map]. f_equal.
    + apply Hc. unfold roundtrip. rewrite Epc. reflexivity.
    + apply IHcs. reflexivity.
Qed.

Lemma outline_preserved_witness :
  let f := mkFacet "n1" "note" (Some "") None (Some []) None None None None None
             (Some false) (Some [sample_leaf]) None None in
  let f' := mkFacet "n1" "note" None None None None None None None None None
              (Some [sample_leaf]) None None in
  outline f' = outline f.
Proof. intros f f'. exact (outline_preserved f f' eq_refl). Defined.

(** X20.  Every wire attachment that attachmentToProto builds has a non-empty
    content type (the attachment's contentType, or else its mimeType, or else
    application/octet-stream), never both inline data and a URL, a size equal to the
    length of its inline data, and size 0 when it has neither data nor URL;
    binary data in the source wins over a URL. *)
Theorem attachment_wire_form (a : Attachment) (p : ProtoAttachment) :
  attachmentToProto a = Some p ->
  pa_contentType p <> EmptyString
  /\ pa_contentType p
     = Js.str_or (a_contentType a)
         (Js.opt_str_or (a_mimeType a) "application/octet-stream")
  /\ (pa_inlineData p = None \/ pa_url p = None)
  /\ (forall b, pa_inlineData p = Some b -> pa_sizeBytes p = Z.of_nat (List.length b))
  /\ (pa_inlineData p = None -> pa_url p = None -> pa_sizeBytes p = 0%Z)
  /\ (forall b, a_data a = Some (DataBytes b) ->
                pa_inlineData p = Some b /\ pa_url p = None).
Proof.
  unfold attachmentToProto.
  assert (Hct : Js.str_or (a_contentType a)
                  (Js.opt_str_or (a_mimeType a) "application/octet-stream")
                <> EmptyString).
  { destruct (a_contentType a); [|discriminate]. cbn.
    destruct (a_mimeType a) as [[|c m]|]; discriminate. }
  intros H.
  destruct (a_data a) as [[b|s]|] eqn:Ed.
  - inversion H; subst p; clear H.
    cbn [pa_contentType pa_inlineData pa_url pa_sizeBytes].
    split; [exact Hct|]. split; [reflexivity|]. split; [right; reflexivity|]. split.
    + intros b' Hb. inversion Hb. reflexivity.
    + split; [discriminate|]. intros b' Hb. inversion Hb. split; reflexivity.
  - destruct (Js.truthy_str s).
    + destruct (Base64.atob_bytes s) as [b|]; [|discriminate].
      inversion H; subst p; clear H.
      cbn [pa_contentType pa_inlineData pa_url pa_sizeBytes].
      split; [exact Hct|]. split; [reflexivity|]. split; [right; reflexivity|]. split.
      * intros b' Hb. inversion Hb. reflexivity.
      * split; discriminate.
    + inversion H; subst p; clear H.
      destruct (a_url a) as [u|]; [destruct (Js.truthy_str u)|];
        cbn [pa_contentType pa_inlineData pa_url pa_sizeBytes];
        (split; [exact Hct|]); (split; [reflexivity|]); (split; [left; reflexivity|]);
        (split; [discriminate|]); (split; [|discriminate]);
        try reflexivity; discriminate.
  - inversion H; subst p; clear H.
    destruct (a_url a) as [u|]; [destruct (Js.truthy_str u)|];
      cbn [pa_contentType pa_inlineData pa_url pa_sizeBytes];
      (split; [exact Hct|]); (split; [reflexivity|]); (split; [left; reflexivity|]);
      (split; [discriminate|]); (split; [|discriminate]);
      try reflexivity; discriminate.
Qed.

Lemma attachment_wire_form_witness :
  let a := mkAttachment "a1" "" (Some (DataBytes [Byte.x01; Byte.x02]))
             (Some "https://files/x.bin") (Some 9%Z) None (Some "image/png") None in
  let p := mkProtoAttachment "a1" "image/png" (Some [Byte.x01; Byte.x02]) None 2 "" [] in
  attachmentToProto a = Some p
  /\ pa_inlineData p = Some [Byte.x01; Byte.x02] /\ pa_url p = None.
Proof.
  intros a p. split; [reflexivity|].
  destruct (attachment_wire_form a p eq_refl) as (_ & _ & _ & _ & _ & H).
  exact (H [Byte.x01; Byte.x02] eq_refl).
Defined.

End FacetTransferFacts.

(** ** Deltas from server to client *)
Module DeltaTransferFacts.

Import FacetSerializer FacetTransfer DeltaTransfer.

Lemma facet_or_null_canonical (facet : option Facet) :
  canonical_opt facet = true ->
  exists p, facet_or_null facet = Some p /\ option_map protoToFacet p = facet.
Proof.
  destruct facet as [f|]; cbn [canonical_opt facet_or_null].
  - intros H. destruct (FacetFacts.canonical_roundtrip f H) as (p & -> & Hp).
    exists (Some p). cbn. rewrite Hp. split; reflexivity.
  - intros _. exists None. split; reflexivity.
Qed.

Lemma received_kind (type : string) :
  (if String.eqb
        (if String.eqb type "added" then "DELTA_ADDED"
         else if String.eqb type "changed" then "DELTA_CHANGED"
         else "DELTA_REMOVED") "DELTA_ADDED"
   then "added"
   else if String.eqb
             (if String.eqb type "added" then "DELTA_ADDED"
              else if String.eqb type "changed" then "DELTA_CHANGED"
              else "DELTA_REMOVED") "DELTA_CHANGED"
        then "changed" else "removed")
  = received_type type.
Proof.
  unfold received_type.
  destruct (String.eqb type "added"); [reflexivity|].
  destruct (String.eqb type "changed"); reflexivity.
Qed.

Lemma canonical_delta_received (d : FacetDelta) :
  canonical_delta d = true ->
  exists pd,
    protoData d = Some pd
    /\ onData pd
       = mkFacetDelta (received_type (d_type d)) (d_facet d) (d_oldFacet d)
           (d_sequence d) (d_frameUuid d).
Proof.
  unfold canonical_delta. intros H. apply andb_prop in H. destruct H as [Hf Ho].
  destruct (facet_or_null_canonical _ Hf) as (pf & Epf & Hpf).
  destruct (facet_or_null_canonical _ Ho) as (po & Epo & Hpo).
  unfold protoData. rewrite Epf, Epo. eexists. split; [reflexivity|].
  unfold onData. cbn [pd_type pd_facet pd_oldFacet pd_sequence pd_frameUuid].
  rewrite Hpf, Hpo, received_kind. reflexivity.
Qed.

(** X21.  A delta whose facets are in canonical form, or absent, reaches the
    client's callback with the same facets, sequence and frame id; its kind
    arrives unchanged when it is 'added', 'changed' or 'removed', and any
    other kind arrives as 'removed'. *)
Theorem delta_received (d : FacetDelta) :
  canonical_delta d = true ->
  exists pd,
    protoData d = Some pd
    /\ onData pd
       = mkFacetDelta (received_type (d_type d)) (d_facet d) (d_oldFacet d)
           (d_sequence d) (d_frameUuid d)
    /\ (In (d_type d) ["added"; "changed"; "removed"] -> onData pd = d).
Proof.
  intros H. destruct (canonical_delta_received d H) as (pd & Hpd & Hon).
  exists pd. split; [exact Hpd|]. split; [exact Hon|].
  intros Hin. rewrite Hon. destruct d as [t f o sq fu].
  cbn [d_type d_facet d_oldFacet d_sequence d_frameUuid] in *. f_equal.
  cbn [In] in Hin. destruct Hin as [<-|[<-|[<-|[]]]]; reflexivity.
Qed.

Lemma delta_received_witness :
  let d := mkFacetDelta "changed" (Some sample_facet) (Some sample_leaf) 42 "frame-7" in
  exists pd, protoData d = Some pd /\ onData pd = d.
Proof.
  intros d. destruct (delta_received d eq_refl) as (pd & Hpd & _ & Hd).
  exists pd. split; [exact Hpd|]. apply Hd. cbn. tauto.
Defined.

Lemma facet_or_null_None (facet : option Facet) :
  facet_or_null facet = None
  <-> match facet with Some f => has_rejected f | None => false end = true.
Proof.
  destruct facet as [f|]; cbn [facet_or_null]; [|split; discriminate].
  rewrite <- FacetTransferFacts.facetToProto_None.
  destruct (facetToProto f); split; (discriminate || reflexivity).
Qed.

(** X22.  An EmitEvent result crosses the wire whole or not at all: when all
    its deltas are canonical the client resolves with the same success flag,
    sequence, frame id and deltas (kinds normalised), and with error '' when
    the handler gave none; when a facet of some delta cannot be encoded the
    server answers with an error instead of a response. *)
Theorem emit_result_received (r : HandlerResult) :
  (forallb canonical_delta (opt_list (h_deltas r)) = true ->
   exists response,
     handleEmitEvent_response r = Some response
     /\ emitEvent_result response
        = mkFrameResult (h_success r) (h_sequence r) (h_frameUuid r)
            (map (fun d => mkFacetDelta (received_type (d_type d)) (d_facet d)
                             (d_oldFacet d) (d_sequence d) (d_frameUuid d))
                 (opt_list (h_deltas r)))
            (Js.opt_str_or (h_error r) ""))
  /\ ((exists d f, In d (opt_list (h_deltas r))
                   /\ (d_facet d = Some f \/ d_oldFacet d = Some f)
                   /\ has_rejected f = true) ->
      handleEmitEvent_response r = None).
Proof.
  unfold handleEmitEvent_response. split.
  - intros H.
    assert (Hm : exists pds,
               map_throwing protoData (opt_list (h_deltas r)) = Some pds
               /\ map onData pds
                  = map (fun d => mkFacetDelta (received_type (d_type d)) (d_facet d)
                                    (d_oldFacet d) (d_sequence d) (d_frameUuid d))
                        (opt_list (h_deltas r))).
    { induction (opt_list (h_deltas r)) as [|d ds IH].
      - exists []. split; reflexivity.
      - cbn [forallb] in H. apply andb_prop in H. destruct H as [Hd Hds].
        destruct (canonical_delta_received d Hd) as (pd & Hpd & Hon).
        destruct (IH Hds) as (pds & Hpds & Hmap).
        exists (pd :: pds). cbn [map_throwing map]. fold (map_throwing protoData).
        rewrite Hpd, Hpds, Hon, Hmap. split; reflexivity. }
    destruct Hm as (pds & -> & Hmap). eexists. split; [reflexivity|].
    unfold emitEvent_result.
    cbn [er_success er_sequence er_frameUuid er_deltas er_error].
    rewrite Hmap. reflexivity.
  - intros (d & f & Hin & Hf & Hbad).
    assert (Hd : protoData d = None).
    { unfold protoData.
      destruct Hf as [Hf|Hf].
      - assert (E : facet_or_null (d_facet d) = None)
          by (apply facet_or_null_None; rewrite Hf; exact Hbad).
        rewrite E. reflexivity.
      - assert (E : facet_or_null (d_oldFacet d) = None)
          by (apply facet_or_null_None; rewrite Hf; exact Hbad).
        rewrite E. destruct (facet_or_null (d_facet d)); reflexivity. }
    induction (opt_list (h_deltas r)) as [|d' ds IH]; [destruct Hin|].
    cbn [map_throwing]. fold (map_throwing protoData).
    destruct Hin as [->|Hin]; [rewrite Hd; reflexivity|].
    destruct (protoData d'); [|reflexivity].
    destruct (map_throwing protoData ds); [|reflexivity].
    specialize (IH Hin). discriminate IH.
Qed.

Lemma emit_result_received_witness :
  let d := mkFacetDelta "added" (Some sample_leaf) None 7 "frame-1" in
  let r := mkHandlerResult true 7 "frame-1" (Some [d]) None in
  exists response,
    handleEmitEvent_response r = Some response
    /\ emitEvent_result response = mkFrameResult true 7 "frame-1" [d] "".
Proof.
  intros d r.
  destruct (proj1 (emit_result_received r) eq_refl) as (response & H1 & H2).
  exists response. split; [exact H1|exact H2].
Defined.

End DeltaTransferFacts.

(** ** Sessions over any sequence of events *)
Module ClientSessionFacts.

Import Client ClientSession.

Lemma constructor_consistent cfg listens : consistent (constructor cfg listens).
Proof.
  unfold consistent, constructor.
  cbn [reconnecting loop reconnectAttempts config maxReconnectAttempts constructor_config].
  split; [split; [discriminate|congruence]|]. split; [lia|].
  unfold Js.num_or. destruct (cfg_maxReconnectAttempts cfg) as [n|]; [|lia].
  destruct (Z.eqb_spec n 0); lia.
Qed.

Lemma attemptReconnect_consistent s :
  reconnecting s = true -> (0 <= reconnectAttempts s)%Z ->
  ((0 <= maxReconnectAttempts (config s))%Z ->
   (reconnectAttempts s <= maxReconnectAttempts (config s))%Z) ->
  consistent (fst (attemptReconnect s))
  /\ config (fst (attemptReconnect s)) = config s.
Proof.
  intros Hr H0 Hmax. unfold attemptReconnect. rewrite Hr.
  destruct ((maxReconnectAttempts (config s) >=? 0)
            && (reconnectAttempts s >=? maxReconnectAttempts (config s)))%Z eqn:E;
    unfold consistent;
    cbn [fst reconnecting loop reconnectAttempts config set_loop set_reconnecting
         set_reconnectAttempts].
  - split; [|reflexivity]. split; [split; [discriminate|congruence]|]. split; assumption.
  - split; [|reflexivity]. split; [split; [intros _; discriminate|intros _; exact Hr]|].
    split; [lia|]. intros Hm.
    apply andb_false_iff in E. rewrite !Z.geb_leb in E.
    destruct E as [E|E]; apply Z.leb_gt in E; lia.
Qed.

Lemma step_consistent s e :
  consistent s ->
  consistent (fst (step s e)) /\ config (fst (step s e)) = config s.
Proof.
  intros Hs. pose proof Hs as (Hrl & H0 & Hmax).
  assert (Hsame : consistent s /\ config s = config s)
    by (split; [exact Hs|reflexivity]).
  destruct e as [| [|] | | code |]; unfold step.
  - destruct (loop s) eqn:El; cbn [fst]; try exact Hsame.
    unfold consistent.
    cbn [reconnecting loop reconnectAttempts config set_loop set_client].
    split; [|reflexivity]. split; [|split; assumption].
    split; [intros _; discriminate|]. intros _. apply Hrl. discriminate.
  - destruct (loop s) eqn:El; cbn [fst]; try exact Hsame.
    unfold consistent.
    cbn [reconnecting loop reconnectAttempts config set_loop set_reconnecting
         set_reconnectAttempts set_connected].
    split; [|reflexivity]. split; [split; [discriminate|congruence]|].
    split; [lia|]. intros H; exact H.
  - destruct (loop s) eqn:El; cbn [fst]; try exact Hsame.
    unfold consistent.
    cbn [reconnecting loop reconnectAttempts config set_loop].
    split; [|reflexivity]. split; [|split; assumption].
    split; [intros _; discriminate|]. intros _. apply Hrl. discriminate.
  - destruct (loop s) eqn:El; cbn [fst]; try exact Hsame.
    apply attemptReconnect_consistent; try assumption.
    apply Hrl. discriminate.
  - unfold onStreamError. destruct (code =? CANCELLED)%Z; [exact Hsame|].
    destruct (errorListener s); [|exact Hsame].
    unfold handleDisconnect. destruct (reconnecting s) eqn:Er; [exact Hsame|].
    pose proof (attemptReconnect_consistent
                  (set_reconnecting true (set_connected false s)) eq_refl H0 Hmax) as Ha.
    destruct (attemptReconnect (set_reconnecting true (set_connected false s)))
      as [s2 acts]. exact Ha.
  - assert (Hd : fst (disconnect s)
                 = set_connected false (set_client false
                     (set_subscriptionStream false s)) /\ consistent s)
      by (split; [reflexivity|exact Hs]).
    destruct (loop s); rewrite (proj1 Hd); (split; [exact Hs|reflexivity]).
Qed.

Lemma run_consistent events : forall s,
  consistent s ->
  consistent (fst (run s events)) /\ config (fst (run s events)) = config s.
Proof.
  induction events as [|e events IH]; intros s Hs; cbn [run].
  - split; [exact Hs|reflexivity].
  - destruct (step_consistent s e Hs) as [H1 C1].
    destruct (step s e) as [s1 a1]. cbn [fst] in H1, C1.
    destruct (IH s1 H1) as [H2 C2].
    destruct (run s1 events) as [s2 a2]. cbn [fst] in *.
    split; [exact H2|congruence].
Qed.

(** X23.  Whatever happens to a client after construction (stream errors,
    disconnect() calls, connect results, timers, in any order), the
    reconnecting flag is set exactly while one reconnect loop is pending, so a
    second loop is never started beside it; the attempt counter is never
    negative and never exceeds a budget of 0 or more; the configuration does
    not change. *)
Theorem session_consistent (cfg : ConnectomeClientConfig) (listens : bool)
  (events : list Event) :
  let s := fst (run (constructor cfg listens) events) in
  (reconnecting s = true <-> loop s <> NotRunning)
  /\ (0 <= reconnectAttempts s)%Z
  /\ ((0 <= maxReconnectAttempts (config s))%Z ->
      (reconnectAttempts s <= maxReconnectAttempts (config s))%Z)
  /\ config s = constructor_config cfg.
Proof.
  cbn zeta.
  destruct (run_consistent events (constructor cfg listens)
              (constructor_consistent cfg listens)) as [(H1 & H2 & H3) H4].
  split; [exact H1|]. split; [exact H2|]. split; [exact H3|exact H4].
Qed.

Lemma session_consistent_witness :
  let cfg := mkClientConfig "localhost" None "axon-1" (Some 100%Z) (Some 2%Z) in
  let s := fst (run (constructor cfg true)
                  [StreamError 14; ProtoLoaded; CallDisconnect; ReadyResult false;
                   StreamError 13; TimerFired]) in
  (reconnectAttempts s <= 2)%Z.
Proof.
  intros cfg s.
  destruct (session_consistent cfg true
              [StreamError 14; ProtoLoaded; CallDisconnect; ReadyResult false;
               StreamError 13; TimerFired]) as (_ & _ & H & _).
  apply H. vm_compute. discriminate.
Defined.

(* One failed attempt of a loop that has budget left. *)
Lemma failing_round_retry s :
  loop s = AwaitLoad -> reconnecting s = true ->
  ((maxReconnectAttempts (config s) < 0)%Z
   \/ (reconnectAttempts s < maxReconnectAttempts (config s))%Z) ->
  run s failing_round
  = (set_loop AwaitLoad
       (set_reconnectAttempts (reconnectAttempts s + 1)
          (set_loop AwaitSleep (set_loop AwaitReady (set_client true s)))),
     [WaitForReady; SetTimeout (reconnectInterval (config s)); LoadProto]).
Proof.
  intros Hl Hr Hb. unfold failing_round. cbn [run].
  unfold step at 1. rewrite Hl.
  unfold step at 1. cbn [loop set_loop set_client].
  unfold step at 1. cbn [loop set_loop set_client].
  unfold attemptReconnect.
  cbn [reconnecting config set_loop set_client reconnectAttempts].
  rewrite Hr.
  assert (E : ((maxReconnectAttempts (config s) >=? 0)
               && (reconnectAttempts s >=? maxReconnectAttempts (config s)))%Z = false).
  { apply andb_false_iff. rewrite !Z.geb_leb.
    destruct Hb; [left|right]; apply Z.leb_gt; lia. }
  rewrite E. reflexivity.
Qed.

(* The loop after [k] failed attempts, each with budget left. *)
Lemma failing_rounds_retry k : forall s,
  loop s = AwaitLoad -> reconnecting s = true ->
  ((maxReconnectAttempts (config s) < 0)%Z
   \/ (reconnectAttempts s + Z.of_nat k <= maxReconnectAttempts (config s))%Z) ->
  exists s',
    run s (failing_rounds k)
    = (s', skipn 1 (failed_attempts (reconnectInterval (config s)) k ++ [LoadProto]))
    /\ loop s' = AwaitLoad /\ reconnecting s' = true
    /\ config s' = config s /\ errorListener s' = errorListener s
    /\ reconnectAttempts s' = (reconnectAttempts s + Z.of_nat k)%Z.
Proof.
  induction k as [|k IH]; intros s Hl Hr Hb.
  - exists s. cbn [failing_rounds run failed_attempts app skipn].
    repeat split; try assumption. lia.
  - cbn [failing_rounds]. rewrite ClientFacts.run_app.
    rewrite failing_round_retry by (try assumption; lia).
    match goal with
    | |- context [run ?s1 (failing_rounds k)] =>
        destruct (IH s1) as (s' & Hrun & Hl' & Hr' & Hc' & He' & Ha')
    end.
    + reflexivity.
    + exact Hr.
    + cbn [config reconnectAttempts set_loop set_reconnectAttempts set_client]. lia.
    + rewrite Hrun. exists s'.
      cbn [config reconnectAttempts errorListener set_loop set_reconnectAttempts
           set_client] in *.
      split.
      * f_equal. cbn [failed_attempts failed_attempt app skipn].
        destruct k; cbn [failed_attempts failed_attempt app skipn]; reflexivity.
      * repeat split; try assumption. lia.
Qed.

Lemma attempts_shift (ms : Z) (k : nat) :
  LoadProto :: skipn 1 (failed_attempts ms k ++ [LoadProto])
  = failed_attempts ms k ++ [LoadProto].
Proof. destruct k; reflexivity. Qed.

(* A stream error on an idle client with a listener starts the loop. *)
Lemma stream_error_first_attempt (code : Z) (s : State) :
  code <> CANCELLED -> errorListener s = true -> reconnecting s = false ->
  ((maxReconnectAttempts (config s) < 0)%Z
   \/ (reconnectAttempts s < maxReconnectAttempts (config s))%Z) ->
  step s (StreamError code)
  = (set_loop AwaitLoad
       (set_reconnectAttempts (reconnectAttempts s + 1)
          (set_reconnecting true (set_connected false s))),
     [Emit "error"; Emit "disconnected"; LoadProto]).
Proof.
  intros Hc Hl Hr Hb. unfold step, onStreamError.
  destruct (Z.eqb_spec code CANCELLED) as [E|_]; [contradiction|].
  rewrite Hl. unfold handleDisconnect. rewrite Hr. unfold attemptReconnect.
  cbn [reconnecting set_reconnecting set_connected config reconnectAttempts].
  assert (E : ((maxReconnectAttempts (config s) >=? 0)
               && (reconnectAttempts s >=? maxReconnectAttempts (config s)))%Z = false).
  { apply andb_false_iff. rewrite !Z.geb_leb.
    destruct Hb; [left|right]; apply Z.leb_gt; lia. }
  rewrite E. reflexivity.
Qed.

(** X24.  Recovery.  On a client that is not reconnecting, has a fresh
    counter and an 'error' listener, a stream error followed by k failed
    connect attempts and one that succeeds, with k below the budget or no
    budget, produces 'error', 'disconnected', the k failed attempts each
    followed by the configured delay, then 'connected' and 'reconnected';
    the client ends connected, not reconnecting, with the counter back
    at 0. *)
Theorem reconnect_succeeds (code : Z) (k : nat) (s : State) :
  code <> CANCELLED -> errorListener s = true -> reconnecting s = false ->
  reconnectAttempts s = 0%Z ->
  ((maxReconnectAttempts (config s) < 0)%Z
   \/ (Z.of_nat k < maxReconnectAttempts (config s))%Z) ->
  exists s',
    run s (StreamError code :: failing_rounds k ++ succeeding_round)
    = (s', [Emit "error"; Emit "disconnected"]
           ++ failed_attempts (reconnectInterval (config s)) k
           ++ [LoadProto; WaitForReady; Emit "connected"; Emit "reconnected"])
    /\ connected s' = true /\ reconnecting s' = false /\ loop s' = NotRunning
    /\ reconnectAttempts s' = 0%Z.
Proof.
  intros Hc Hl Hr Ha Hb. cbn [run].
  rewrite stream_error_first_attempt by (try assumption; lia).
  rewrite ClientFacts.run_app.
  match goal with
  | |- context [run ?s1 (failing_rounds k)] =>
      destruct (failing_rounds_retry k s1) as (s2 & Hrun & Hl2 & Hr2 & Hc2 & _ & _)
  end.
  - reflexivity.
  - reflexivity.
  - cbn [config reconnectAttempts set_loop set_reconnectAttempts set_reconnecting
         set_connected]. lia.
  - rewrite Hrun. unfold succeeding_round. cbn [run].
    unfold step at 1. rewrite Hl2.
    unfold step at 1. cbn [loop set_loop set_client].
    eexists. split.
    + cbn [config set_loop set_reconnectAttempts set_reconnecting set_connected].
      f_equal.
      change [LoadProto; WaitForReady; Emit "connected"; Emit "reconnected"]
        with ([LoadProto] ++ [WaitForReady; Emit "connected"; Emit "reconnected"]).
      rewrite (app_assoc (failed_attempts _ k)), <- attempts_shift.
      reflexivity.
    + repeat split.
Qed.

Lemma reconnect_succeeds_witness :
  let cfg := mkClientConfig "localhost" None "axon-1" (Some 100%Z) (Some 3%Z) in
  exists s',
    run (subscribed cfg true)
      (StreamError 14 :: failing_rounds 2 ++ succeeding_round)
    = (s', [Emit "error"; Emit "disconnected";
            LoadProto; WaitForReady; SetTimeout 100;
            LoadProto; WaitForReady; SetTimeout 100;
            LoadProto; WaitForReady; Emit "connected"; Emit "reconnected"])
    /\ connected s' = true /\ reconnectAttempts s' = 0%Z.
Proof.
  intros cfg.
  destruct (reconnect_succeeds 14 2 (subscribed cfg true))
    as (s' & Hrun & Hc & _ & _ & Ha).
  - discriminate.
  - reflexivity.
  - reflexivity.
  - reflexivity.
  - right. reflexivity.
  - exists s'. split; [exact Hrun|]. split; [exact Hc|exact Ha].
Defined.

Lemma failing_rounds_snoc (k : nat) :
  failing_rounds (S k) = failing_rounds k ++ failing_round.
Proof.
  induction k as [|k IH]; [reflexivity|].
  change (failing_round ++ failing_rounds (S k)
          = (failing_round ++ failing_rounds k) ++ failing_round).
  rewrite IH, app_assoc. reflexivity.
Qed.

Lemma failed_attempts_snoc (ms : Z) (k : nat) :
  failed_attempts ms (S k) = failed_attempts ms k ++ failed_attempt ms.
Proof.
  induction k as [|k IH]; [reflexivity|].
  change (failed_attempt ms ++ failed_attempts ms (S k)
          = (failed_attempt ms ++ failed_attempts ms k) ++ failed_attempt ms).
  rewrite IH, app_assoc. reflexivity.
Qed.

(* The failed attempt that uses up the budget. *)
Lemma failing_round_exhaust s :
  loop s = AwaitLoad -> reconnecting s = true ->
  (0 <= maxReconnectAttempts (config s) <= reconnectAttempts s)%Z ->
  run s failing_round
  = (set_loop NotRunning
       (set_reconnecting false
          (set_loop AwaitSleep (set_loop AwaitReady (set_client true s)))),
     [WaitForReady; SetTimeout (reconnectInterval (config s));
      Emit "reconnect_failed"]).
Proof.
  intros Hl Hr Hb. unfold failing_round. cbn [run].
  unfold step at 1. rewrite Hl.
  unfold step at 1. cbn [loop set_loop set_client].
  unfold step at 1. cbn [loop set_loop set_client].
  unfold attemptReconnect.
  cbn [reconnecting config set_loop set_client reconnectAttempts].
  rewrite Hr.
  assert (E : ((maxReconnectAttempts (config s) >=? 0)
               && (reconnectAttempts s >=? maxReconnectAttempts (config s)))%Z = true).
  { apply andb_true_intro. rewrite !Z.geb_leb. split; apply Z.leb_le; lia. }
  rewrite E. reflexivity.
Qed.

(* A stream error on an idle client whose counter has reached the budget. *)
Lemma stream_error_no_budget (code : Z) (s : State) :
  code <> CANCELLED -> errorListener s = true -> reconnecting s = false ->
  (0 <= maxReconnectAttempts (config s) <= reconnectAttempts s)%Z ->
  step s (StreamError code)
  = (set_loop NotRunning
       (set_reconnecting false (set_reconnecting true (set_connected false s))),
     [Emit "error"; Emit "disconnected"; Emit "reconnect_failed"]).
Proof.
  intros Hc Hl Hr Hb. unfold step, onStreamError.
  destruct (Z.eqb_spec code CANCELLED) as [E|_]; [contradiction|].
  rewrite Hl. unfold handleDisconnect. rewrite Hr. unfold attemptReconnect.
  cbn [reconnecting set_reconnecting set_connected config reconnectAttempts].
  assert (E : ((maxReconnectAttempts (config s) >=? 0)
               && (reconnectAttempts s >=? maxReconnectAttempts (config s)))%Z = true).
  { apply andb_true_intro. rewrite !Z.geb_leb. split; apply Z.leb_le; lia. }
  rewrite E. reflexivity.
Qed.

(** X25.  The budget is not renewed by running out.  With a budget of
    N >= 1, a stream error followed by N failed attempts ends in
    'reconnect_failed' with the counter left at N; the next stream error
    then gives 'error', 'disconnected' and 'reconnect_failed' at once, with
    no connect attempt, and leaves the counter at N. *)
Theorem budget_not_renewed (code : Z) (n : nat) (s : State) :
  code <> CANCELLED -> errorListener s = true -> reconnecting s = false ->
  reconnectAttempts s = 0%Z ->
  maxReconnectAttempts (config s) = Z.of_nat (S n) ->
  exists s1,
    run s (StreamError code :: failing_rounds (S n))
    = (s1, [Emit "error"; Emit "disconnected"]
           ++ failed_attempts (reconnectInterval (config s)) (S n)
           ++ [Emit "reconnect_failed"])
    /\ reconnectAttempts s1 = Z.of_nat (S n)
    /\ snd (step s1 (StreamError code))
       = [Emit "error"; Emit "disconnected"; Emit "reconnect_failed"]
    /\ reconnectAttempts (fst (step s1 (StreamError code))) = Z.of_nat (S n).
Proof.
  intros Hc Hl Hr Ha Hm. cbn [run].
  rewrite stream_error_first_attempt by (try assumption; lia).
  rewrite failing_rounds_snoc, ClientFacts.run_app.
  match goal with
  | |- context [run ?s1 (failing_rounds n)] =>
      destruct (failing_rounds_retry n s1)
        as (s2 & Hrun & Hl2 & Hr2 & Hc2 & He2 & Ha2)
  end.
  - reflexivity.
  - reflexivity.
  - cbn [config reconnectAttempts set_loop set_reconnectAttempts set_reconnecting
         set_connected]. lia.
  - cbn [config reconnectAttempts errorListener set_loop set_reconnectAttempts
         set_reconnecting set_connected] in Hrun, Hc2, He2, Ha2.
    rewrite Hrun.
    rewrite failing_round_exhaust by (try assumption; rewrite Hc2; lia).
    eexists. split; [|split; [|split]].
    + f_equal. rewrite Hc2, failed_attempts_snoc.
      change (failed_attempt (reconnectInterval (config s)))
        with ([LoadProto] ++ [WaitForReady; SetTimeout (reconnectInterval (config s))]).
      rewrite (app_assoc (failed_attempts _ n)), <- attempts_shift.
      cbn [app]. rewrite <- !app_assoc. reflexivity.
    + cbn [reconnectAttempts set_loop set_reconnecting set_client]. lia.
    + rewrite stream_error_no_budget; [reflexivity|exact Hc| | |].
      * cbn [errorListener set_loop set_reconnecting set_client]. congruence.
      * reflexivity.
      * cbn [config reconnectAttempts set_loop set_reconnecting set_client].
        rewrite Hc2. lia.
    + rewrite stream_error_no_budget; [|exact Hc| | |].
      * cbn [fst reconnectAttempts set_loop set_reconnecting set_client
             set_connected]. lia.
      * cbn [errorListener set_loop set_reconnecting set_client]. congruence.
      * reflexivity.
      * cbn [config reconnectAttempts set_loop set_reconnecting set_client].
        rewrite Hc2. lia.
Qed.

Lemma budget_not_renewed_witness :
  let cfg := mkClientConfig "localhost" None "axon-1" (Some 100%Z) (Some 2%Z) in
  snd (run (subscribed cfg true) (StreamError 14 :: failing_rounds 2 ++ [StreamError 14]))
  = [Emit "error"; Emit "disconnected";
     LoadProto; WaitForReady; SetTimeout 100;
     LoadProto; WaitForReady; SetTimeout 100;
     Emit "reconnect_failed";
     Emit "error"; Emit "disconnected"; Emit "reconnect_failed"].
Proof.
  intros cfg.
  destruct (budget_not_renewed 14 1 (subscribed cfg true))
    as (s1 & Hrun & _ & Hnext & _).
  - discriminate.
  - reflexivity.
  - reflexivity.
  - reflexivity.
  - reflexivity.
  - change (StreamError 14 :: failing_rounds 2 ++ [StreamError 14])
      with ((StreamError 14 :: failing_rounds 2) ++ [StreamError 14]).
    rewrite ClientFacts.run_app, Hrun. cbn [run].
    destruct (step s1 (StreamError 14)) as [s2 a2]. cbn [snd] in *.
    rewrite Hnext. reflexivity.
Defined.

(** X26.  Repeated signals are absorbed.  While a reconnect loop is pending,
    a further stream error changes nothing and emits only 'error' (nothing
    at all when the code is CANCELLED): no second 'disconnected', no second
    loop.  A second disconnect() changes nothing either and cancels and
    closes nothing, but it emits 'disconnected' again. *)
Theorem repeated_signals_absorbed (s : State) :
  (forall code : Z,
      reconnecting s = true -> errorListener s = true ->
      step s (StreamError code)
      = (s, if (code =? CANCELLED)%Z then [] else [Emit "error"]))
  /\ disconnect (fst (disconnect s)) = (fst (disconnect s), [Emit "disconnected"]).
Proof.
  split.
  - intros code Hr Hl. unfold step, onStreamError.
    destruct (code =? CANCELLED)%Z; [reflexivity|].
    rewrite Hl. unfold handleDisconnect. rewrite Hr. reflexivity.
  - reflexivity.
Qed.

Lemma repeated_signals_absorbed_witness :
  let cfg := mkClientConfig "localhost" None "axon-1" (Some 100%Z) None in
  let s := fst (run (subscribed cfg true) [StreamError 14; ProtoLoaded]) in
  step s (StreamError 13) = (s, [Emit "error"]).
Proof.
  intros cfg s.
  exact (proj1 (repeated_signals_absorbed s) 13%Z eq_refl eq_refl).
Defined.

End ClientSessionFacts.

(** ** The server's registry of subscriptions *)
Module ServerFacts.

Import Json AttachmentHandler Server.









Lemma filter_other_keys (k : string) (m : Registry) :
  ~ In k (map fst m) ->
  filter (fun kv => negb (String.eqb (fst kv) k)) m = m.
Proof.
  induction m as [|[k' v] m IH]; intros Hn; [reflexivity|].
  cbn [filter fst]. destruct (String.eqb_spec k' k) as [E|_].
  - exfalso. apply Hn. left. exact E.
  - cbn [negb]. f_equal. apply IH. intros H. apply Hn. right. exact H.
Qed.

Lemma delete_after_set (k : string) (x : nat) (m : Registry) :
  NoDup (map fst m) ->
  Map_delete k (obj_set k x m) = filter (fun kv => negb (String.eqb (fst kv) k)) m.
Proof.
  induction m as [|[k' v] m IH]; intros Hnd; cbn [obj_set].
  - cbn [Map_delete filter]. rewrite String.eqb_refl. reflexivity.
  - inversion Hnd as [|y l Hy Hl]; subst. cbn [filter fst].
    destruct (String.eqb_spec k' k) as [E|Ne]; cbn [Map_delete negb].
    + subst k'. rewrite String.eqb_refl. symmetry. apply filter_other_keys. exact Hy.
    + destruct (String.eqb_spec k' k) as [E|_]; [contradiction|].
      f_equal. apply IH. exact Hl.
Qed.

Lemma set_after_set (k : string) (x y : nat) (m : Registry) :
  obj_set k y (obj_set k x m) = obj_set k y m.
Proof.
  induction m as [|[k' v] m IH]; cbn [obj_set].
  - rewrite String.eqb_refl. reflexivity.
  - destruct (String.eqb_spec k' k) as [E|Ne]; cbn [obj_set].
    + subst k'. rewrite String.eqb_refl. reflexivity.
    + destruct (String.eqb_spec k' k) as [E|_]; [contradiction|].
      f_equal. exact IH.
Qed.

Lemma obj_get_filtered (k : string) (m : Registry) :
  obj_get k (filter (fun kv => negb (String.eqb (fst kv) k)) m) = None.
Proof.
  induction m as [|[k' v] m IH]; [reflexivity|].
  cbn [filter fst]. destruct (String.eqb k' k) eqn:E; cbn [negb]; [exact IH|].
  cbn [obj_get]. rewrite E. exact IH.
Qed.

(** X28.  Two subscriptions that share a client id share one registry entry:
    when the older one is cancelled, the entry of the younger one goes with
    it, so the younger subscription, still live, is no longer counted and
    stop() does not cancel it. *)
Theorem shared_client_id_orphans (subs : Registry) (older younger : Call) :
  NoDup (map fst subs) ->
  clientId older = clientId younger ->
  unsubscribe older <> unsubscribe younger ->
  ~ In (unsubscribe younger) (map snd subs) ->
  let result := handle_all subs [Subscribed older; Subscribed younger; Cancelled older] in
  snd result = [Unsubscribe (unsubscribe older)]
  /\ obj_get (clientId younger) (fst result) = None
  /\ (getStats (fst result) <= getStats subs)%nat
  /\ ~ In (Unsubscribe (unsubscribe younger)) (snd (stop (fst result))).
Proof.
  intros Hnd Hid Hne Hfresh. cbn zeta.
  cbn [handle_all handle fst snd handleSubscribeToFacets onCancelled app].
  unfold handleSubscribeToFacets.
  rewrite <- Hid, set_after_set, delete_after_set by exact Hnd.
  split; [reflexivity|]. split; [apply obj_get_filtered|]. split.
  - unfold getStats. apply filter_length_le.
  - unfold stop. cbn [snd]. intros Hin. apply in_map_iff in Hin.
    destruct Hin as ([k v] & Hv & Hkv). cbn [snd] in Hv. inversion Hv; subst v.
    apply filter_In in Hkv. apply Hfresh. apply in_map_iff.
    exists (k, unsubscribe younger). split; [reflexivity|tauto].
Qed.

Lemma shared_client_id_orphans_witness :
  let older := mkCall "axon-a" 1700000000000 1 in
  let younger := mkCall "axon-a" 1700000005000 2 in
  let result := handle_all [] [Subscribed older; Subscribed younger; Cancelled older] in
  fst result = [] /\ snd (stop (fst result)) = [].
Proof.
  intros older younger result.
  destruct (shared_client_id_orphans [] older younger) as (_ & _ & Hs & _).
  - constructor.
  - reflexivity.
  - discriminate.
  - intros [].
  - fold result in Hs. unfold getStats in Hs. cbn [List.length] in Hs.
    destruct (fst result) as [|x l]; [split; reflexivity|].
    cbn [List.length] in Hs. lia.
Defined.

End ServerFacts.
